(** * easy_file: atomic writes, the JSON codec and batched reads

    A shallow embedding of [src/src/easy_file/easy_file.py].

    The filesystem is a world of files (path -> content) and directories,
    together with a fault oracle: the [n]-th OS call of a run fails with
    [faults n] when that is [Some e].  Every OS call is appended to a trace
    together with a snapshot of the files after it, which is what any
    concurrent reader could observe between two calls. *)

From Stdlib Require Import Ascii ZArith Lia.
From stdpp Require Import base gmap list strings pretty.

Open Scope string_scope.

(** ** Python exceptions *)

(** The errno of an [OSError]; Python picks the subclass from it
    ([ENOENT] is [FileNotFoundError], [EACCES]/[EPERM] is
    [PermissionError], [EISDIR] is [IsADirectoryError], ...). *)
Inductive errno := ENOENT | EEXIST | EACCES | EPERM | ENOSPC | EIO | EISDIR | ENOTDIR.

Inductive exn :=
| OSError (e : errno)
| ValueError (msg : string)
| TypeError (msg : string)
| MsgspecDecodeError (msg : string)   (* msgspec.DecodeError *)
| MsgspecEncodeError (msg : string)   (* msgspec.EncodeError *)
| JSONDecodeError (msg : string)      (* easy_file.JSONDecodeError *)
| YAMLDecodeError (msg : string)      (* easy_file.YAMLDecodeError *)
| UserException (msg : string)        (* an Exception raised by the caller's code *)
| KeyboardInterrupt.                  (* a BaseException that is not an Exception *)

(** [except Exception] catches everything but the bare BaseExceptions. *)
Definition is_exception (e : exn) : bool :=
  match e with KeyboardInterrupt => false | _ => true end.

(** [suppress(OSError)] *)
Definition is_oserror (e : exn) : bool :=
  match e with OSError _ => true | _ => false end.

Inductive result (A : Type) := Ok (a : A) | Err (e : exn).
Arguments Ok {A} a.
Arguments Err {A} e.

Definition is_ok {A} (r : result A) : bool :=
  match r with Ok _ => true | Err _ => false end.

(** ** Paths *)

(** A [pathlib.Path] as its list of components. *)
Abbreviation path := (list string).

Definition parent (p : path) : path := List.removelast p.
Definition name (p : path) : string := List.last p "" .
Definition str (p : path) : string := String.concat "/" p.

(** ** The world *)

Inductive op :=
| OpMkdir (d : path)
| OpCreate (p : path)
| OpWrite (p : path)
| OpFlush (p : path)
| OpFsync (p : path)
| OpClose (p : path)
| OpReplace (src dst : path)
| OpRemove (p : path)
| OpRead (p : path)
| OpStat (p : path)           (* [os.stat], and the queries like it *)
| OpMeta (p : path).          (* [os.utime], [os.chmod] *)

Record event := Ev { ev_op : op; ev_ok : bool; ev_files : gmap path string }.

Record world := mkW {
  files : gmap path string;
  dirs : gset path;
  opened : gset path;          (* paths with an open, not yet closed file object *)
  tick : nat;                  (* number of OS calls made so far *)
  faults : nat -> option exn;  (* the fault oracle *)
  rnd : nat -> string;         (* tempfile's random name sequence *)
  trace : list event
}.

Definition set_files (f : gmap path string) (w : world) : world :=
  mkW f (dirs w) (opened w) (tick w) (faults w) (rnd w) (trace w).
Definition set_dirs (d : gset path) (w : world) : world :=
  mkW (files w) d (opened w) (tick w) (faults w) (rnd w) (trace w).
Definition set_opened (o : gset path) (w : world) : world :=
  mkW (files w) (dirs w) o (tick w) (faults w) (rnd w) (trace w).
Definition bump (w : world) : world :=
  mkW (files w) (dirs w) (opened w) (S (tick w)) (faults w) (rnd w) (trace w).
Definition log (o : op) (ok : bool) (w : world) : world :=
  mkW (files w) (dirs w) (opened w) (tick w) (faults w) (rnd w)
      (trace w ++ [Ev o ok (files w)])%list.

(** ** A state and exception monad *)

Definition M (A : Type) := world -> result A * world.

Definition ret {A} (a : A) : M A := fun w => (Ok a, w).
Definition raise {A} (e : exn) : M A := fun w => (Err e, w).
Definition bind {A B} (m : M A) (k : A -> M B) : M B := fun w =>
  match m w with
  | (Ok a, w1) => k a w1
  | (Err e, w1) => (Err e, w1)
  end.

Notation "x <- m ;; k" := (bind m (fun x => k))
  (at level 100, m at next level, right associativity).
Notation "m ;;; k" := (bind m (fun _ => k))
  (at level 99, right associativity).

(** [try: m except <catch>: h]: the handler runs when [catch e] holds. *)
Definition try_except {A} (catch : exn -> bool) (m : M A) (h : exn -> M A) : M A :=
  fun w => match m w with
           | (Err e, w1) => if catch e then h e w1 else (Err e, w1)
           | r => r
           end.

(** ** OS calls

    One OS call: it consumes one tick, fails with the oracle's exception
    without effect when the oracle says so, and is logged with the files
    it leaves behind. *)
Definition os_call {A} (o : op) (f : M A) : M A := fun w =>
  let w1 := bump w in
  match faults w (tick w) with
  | Some e => (Err e, log o false w1)
  | None => let '(r, w2) := f w1 in (r, log o (is_ok r) w2)
  end.

Definition is_dir (w : world) (d : path) : bool :=
  bool_decide (d = []) || bool_decide (d ∈ dirs w).

(** The nonempty prefixes of a directory path. *)
Fixpoint prefixes (d : path) : list path :=
  match d with
  | [] => []
  | c :: d' => [c] :: map (cons c) (prefixes d')
  end.

(** [Path.mkdir(parents=True, exist_ok=True)] *)
Definition mkdir_parents (d : path) : M unit :=
  os_call (OpMkdir d) (fun w =>
    if existsb (fun q => bool_decide (q ∈ dom (files w))) (prefixes d)
    then (Err (OSError (if bool_decide (d ∈ dom (files w)) then EEXIST else ENOTDIR)), w)
    else (Ok tt, set_dirs (list_to_set (prefixes d) ∪ dirs w) w)).

(** [os.open(p, O_CREAT | O_EXCL | O_RDWR)] as done by [tempfile]. *)
Definition create_excl (p : path) : M unit :=
  os_call (OpCreate p) (fun w =>
    if negb (is_dir w (parent p)) then (Err (OSError ENOENT), w)
    else if bool_decide (p ∈ dom (files w)) || bool_decide (p ∈ dirs w)
    then (Err (OSError EEXIST), w)
    else (Ok tt, set_opened ({[p]} ∪ opened w) (set_files (<[p := ""]> (files w)) w))).

(** [f.write(s)]: on a closed file object Python raises [ValueError]
    without any OS call. *)
Definition file_write (h : path) (s : string) : M unit := fun w =>
  if bool_decide (h ∈ opened w) then
    os_call (OpWrite h) (fun w =>
      (Ok tt, set_files (<[h := default "" (files w !! h) +:+ s]> (files w)) w)) w
  else (Err (ValueError "I/O operation on closed file."), w).

Definition file_flush (h : path) : M unit := fun w =>
  if bool_decide (h ∈ opened w) then os_call (OpFlush h) (ret tt) w
  else (Err (ValueError "I/O operation on closed file."), w).

(** [os.fsync(f.fileno())] *)
Definition file_fsync (h : path) : M unit := fun w =>
  if bool_decide (h ∈ opened w) then os_call (OpFsync h) (ret tt) w
  else (Err (ValueError "I/O operation on closed file"), w).

(** [f.close()]: a no-op on a closed file; a failing close still leaves
    the file object closed. *)
Definition file_close (h : path) : M unit := fun w =>
  if bool_decide (h ∈ opened w) then
    os_call (OpClose h) (ret tt) (set_opened (opened w ∖ {[h]}) w)
  else (Ok tt, w).

(** [os.replace(src, dst)] *)
Definition os_replace (src dst : path) : M unit :=
  os_call (OpReplace src dst) (fun w =>
    if bool_decide (dst ∈ dirs w) then (Err (OSError EISDIR), w) else
    match files w !! src with
    | Some c => (Ok tt, set_files (<[dst := c]> (delete src (files w))) w)
    | None => (Err (OSError ENOENT), w)
    end).

(** [os.remove(p)], and [Path.unlink(missing_ok)] *)
Definition unlink (missing_ok : bool) (p : path) : M unit :=
  os_call (OpRemove p) (fun w =>
    match files w !! p with
    | Some _ => (Ok tt, set_files (delete p (files w)) w)
    | None => if missing_ok then (Ok tt, w) else (Err (OSError ENOENT), w)
    end).

Definition os_remove := unlink false.

(** What [os.stat(p)] finds: the file or directory [p] names, given by
    its path (the model has no links), [NotADirectoryError] when the
    path runs through a regular file and [FileNotFoundError] otherwise. *)
Definition stat_result (w : world) (p : path) : result path :=
  if bool_decide (p ∈ dom (files w)) || is_dir w p then Ok p
  else if existsb (fun q => bool_decide (q ∈ dom (files w))) (prefixes (parent p))
  then Err (OSError ENOTDIR)
  else Err (OSError ENOENT).

(** [os.stat(p)]: one OS call, logged as [OpStat p]. *)
Definition os_stat (p : path) : M path :=
  os_call (OpStat p) (fun w => (stat_result w p, w)).

(** [os.utime(p)] and [os.chmod(p, mode)]: they change metadata only,
    which the model does not keep. *)
Definition os_setmeta (p : path) : M unit :=
  os_call (OpMeta p) (fun w =>
    match stat_result w p with Ok _ => (Ok tt, w) | Err e => (Err e, w) end).

Definition is_valueerror (e : exn) : bool :=
  match e with ValueError _ => true | _ => false end.

(** [os.path.exists(p)]: [try: os.stat(p) / except (OSError, ValueError):
    return False]. *)
Definition os_path_exists (p : path) : M bool :=
  try_except (fun e => is_oserror e || is_valueerror e) (_ <- os_stat p ;; ret true) (fun _ => ret false).

(** The errors [pathlib] ignores in [Path.exists]: [ENOENT], [ENOTDIR]
    (and [EBADF], [ELOOP], which [errno] does not list), and a
    [ValueError] of a path that cannot be encoded. *)
Definition path_exists_ignored (e : exn) : bool :=
  match e with OSError ENOENT | OSError ENOTDIR | ValueError _ => true | _ => false end.

(** [Path.exists()] as on Python 3.10 to 3.12: [self.stat()], re-raising
    every other error. *)
Definition Path_exists (p : path) : M bool :=
  try_except path_exists_ignored (_ <- os_stat p ;; ret true) (fun _ => ret false).

(** [Path.read_bytes()] *)
Definition read_bytes (p : path) : M string :=
  os_call (OpRead p) (fun w =>
    if bool_decide (p ∈ dirs w) then (Err (OSError EISDIR), w) else
    match files w !! p with
    | Some c => (Ok c, w)
    | None => (Err (OSError ENOENT), w)
    end).

(** ** [tempfile.NamedTemporaryFile(dir=..., prefix=..., delete=False)]

    [_mkstemp_inner]: try up to [TMP_MAX] random names
    [dir/prefix + name], skipping names that exist ([FileExistsError]). *)
Definition TMP_MAX : nat := N.to_nat 238328.

Fixpoint mkstemp_loop (n : nat) (dir : path) (pre : string) : M path :=
  match n with
  | O => raise (OSError EEXIST)
  | S n' => fun w =>
      let p := (dir ++ [pre +:+ rnd w (tick w)])%list in
      match create_excl p w with
      | (Ok _, w1) => (Ok p, w1)
      | (Err (OSError EEXIST), w1) => mkstemp_loop n' dir pre w1
      | (Err e, w1) => (Err e, w1)
      end
  end.

Definition NamedTemporaryFile (dir : path) (prefix : string) : M path :=
  mkstemp_loop TMP_MAX dir prefix.

(** [prefix=f".{self.name}."] *)
Definition tmp_prefix (self : path) : string := "." +:+ name self +:+ ".".

(** [with <file> as h: body]: [__exit__] closes the file, which does
    nothing when it is already closed; an exception of [__exit__]
    replaces the body's. *)
Definition with_file {A} (h : path) (body : M A) : M A := fun w =>
  let '(r, w1) := body w in
  match file_close h w1 with
  | (Ok _, w2) => (r, w2)
  | (Err e, w2) => (Err e, w2)
  end.

(** ** [File._atomic_write_bytes]

    The body of [with tempfile.NamedTemporaryFile(...) as tmp_file]. *)
Definition awb_block (tmp : path) (data : string) : M unit :=
  file_write tmp data ;;; file_flush tmp ;;; file_fsync tmp ;;; file_close tmp.

(** ** [File._atomic_write_bytes], continued

    The [try] block also sets the local [tmp_path], which the handler
    reads: it is returned next to the result. *)
Definition awb_try (self : path) (data : string) (w : world)
    : result unit * option path * world :=
  match NamedTemporaryFile (parent self) (tmp_prefix self) w with
  | (Err e, w1) => (Err e, None, w1)
  | (Ok tmp, w1) =>
      match with_file tmp (awb_block tmp data) w1 with
      | (Err e, w2) => (Err e, Some tmp, w2)
      | (Ok _, w2) => let '(r, w3) := os_replace tmp self w2 in (r, Some tmp, w3)
      end
  end.

(** [if tmp_path is not None and os.path.exists(tmp_path):
       with suppress(OSError): os.remove(tmp_path)] *)
Definition awb_cleanup (tmp_path : option path) : M unit :=
  match tmp_path with
  | Some t =>
      b <- os_path_exists t ;;
      if b then try_except is_oserror (os_remove t) (fun _ => ret tt) else ret tt
  | None => ret tt
  end.

Definition _atomic_write_bytes (self : path) (data : string) : M unit :=
  mkdir_parents (parent self) ;;;
  fun w =>
    let '(r, tmp_path, w1) := awb_try self data w in
    match r with
    | Ok _ => (Ok tt, w1)
    | Err e => if is_exception e then (awb_cleanup tmp_path ;;; raise e) w1
               else (Err e, w1)
    end.

(** ** [File.atomic_write]

    The caller's [with] block, as the actions it performs on the yielded
    file object: writes, and possibly a raise that ends it. *)
Inductive action := BWrite (s : string) | BRaise (e : exn).

Fixpoint run_block (h : path) (block : list action) : M unit :=
  match block with
  | [] => ret tt
  | BWrite s :: block' => file_write h s ;;; run_block h block'
  | BRaise e :: _ => raise e
  end.

(** What a block that does not raise has written. *)
Fixpoint block_text (block : list action) : string :=
  match block with
  | [] => ""
  | BWrite s :: block' => s +:+ block_text block'
  | BRaise _ :: _ => ""
  end.

Fixpoint has_char (c : ascii) (s : string) : bool :=
  match s with
  | EmptyString => false
  | String c' s' => bool_decide (c = c') || has_char c s'
  end.

(** The inner [try: yield; flush; close / except Exception: close; raise
    / else: tmp_path.replace(self)]; the block's exception is thrown into
    the generator at the [yield]. *)
Definition aw_inner (self tmp : path) (block : list action) : M unit := fun w =>
  match (run_block tmp block ;;; file_flush tmp ;;; file_close tmp) w with
  | (Err e, w1) => if is_exception e then (file_close tmp ;;; raise e) w1 else (Err e, w1)
  | (Ok _, w1) => os_replace tmp self w1
  end.

Definition aw_try (self : path) (block : list action) (w : world)
    : result unit * option path * world :=
  match NamedTemporaryFile (parent self) (tmp_prefix self) w with
  | (Err e, w1) => (Err e, None, w1)
  | (Ok tmp, w1) => let '(r, w2) := with_file tmp (aw_inner self tmp block) w1 in
                    (r, Some tmp, w2)
  end.

(** [if tmp_path is not None and tmp_path.exists():
       with suppress(OSError): tmp_path.unlink(missing_ok=True)] *)
Definition aw_cleanup (tmp_path : option path) : M unit :=
  match tmp_path with
  | Some t =>
      b <- Path_exists t ;;
      if b then try_except is_oserror (unlink true t) (fun _ => ret tt) else ret tt
  | None => ret tt
  end.

(** The text encoding (UTF-8 by default in text mode) does not change
    what reaches the files here: block writes are the encoded bytes. *)
Definition atomic_write (self : path) (mode : string) (encoding : option string)
    (block : list action) : M unit :=
  if match encoding with Some _ => has_char "b" mode | None => false end
  then raise (ValueError "encoding argument not supported in binary mode")
  else
    mkdir_parents (parent self) ;;;
    fun w =>
      let '(r, tmp_path, w1) := aw_try self block w in
      match r with
      | Ok _ => (Ok tt, w1)
      | Err e => if is_exception e then (aw_cleanup tmp_path ;;; raise e) w1
                 else (Err e, w1)
      end.

(** Sample worlds for the examples. *)
Definition w_init (f : gmap path string) (flt : nat -> option exn) : world :=
  mkW f ∅ ∅ 0 flt (fun n => "r" +:+ pretty n) [].


Open Scope nat_scope.

(** ** Python values and the msgspec JSON codec

    The values [msgspec] handles here.  A float is kept as the text msgspec
    writes for it (Python's shortest round-trip [repr]); the non-finite
    floats are told apart.  [PObj] is an object of a type msgspec does not
    support, named by its type. *)
Inductive pyfloat := FFinite (repr : string) | FNaN | FInf (neg : bool).

#[warnings="-register-all"]
Inductive pyval :=
| PNone
| PBool (b : bool)
| PInt (z : Z)
| PFloat (f : pyfloat)
| PStr (s : string)
| PList (vs : list pyval)
| PDict (kvs : list (string * pyval))
| PObj (tyname : string).

Definition rbind {A B} (r : result A) (k : A -> result B) : result B :=
  match r with Ok a => k a | Err e => Err e end.

(** A pure computation run inside [M]: no OS call, the world untouched. *)
Definition lift {A} (r : result A) : M A := fun w => (r, w).

Definition dq : ascii := "034".
Definition bs : ascii := "092".
Definition nl : ascii := "010".

Definition hex_digit (n : nat) : ascii :=
  ascii_of_nat (if n <? 10 then 48 + n else 87 + n).

(** The escapes of msgspec's JSON string writer: the quote, the
    backslash and the control characters; everything else, UTF-8
    included, is copied. *)
Definition json_escape_char (c : ascii) : string :=
  let n := nat_of_ascii c in
  if bool_decide (c = dq) then String bs (String dq EmptyString)
  else if bool_decide (c = bs) then String bs (String bs EmptyString)
  else if n =? 8 then String bs "b"
  else if n =? 9 then String bs "t"
  else if n =? 10 then String bs "n"
  else if n =? 12 then String bs "f"
  else if n =? 13 then String bs "r"
  else if n <? 32 then String bs ("u00" +:+ String (hex_digit (n / 16)) (String (hex_digit (n mod 16)) EmptyString))
  else String c EmptyString.

Fixpoint json_escape (s : string) : string :=
  match s with
  | EmptyString => EmptyString
  | String c s' => json_escape_char c +:+ json_escape s'
  end.

Definition json_str (s : string) : string :=
  String dq (json_escape s +:+ String dq EmptyString).

(** msgspec writes the non-finite floats as [null]. *)
Definition json_float (f : pyfloat) : string :=
  match f with FFinite r => r | FNaN | FInf _ => "null" end.

(** [_json_encoder.encode(data)]: compact JSON, keys in insertion order. *)
Fixpoint json_encode (v : pyval) : result string :=
  match v with
  | PNone => Ok "null"
  | PBool true => Ok "true"
  | PBool false => Ok "false"
  | PInt z => Ok (pretty z)
  | PFloat f => Ok (json_float f)
  | PStr s => Ok (json_str s)
  | PList vs =>
      rbind ((fix items (vs : list pyval) : result (list string) :=
                match vs with
                | [] => Ok []
                | v :: vs' => rbind (json_encode v) (fun s => rbind (items vs') (fun ss => Ok (s :: ss)))
                end) vs)
        (fun ss => Ok ("[" +:+ String.concat "," ss +:+ "]"))
  | PDict kvs =>
      rbind ((fix items (kvs : list (string * pyval)) : result (list string) :=
                match kvs with
                | [] => Ok []
                | (k, v) :: kvs' =>
                    rbind (json_encode v) (fun s =>
                      rbind (items kvs') (fun ss => Ok ((json_str k +:+ ":" +:+ s) :: ss)))
                end) kvs)
        (fun ss => Ok ("{" +:+ String.concat "," ss +:+ "}"))
  | PObj t => Err (TypeError ("Encoding objects of type " +:+ t +:+ " is unsupported"))
  end.

(** [msgspec.json.format(buf, indent=n)] for [n > 0], on the JSON text
    [buf] (here always the encoder's output, so it is not re-validated):
    a scan that copies strings verbatim, drops the whitespace between
    tokens, writes [": "] after a key, a newline and the indentation
    after [,] and around the items of a nonempty container, and writes
    an empty container as [{}] or [[]]. *)
Inductive fstate := FOut | FStr | FEsc | FOpen.

Definition json_ws (c : ascii) : bool :=
  bool_decide (c = " "%char) || bool_decide (nat_of_ascii c = 9) ||
  bool_decide (nat_of_ascii c = 10) || bool_decide (nat_of_ascii c = 13).
Definition is_opener (c : ascii) : bool := bool_decide (c = "{"%char) || bool_decide (c = "["%char).
Definition is_closer (c : ascii) : bool := bool_decide (c = "}"%char) || bool_decide (c = "]"%char).

Fixpoint spaces (n : nat) : string :=
  match n with O => EmptyString | S n' => String " " (spaces n') end.

Definition newline_indent (ind depth : nat) : string := String nl (spaces (ind * depth)).

Definition fmt_out (ind depth : nat) (c : ascii) : string * nat * fstate :=
  if json_ws c then (EmptyString, depth, FOut)
  else if is_opener c then (String c EmptyString, depth, FOpen)
  else if is_closer c then (newline_indent ind (depth - 1) +:+ String c EmptyString, depth - 1, FOut)
  else if bool_decide (c = ","%char) then ("," +:+ newline_indent ind depth, depth, FOut)
  else if bool_decide (c = ":"%char) then (": ", depth, FOut)
  else if bool_decide (c = dq) then (String c EmptyString, depth, FStr)
  else (String c EmptyString, depth, FOut).

Definition fmt_step (ind depth : nat) (st : fstate) (c : ascii) : string * nat * fstate :=
  match st with
  | FStr =>
      if bool_decide (c = bs) then (String c EmptyString, depth, FEsc)
      else if bool_decide (c = dq) then (String c EmptyString, depth, FOut)
      else (String c EmptyString, depth, FStr)
  | FEsc => (String c EmptyString, depth, FStr)
  | FOpen =>
      if json_ws c then (EmptyString, depth, FOpen)
      else if is_closer c then (String c EmptyString, depth, FOut)
      else let '(o, d, st') := fmt_out ind (S depth) c in
           (newline_indent ind (S depth) +:+ o, d, st')
  | FOut => fmt_out ind depth c
  end.

Fixpoint fmt_go (ind depth : nat) (st : fstate) (s : string) : string :=
  match s with
  | EmptyString => EmptyString
  | String c s' => let '(o, d, st') := fmt_step ind depth st c in o +:+ fmt_go ind d st' s'
  end.

Definition json_format (buf : string) (indent : nat) : string := fmt_go indent 0 FOut buf.

(** *** [_json_decoder.decode(content)]

    A JSON parser over the bytes.  On malformed input it raises
    [msgspec.DecodeError] with a message giving the byte offset (the
    wording of msgspec's messages is abbreviated). *)
Inductive pres (A : Type) := PFail (rest : list ascii) | POk (a : A) (rest : list ascii).
Arguments PFail {A} rest.
Arguments POk {A} a rest.

Fixpoint skip_ws (s : list ascii) : list ascii :=
  match s with
  | c :: s' => if json_ws c then skip_ws s' else s
  | [] => []
  end.

Definition next_is (c : ascii) (s : list ascii) : option (list ascii) :=
  match s with
  | c' :: s' => if bool_decide (c = c') then Some s' else None
  | [] => None
  end.

Fixpoint starts (p s : list ascii) : option (list ascii) :=
  match p with
  | [] => Some s
  | c :: p' => match next_is c s with Some s' => starts p' s' | None => None end
  end.

Definition json_digit (c : ascii) : bool :=
  (48 <=? nat_of_ascii c) && (nat_of_ascii c <=? 57).

Fixpoint take_digits (s : list ascii) : list ascii * list ascii :=
  match s with
  | c :: s' => if json_digit c then let '(ds, r) := take_digits s' in (c :: ds, r) else ([], s)
  | [] => ([], [])
  end.

Definition digits_value (ds : list ascii) : Z :=
  fold_left (fun z c => 10 * z + Z.of_nat (nat_of_ascii c - 48))%Z ds 0%Z.

(** A JSON number: an optional minus, an integer part with no leading
    zero, an optional fraction and an optional exponent.  It is an
    integer when there is neither a fraction nor an exponent, else a
    float kept as its text. *)
Definition parse_number (s : list ascii) : option (pyval * list ascii) :=
  let '(neg, s1) := match next_is "-" s with Some s' => (true, s') | None => (false, s) end in
  let '(ip, s2) := take_digits s1 in
  match ip with
  | [] => None
  | d :: ip' =>
      if bool_decide (d = "0"%char) && negb (bool_decide (ip' = [])) then None else
      let '(fr, s3, okf) :=
        match next_is "." s2 with
        | Some s' => let '(fd, r) := take_digits s' in ("."%char :: fd, r, negb (bool_decide (fd = [])))
        | None => ([], s2, true)
        end in
      let '(ex, s4, oke) :=
        match s3 with
        | e :: s' =>
            if bool_decide (e = "e"%char) || bool_decide (e = "E"%char) then
              let '(sg, s'') := match s' with
                                | c :: r => if bool_decide (c = "+"%char) || bool_decide (c = "-"%char)
                                            then ([c], r) else ([], s')
                                | [] => ([], s')
                                end in
              let '(ed, r) := take_digits s'' in ((e :: sg ++ ed)%list, r, negb (bool_decide (ed = [])))
            else ([], s3, true)
        | [] => ([], s3, true)
        end in
      if negb (okf && oke) then None
      else if bool_decide (fr = []) && bool_decide (ex = []) then
        Some (PInt (if neg then - digits_value ip else digits_value ip)%Z, s4)
      else
        Some (PFloat (FFinite (String.string_of_list_ascii ((if neg then ["-"%char] else []) ++ ip ++ fr ++ ex)%list)), s4)
  end.

Definition hex_value (c : ascii) : option N :=
  let n := N_of_ascii c in
  if (48 <=? n)%N && (n <=? 57)%N then Some (n - 48)%N
  else if (97 <=? n)%N && (n <=? 102)%N then Some (n - 87)%N
  else if (65 <=? n)%N && (n <=? 70)%N then Some (n - 55)%N
  else None.

Definition hex4 (a b c d : ascii) : option N :=
  match hex_value a, hex_value b, hex_value c, hex_value d with
  | Some x1, Some x2, Some x3, Some x4 => Some (((x1 * 16 + x2) * 16 + x3) * 16 + x4)%N
  | _, _, _, _ => None
  end.

(** The UTF-8 bytes of a code point. *)
Definition utf8 (cp : N) : list ascii :=
  map ascii_of_N
    (if (cp <? 128)%N then [cp]
     else if (cp <? 2048)%N then [192 + cp / 64; 128 + cp mod 64]%N
     else if (cp <? 65536)%N then [224 + cp / 4096; 128 + (cp / 64) mod 64; 128 + cp mod 64]%N
     else [240 + cp / 262144; 128 + (cp / 4096) mod 64; 128 + (cp / 64) mod 64; 128 + cp mod 64]%N).

Definition simple_escape (e : ascii) : option ascii :=
  if bool_decide (e = dq) then Some dq
  else if bool_decide (e = bs) then Some bs
  else if bool_decide (e = "/"%char) then Some "/"%char
  else if bool_decide (e = "b"%char) then Some (ascii_of_nat 8)
  else if bool_decide (e = "f"%char) then Some (ascii_of_nat 12)
  else if bool_decide (e = "n"%char) then Some (ascii_of_nat 10)
  else if bool_decide (e = "r"%char) then Some (ascii_of_nat 13)
  else if bool_decide (e = "t"%char) then Some (ascii_of_nat 9)
  else None.

(** The body of a string after its opening quote: the decoded bytes and
    the input after the closing quote.  A [\uXXXX] high surrogate must be
    followed by a [\uXXXX] low surrogate. *)
Fixpoint str_body (s : list ascii) : option (list ascii * list ascii) :=
  match s with
  | [] => None
  | c :: s' =>
      if bool_decide (c = dq) then Some ([], s')
      else if bool_decide (c = bs) then
        match s' with
        | [] => None
        | e :: s'' =>
            match simple_escape e with
            | Some d => match str_body s'' with Some (b, r) => Some (d :: b, r) | None => None end
            | None =>
                if negb (bool_decide (e = "u"%char)) then None else
                match s'' with
                | h1 :: h2 :: h3 :: h4 :: s3 =>
                    match hex4 h1 h2 h3 h4 with
                    | None => None
                    | Some cp =>
                        if (55296 <=? cp)%N && (cp <=? 56319)%N then
                          match s3 with
                          | b1 :: u :: l1 :: l2 :: l3 :: l4 :: s4 =>
                              match hex4 l1 l2 l3 l4 with
                              | Some lo =>
                                  if bool_decide (b1 = bs) && bool_decide (u = "u"%char) &&
                                     (56320 <=? lo)%N && (lo <=? 57343)%N then
                                    match str_body s4 with
                                    | Some (b, r) =>
                                        Some (utf8 (65536 + (cp - 55296) * 1024 + (lo - 56320))%N ++ b, r)%list
                                    | None => None
                                    end
                                  else None
                              | None => None
                              end
                          | _ => None
                          end
                        else if (56320 <=? cp)%N && (cp <=? 57343)%N then None
                        else match str_body s3 with Some (b, r) => Some (utf8 cp ++ b, r)%list | None => None end
                    end
                | _ => None
                end
            end
        end
      else if nat_of_ascii c <? 32 then None
      else match str_body s' with Some (b, r) => Some (c :: b, r) | None => None end
  end.

(** One value, after optional whitespace.  [fuel] bounds the nesting and
    [items] the length of one container; both start above the input's
    length, so they never run out on a real input. *)
Fixpoint parse_value (fuel : nat) (s : list ascii) : pres pyval :=
  match fuel with
  | O => PFail s
  | S fuel' =>
      let s := skip_ws s in
      match s with
      | [] => PFail []
      | c :: r =>
          if bool_decide (c = dq) then
            match str_body r with
            | Some (b, r') => POk (PStr (String.string_of_list_ascii b)) r'
            | None => PFail s
            end
          else if bool_decide (c = "["%char) then
            match next_is "]" (skip_ws r) with
            | Some r' => POk (PList []) r'
            | None =>
                (fix items (n : nat) (s : list ascii) (acc : list pyval) : pres pyval :=
                   match n with
                   | O => PFail s
                   | S n' =>
                       match parse_value fuel' s with
                       | PFail r => PFail r
                       | POk v r =>
                           let r := skip_ws r in
                           match next_is "," r with
                           | Some r' => items n' r' (v :: acc)
                           | None =>
                               match next_is "]" r with
                               | Some r' => POk (PList (rev (v :: acc))) r'
                               | None => PFail r
                               end
                           end
                       end
                   end) fuel' r []
            end
          else if bool_decide (c = "{"%char) then
            match next_is "}" (skip_ws r) with
            | Some r' => POk (PDict []) r'
            | None =>
                (fix members (n : nat) (s : list ascii) (acc : list (string * pyval)) : pres pyval :=
                   match n with
                   | O => PFail s
                   | S n' =>
                       let s := skip_ws s in
                       match next_is dq s with
                       | None => PFail s
                       | Some s1 =>
                           match str_body s1 with
                           | None => PFail s
                           | Some (k, s2) =>
                               let s2 := skip_ws s2 in
                               match next_is ":" s2 with
                               | None => PFail s2
                               | Some s3 =>
                                   match parse_value fuel' s3 with
                                   | PFail r => PFail r
                                   | POk v r =>
                                       let r := skip_ws r in
                                       let acc := (String.string_of_list_ascii k, v) :: acc in
                                       match next_is "," r with
                                       | Some r' => members n' r' acc
                                       | None =>
                                           match next_is "}" r with
                                           | Some r' => POk (PDict (rev acc)) r'
                                           | None => PFail r
                                           end
                                       end
                                   end
                               end
                           end
                       end
                   end) fuel' r []
            end
          else
            match starts (String.list_ascii_of_string "null") s with
            | Some r' => POk PNone r'
            | None =>
            match starts (String.list_ascii_of_string "true") s with
            | Some r' => POk (PBool true) r'
            | None =>
            match starts (String.list_ascii_of_string "false") s with
            | Some r' => POk (PBool false) r'
            | None =>
                match parse_number s with
                | Some (v, r') => POk v r'
                | None => PFail s
                end
            end
            end
            end
      end
  end.

Definition json_decode (content : string) : result pyval :=
  let l := String.list_ascii_of_string content in
  let at_byte (r : list ascii) := "(byte " +:+ pretty (length l - length r) +:+ ")" in
  match parse_value (S (length l)) l with
  | POk v r =>
      match skip_ws r with
      | [] => Ok v
      | r' => Err (MsgspecDecodeError ("JSON is malformed: trailing characters " +:+ at_byte r'))
      end
  | PFail r => Err (MsgspecDecodeError ("JSON is malformed: invalid character " +:+ at_byte r))
  end.

(** ** [File.dump_json], [File.load_json] and [File.dump_yaml] *)

(** The bytes [dump_json] writes, or the encoder's exception. *)
Definition json_bytes (data : pyval) (indent : Z) : result string :=
  if (0 <? indent)%Z
  then rbind (json_encode data) (fun s => Ok (json_format s (Z.to_nat indent)))
  else json_encode data.

Definition dump_json (self : path) (data : pyval) (indent : Z) : M unit :=
  json_bytes <- lift (json_bytes data indent) ;;
  _atomic_write_bytes self json_bytes.

Definition is_decode_error (e : exn) : bool :=
  match e with MsgspecDecodeError _ => true | _ => false end.

Definition decode_message (e : exn) : string :=
  match e with MsgspecDecodeError m => m | _ => EmptyString end.

(** [load_json()] without a [type]. *)
Definition load_json (self : path) : M pyval :=
  try_except is_decode_error
    (content <- read_bytes self ;; lift (json_decode content))
    (fun e => raise (JSONDecodeError ("Failed to decode JSON from " +:+ str self +:+ ": " +:+ decode_message e))).

(** [msgspec.yaml.encode] belongs to msgspec and PyYAML; [dump_yaml] is
    stated for any encoder. *)
Section Yaml.
Context (yaml_encode : pyval -> result string).

Definition dump_yaml (self : path) (data : pyval) : M unit :=
  yaml_bytes <- lift (yaml_encode data) ;;
  _atomic_write_bytes self yaml_bytes.

(** The three writers that go through a temporary file. *)
Inductive write_call :=
| CDumpJson (self : path) (data : pyval) (indent : Z)
| CDumpYaml (self : path) (data : pyval)
| CAtomicWrite (self : path) (mode : string) (encoding : option string) (block : list action).

Definition call_target (c : write_call) : path :=
  match c with CDumpJson p _ _ | CDumpYaml p _ | CAtomicWrite p _ _ _ => p end.

Definition run_call (c : write_call) : M unit :=
  match c with
  | CDumpJson self data indent => dump_json self data indent
  | CDumpYaml self data => dump_yaml self data
  | CAtomicWrite self mode encoding block => atomic_write self mode encoding block
  end.

(** What a successful call leaves at its target. *)
Definition call_payload (c : write_call) : result string :=
  match c with
  | CDumpJson _ data indent => json_bytes data indent
  | CDumpYaml _ data => yaml_encode data
  | CAtomicWrite _ _ _ block => Ok (block_text block)
  end.
End Yaml.

(** ** [File.read_many_async]

    [asyncio.gather] over one [asyncio.to_thread(self.read_text)] per
    path.  The worker threads' reads run in some order: [sched] lists the
    indices of the paths in that order (a permutation of [0 .. n-1]).
    Each completion fills its own slot; [gather] raises the first
    exception in completion order, the other reads still running.

    [Path.read_text()] opens the file in text mode, which [File.open]
    makes UTF-8 with [errors=None] (strict) and universal newlines: bytes
    that are not valid UTF-8 raise [UnicodeDecodeError], a [ValueError]
    (its message is not modelled), and [\r\n] and a lone [\r] both read
    as [\n].  The text read is kept as its UTF-8 bytes. *)
Definition byte_in (lo hi : nat) (c : ascii) : bool :=
  (lo <=? nat_of_ascii c) && (nat_of_ascii c <=? hi).

(** The range of the byte after the lead byte [c] of a three- or
    four-byte sequence: no overlong form, no surrogate, nothing above
    [U+10FFFF]. *)
Definition second_lo (c : ascii) : nat :=
  if nat_of_ascii c =? 224 then 160 else if nat_of_ascii c =? 240 then 144 else 128.
Definition second_hi (c : ascii) : nat :=
  if nat_of_ascii c =? 237 then 159 else if nat_of_ascii c =? 244 then 143 else 191.

(** What CPython's strict UTF-8 codec accepts. *)
Fixpoint utf8_valid (s : string) : bool :=
  match s with
  | EmptyString => true
  | String c r =>
      if byte_in 0 127 c then utf8_valid r
      else if byte_in 194 223 c then
        match r with
        | String c1 r1 => byte_in 128 191 c1 && utf8_valid r1
        | EmptyString => false
        end
      else if byte_in 224 239 c then
        match r with
        | String c1 (String c2 r2) =>
            byte_in (second_lo c) (second_hi c) c1 && byte_in 128 191 c2 && utf8_valid r2
        | _ => false
        end
      else if byte_in 240 244 c then
        match r with
        | String c1 (String c2 (String c3 r3)) =>
            byte_in (second_lo c) (second_hi c) c1 && byte_in 128 191 c2 &&
            byte_in 128 191 c3 && utf8_valid r3
        | _ => false
        end
      else false
  end.

Definition cr : ascii := "013".

(** Universal newlines on reading: [\r\n] and [\r] become [\n]. *)
Fixpoint translate_newlines (s : string) : string :=
  match s with
  | EmptyString => EmptyString
  | String c r =>
      if ascii_dec c cr then
        match r with
        | String c' r' =>
            if ascii_dec c' nl then String nl (translate_newlines r') else String nl (translate_newlines r)
        | EmptyString => String nl EmptyString
        end
      else String c (translate_newlines r)
  end.

(** The decoding step of a text-mode [f.read()]. *)
Definition decode_text (b : string) : result string :=
  if utf8_valid b then Ok (translate_newlines b)
  else Err (ValueError "'utf-8' codec can't decode byte").

(** [Path.read_text()]: [with self.open(mode="r") as f: return f.read()]. *)
Definition read_text (p : path) : M string :=
  b <- read_bytes p ;; lift (decode_text b).

Fixpoint gather_run (paths : list path) (sched : list nat)
    (slots : gmap nat string) (first : option exn) : M (gmap nat string * option exn) :=
  match sched with
  | [] => ret (slots, first)
  | i :: sched' => fun w =>
      match paths !! i with
      | None => gather_run paths sched' slots first w
      | Some p =>
          let '(r, w1) := read_text p w in
          match r with
          | Ok c => gather_run paths sched' (<[i := c]> slots) first w1
          | Err e => gather_run paths sched' slots
                       (match first with None => Some e | Some e0 => Some e0 end) w1
          end
      end
  end.

(** The result list in input order; for a permutation every slot is
    filled, so [default] is never used. *)
Definition read_many_async (paths : list path) (sched : list nat) : M (list string) :=
  x <- gather_run paths sched ∅ None ;;
  match x with
  | (_, Some e) => raise e
  | (slots, None) => ret (map (fun i => default EmptyString (slots !! i)) (seq 0 (length paths)))
  end.

(** ** Plain writes, appends, [touch], [size], [copy] and [load_yaml]

    The text of [write_text] and [append_text] is a [str], represented by
    its UTF-8 bytes; a [str] holding a lone surrogate, which the strict
    UTF-8 codec [File.open] gives text modes refuses, is represented by
    bytes that are not valid UTF-8.  [io.open]'s argument checks pass for
    the modes used here. *)

(** [f.write(s)] on a UTF-8 text file: the text is encoded first, and
    [UnicodeEncodeError] (a [ValueError]) is raised before any byte is
    written; on POSIX no newline is translated on writing. *)
Definition text_write (h : path) (s : string) : M unit :=
  if utf8_valid s then file_write h s
  else raise (ValueError "'utf-8' codec can't encode character: surrogates not allowed").

(** [os.open(p, O_CREAT | O_WRONLY | (O_APPEND or O_TRUNC))], made by
    [open(p, "a")], [open(p, "w")] and [Path.touch]: one OS call, logged
    as [OpCreate p] like [tempfile]'s.  Path resolution fails with
    [NotADirectoryError] at a file and [FileNotFoundError] at a missing
    directory; a directory itself gives [IsADirectoryError]. *)
Definition open_write (append : bool) (p : path) : M unit :=
  os_call (OpCreate p) (fun w =>
    if existsb (fun q => bool_decide (q ∈ dom (files w))) (prefixes (parent p))
    then (Err (OSError ENOTDIR), w)
    else if negb (is_dir w (parent p)) then (Err (OSError ENOENT), w)
    else if is_dir w p then (Err (OSError EISDIR), w)
    else (Ok tt, set_opened ({[p]} ∪ opened w)
                   (set_files (<[p := if append then default "" (files w !! p) else ""]> (files w)) w))).

(** [Path.write_text(data)]: [with self.open(mode="w") as f: f.write(data)]. *)
Definition write_text (p : path) (data : string) : M unit :=
  open_write false p ;;; with_file p (text_write p data).

(** [Path.write_bytes(data)]: [with self.open(mode="wb") as f: f.write(view)]. *)
Definition write_bytes (p : path) (data : string) : M unit :=
  open_write false p ;;; with_file p (file_write p data).

(** [File.write_text_async]: [asyncio.to_thread] runs [_write]. *)
Definition write_text_async (self : path) (data : string) : M unit :=
  mkdir_parents (parent self) ;;; write_text self data.

(** [File.write_bytes_async] *)
Definition write_bytes_async (self : path) (data : string) : M unit :=
  mkdir_parents (parent self) ;;; write_bytes self data.

(** [File.read_bytes_async] and [File.read_text_async] *)
Definition read_bytes_async (self : path) : M string := read_bytes self.
Definition read_text_async (self : path) : M string := read_text self.

(** [File.append_text]: [with self.open(mode="a") as f: f.write(text)]. *)
Definition append_text (self : path) (text : string) : M unit :=
  mkdir_parents (parent self) ;;;
  open_write true self ;;; with_file self (text_write self text).

(** [Path.touch()] ([exist_ok=True]): [os.utime(self)] first, and done
    if it succeeds; when it raises an [OSError], [os.open(self, O_CREAT |
    O_WRONLY)] and [os.close]. *)
Definition touch (p : path) : M unit :=
  bumped <- try_except is_oserror (os_setmeta p ;;; ret true) (fun _ => ret false) ;;
  if bumped then ret tt else open_write true p ;;; file_close p.

(** [File.touch_parents] *)
Definition touch_parents (self : path) : M unit :=
  mkdir_parents (parent self) ;;; touch self.

(** [File.size]: [self.stat().st_size]; the size of a directory is the
    file system's, [dir_size]. *)
Section Size.
Context (dir_size : path -> nat).

Definition size (self : path) : M nat :=
  st <- os_stat self ;;
  fun w => (Ok (match files w !! st with Some c => String.length c | None => dir_size st end), w).
End Size.

(** ** [File.copy]: [shutil.copy2] or [shutil.copy]

    [shutil.SameFileError] has no constructor in [exn]: the exception
    raised for two paths is a parameter.  [shutil]'s calls of [os.stat]
    are OS calls like the others, and so are those of [copystat] and
    [copymode], which change metadata the model does not keep. *)
Section Copy.
Context (SameFileError : path -> path -> exn).

(** [shutil._samefile]: [try: return os.path.samefile(src, dst) / except
    OSError: return False], where [os.path.samefile] compares
    [os.stat(src)] and [os.stat(dst)]. *)
Definition _samefile (src dst : path) : M bool :=
  try_except is_oserror
    (s1 <- os_stat src ;; s2 <- os_stat dst ;; ret (bool_decide (s1 = s2)))
    (fun _ => ret false).

(** [os.path.isdir(p)]: [False] when [os.stat] raises [OSError] or
    [ValueError]. *)
Definition os_path_isdir (p : path) : M bool :=
  try_except (fun e => is_oserror e || is_valueerror e)
    (_ <- os_stat p ;; fun w => (Ok (is_dir w p), w))
    (fun _ => ret false).

(** [copyfile]'s named-pipe check on one path: [try: st = _stat(fn) /
    except OSError: pass]; the model has no named pipes. *)
Definition fifo_check (p : path) : M unit :=
  try_except is_oserror (_ <- os_stat p ;; ret tt) (fun _ => ret tt).

(** [open(src, "rb")]: one OS call, logged as [OpRead src]. *)
Definition open_read (p : path) : M unit :=
  os_call (OpRead p) (fun w =>
    if bool_decide (p ∈ dirs w) then (Err (OSError EISDIR), w) else
    match files w !! p with
    | Some _ => (Ok tt, w)
    | None =>
        if existsb (fun q => bool_decide (q ∈ dom (files w))) (prefixes (parent p))
        then (Err (OSError ENOTDIR), w) else (Err (OSError ENOENT), w)
    end).

(** [with open(src, "rb") as fsrc: body]: [__exit__] closes [fsrc], one
    OS call, whose exception replaces the body's. *)
Definition with_read {A} (h : path) (body : M A) : M A := fun w =>
  let '(r, w1) := body w in
  match os_call (OpClose h) (ret tt) w1 with
  | (Ok _, w2) => (r, w2)
  | (Err e, w2) => (Err e, w2)
  end.

Definition is_isadirectory (e : exn) : bool :=
  match e with OSError EISDIR => true | _ => false end.

(** [shutil.copyfile(src, dst)]: the same-file test, the named-pipe
    checks, then [with open(src, "rb") as fsrc: try: with open(dst, "wb")
    as fdst: <copy> / except IsADirectoryError: if not
    os.path.exists(dst): raise FileNotFoundError / else: raise].  The
    copy loop writes what [fsrc] reads, [src]'s content at that moment,
    to [fdst]. *)
Definition copyfile (src dst : path) : M unit :=
  same <- _samefile src dst ;;
  if same then raise (SameFileError src dst) else
  fifo_check src ;;; fifo_check dst ;;;
  open_read src ;;;
  with_read src
    (try_except is_isadirectory
      (open_write false dst ;;;
       with_file dst (fun w => file_write dst (default "" (files w !! src)) w))
      (fun e => b <- os_path_exists dst ;; if b then raise e else raise (OSError ENOENT))).

(** [os.listxattr(src)] in [_copyxattr]: a query like [os.stat]; the
    model keeps no extended attributes, so there are none to set, and the
    errors [_copyxattr] ignores ([ENOTSUP], [ENODATA], [EINVAL]) are not
    in [errno]. *)
Definition os_listxattr (p : path) : M unit :=
  os_call (OpStat p) (fun w =>
    match stat_result w p with Ok _ => (Ok tt, w) | Err e => (Err e, w) end).

(** [shutil.copystat(src, dst)] on Linux: [os.stat(src)],
    [os.utime(dst)], [_copyxattr(src, dst)], [os.chmod(dst)]. *)
Definition copystat (src dst : path) : M unit :=
  _ <- os_stat src ;; os_setmeta dst ;;; os_listxattr src ;;; os_setmeta dst.

(** [shutil.copymode(src, dst)]: [os.stat(src)], [os.chmod(dst)]. *)
Definition copymode (src dst : path) : M unit :=
  _ <- os_stat src ;; os_setmeta dst.

(** [shutil.copy2(src, dst)] and [shutil.copy(src, dst)]: into
    [dst / basename(src)] when [os.path.isdir(dst)]. *)
Definition shutil_copy2 (src dst : path) : M path :=
  isd <- os_path_isdir dst ;;
  let dst' := if isd then (dst ++ [name src])%list else dst in
  copyfile src dst' ;;; copystat src dst' ;;; ret dst'.

Definition shutil_copy (src dst : path) : M path :=
  isd <- os_path_isdir dst ;;
  let dst' := if isd then (dst ++ [name src])%list else dst in
  copyfile src dst' ;;; copymode src dst' ;;; ret dst'.

(** [File.copy(target_path, preserve_metadata)] *)
Definition copy (self target : path) (preserve_metadata : bool) : M path :=
  mkdir_parents (parent target) ;;;
  (if preserve_metadata then shutil_copy2 self target else shutil_copy self target) ;;;
  ret target.
End Copy.

(** ** [File.load_yaml] without a [type]: [msgspec.yaml.decode] belongs
    to msgspec and PyYAML, and is a parameter. *)
Section YamlLoad.
Context (yaml_decode : string -> result pyval).

Definition load_yaml (self : path) : M pyval :=
  try_except is_decode_error
    (content <- read_bytes self ;; lift (yaml_decode content))
    (fun e => raise (YAMLDecodeError ("Failed to decode YAML from " +:+ str self +:+ ": " +:+ decode_message e))).
End YamlLoad.

(** Readable by [read_text]: a file that is not a directory, holding
    valid UTF-8. *)
Definition readable (w : world) (p : path) : Prop :=
  ~ (p ∈ dirs w) /\ exists c, files w !! p = Some c /\ utf8_valid c = true.

(** ** The error taxonomy

    The kinds a failure may be reported as, and the exception classes of
    the code that are one of them: [FileNotFoundError], [PermissionError],
    [JSONDecodeError], [YAMLDecodeError] and [msgspec.EncodeError].  A
    bare [OSError] (disk full, I/O error), [IsADirectoryError], a
    [TypeError] or a [ValueError] is none of them; the code defines no
    class for a write failure. *)
Inductive failure_kind := NotFound | PermissionDenied | DecodeError | EncodeError | WriteFailure.

Definition taxonomy_kind (e : exn) : option failure_kind :=
  match e with
  | OSError ENOENT => Some NotFound
  | OSError EACCES | OSError EPERM => Some PermissionDenied
  | JSONDecodeError _ | YAMLDecodeError _ => Some DecodeError
  | MsgspecEncodeError _ => Some EncodeError
  | _ => None
  end.

(** ** Staging files *)

(** The staging files of a write to [self]:
    [self.parent / (".{self.name}." + suffix)]. *)
Definition tmp_name (self p : path) : Prop :=
  exists s, p = (parent self ++ [tmp_prefix self +:+ s])%list.

(** The OS calls an atomic write to [self] may make; [sync] allows the
    [fsync] of a staging file. *)
Definition write_op (sync : bool) (self : path) (o : op) : Prop :=
  match o with
  | OpMkdir d => d = parent self
  | OpFsync p => sync = true /\ tmp_name self p
  | OpCreate p | OpWrite p | OpFlush p | OpClose p | OpRemove p => tmp_name self p
  | OpReplace src dst => tmp_name self src /\ dst = self
  | OpStat p => tmp_name self p
  | OpRead _ | OpMeta _ => False
  end.

(** ** Sample values *)

Definition quoted (s : string) : string := String dq (s +:+ String dq EmptyString).

Definition config : pyval := PDict [("name", PStr "Easy File"); ("version", PStr "0.4.0")].

Definition is_fsync (o : op) : bool := match o with OpFsync _ => true | _ => false end.

Definition no_faults : nat -> option exn := fun _ => None.

Definition c1_call : write_call :=
  CAtomicWrite ["d"; "f.txt"] "w" None [BWrite "new"; BRaise (UserException "boom")].

Definition c1_world : world := w_init {[ ["d"; "f.txt"] := "old" ]} no_faults.

(** A world with a directory [data]. *)
Definition dir_world : world := set_dirs {[ ["data"] ]} (w_init ∅ no_faults).



Definition bad_json_world : world := w_init {[ ["c.json"] := "{bad json" ]} no_faults.



(** ** Frame reasoning

    [preserves Q m]: every run of [m] from [w] to [w'] relates them by
    [Q].  [frames Pop t]: the content of [t] is the same at the end and in
    every snapshot logged on the way, and every logged OS call satisfies
    [Pop]. *)

Definition preserves {A} (Q : world -> world -> Prop) (m : M A) : Prop :=
  forall w r w', m w = (r, w') -> Q w w'.

Definition trace_ext (P : event -> Prop) (w w' : world) : Prop :=
  exists l, trace w' = (trace w ++ l)%list /\ Forall P l.

Definition frames (Pop : op -> Prop) (t : path) (w w' : world) : Prop :=
  files w' !! t = files w !! t /\
  trace_ext (fun ev => Pop (ev_op ev) /\ ev_files ev !! t = files w !! t) w w'.

(** Effect functions passed to [os_call]: they leave [t] and the
    trace alone. *)
Definition quiet {A} (t : path) (f : M A) : Prop :=
  forall w r w', f w = (r, w') -> files w' !! t = files w !! t /\ trace w' = trace w.

#[export] Instance trace_ext_preorder P : PreOrder (trace_ext P).
Proof.
  split.
  - intros w. exists []. split; [by rewrite app_nil_r | constructor].
  - intros w1 w2 w3 [l1 [E1 F1]] [l2 [E2 F2]]. exists (l1 ++ l2)%list.
    split; [by rewrite E2, E1, app_assoc | by apply Forall_app].
Qed.

#[export] Instance frames_preorder Pop t : PreOrder (frames Pop t).
Proof.
  split.
  - intros w. split; [done |]. exists []. split; [by rewrite app_nil_r | constructor].
  - intros w1 w2 w3 [H12 [l1 [E1 F1]]] [H23 [l2 [E2 F2]]]. split; [congruence |].
    exists (l1 ++ l2)%list. split; [by rewrite E2, E1, app_assoc |].
    apply Forall_app; split; [done |]. rewrite <- H12. done.
Qed.

Section Preserves.
Context (Q : world -> world -> Prop) `{!PreOrder Q}.

Lemma preserves_ret {A} (a : A) : preserves Q (ret a).
Proof. intros w r w' H. injection H as <- <-. reflexivity. Qed.

Lemma preserves_raise {A} e : preserves Q (raise (A:=A) e).
Proof. intros w r w' H. injection H as <- <-. reflexivity. Qed.

Lemma preserves_bind {A B} (m : M A) (k : A -> M B) :
  preserves Q m -> (forall a, preserves Q (k a)) -> preserves Q (bind m k).
Proof.
  intros Hm Hk w r w' H. unfold bind in H.
  destruct (m w) as [[a|e] w1] eqn:E.
  - transitivity w1; [by eapply Hm | by eapply Hk].
  - injection H as <- <-. by eapply Hm.
Qed.

Lemma preserves_try_except {A} c (m : M A) h :
  preserves Q m -> (forall e, preserves Q (h e)) -> preserves Q (try_except c m h).
Proof.
  intros Hm Hh w r w' H. unfold try_except in H.
  destruct (m w) as [[a|e] w1] eqn:E.
  - injection H as <- <-. by eapply Hm.
  - destruct (c e).
    + transitivity w1; [by eapply Hm | by eapply Hh].
    + injection H as <- <-. by eapply Hm.
Qed.

Lemma preserves_with_file {A} h (m : M A) :
  preserves Q m -> preserves Q (file_close h) -> preserves Q (with_file h m).
Proof.
  intros Hm Hc w r w' H. unfold with_file in H.
  destruct (m w) as [r1 w1] eqn:E. transitivity w1; [by eapply Hm |].
  destruct (file_close h w1) as [[u|e] w2] eqn:E2; injection H as <- <-; by eapply Hc.
Qed.
End Preserves.

Lemma preserves_os_call_frames {A} (Pop : op -> Prop) t o (f : M A) :
  Pop o -> quiet t f -> preserves (frames Pop t) (os_call o f).
Proof.
  intros Ho Hf w r w' H. unfold os_call in H.
  destruct (faults w (tick w)) as [e|].
  - injection H as <- <-. split; [done |].
    exists [Ev o false (files w)]. split; [done | by repeat constructor].
  - destruct (f (bump w)) as [r2 w2] eqn:E. injection H as <- <-.
    destruct (Hf _ _ _ E) as [Ht Htr]. cbn in *. split; [done |].
    unfold trace_ext; cbn. rewrite Htr. eexists. split; [done |].
    repeat constructor; [done | cbn; congruence].
Qed.

Ltac quiet_tac :=
  let w := fresh "w" in let r := fresh "r" in let w' := fresh "w'" in
  let H := fresh "H" in
  intros w r w' H; cbv [ret raise] in H; repeat case_match; simplify_eq/=; try done;
  try (split; [| done]; simplify_map_eq; done).

Lemma frames_same_ft Pop t w w' :
  files w' = files w -> trace w' = trace w -> frames Pop t w w'.
Proof.
  intros Hf Ht. split; [by rewrite Hf |]. exists []. rewrite Ht, app_nil_r. split; [done | constructor].
Qed.

Section Primitives.
Context (Pop : op -> Prop) (t : path).

Lemma mkdir_parents_frames d : Pop (OpMkdir d) -> preserves (frames Pop t) (mkdir_parents d).
Proof. intros Ho. apply preserves_os_call_frames; [done |]. quiet_tac. Qed.

Lemma create_excl_frames p :
  Pop (OpCreate p) -> p <> t -> preserves (frames Pop t) (create_excl p).
Proof. intros Ho Hne. apply preserves_os_call_frames; [done |]. quiet_tac. Qed.

Lemma file_write_frames h s :
  Pop (OpWrite h) -> h <> t -> preserves (frames Pop t) (file_write h s).
Proof.
  intros Ho Hne w r w' H. unfold file_write in H. case_bool_decide.
  - revert H. apply preserves_os_call_frames; [done |]. quiet_tac.
  - injection H as <- <-. reflexivity.
Qed.

Lemma file_flush_frames h : Pop (OpFlush h) -> preserves (frames Pop t) (file_flush h).
Proof.
  intros Ho w r w' H. unfold file_flush in H. case_bool_decide.
  - revert H. apply preserves_os_call_frames; [done |]. quiet_tac.
  - injection H as <- <-. reflexivity.
Qed.

Lemma file_fsync_frames h : Pop (OpFsync h) -> preserves (frames Pop t) (file_fsync h).
Proof.
  intros Ho w r w' H. unfold file_fsync in H. case_bool_decide.
  - revert H. apply preserves_os_call_frames; [done |]. quiet_tac.
  - injection H as <- <-. reflexivity.
Qed.

Lemma file_close_frames h : Pop (OpClose h) -> preserves (frames Pop t) (file_close h).
Proof.
  intros Ho w r w' H. unfold file_close in H. case_bool_decide.
  - transitivity (set_opened (opened w ∖ {[h]}) w); [by apply frames_same_ft |].
    revert H. apply preserves_os_call_frames; [done |]. quiet_tac.
  - injection H as <- <-. reflexivity.
Qed.

Lemma os_replace_frames src dst :
  Pop (OpReplace src dst) -> src <> t -> dst <> t ->
  preserves (frames Pop t) (os_replace src dst).
Proof. intros Ho Hs Hd. apply preserves_os_call_frames; [done |]. quiet_tac. Qed.

Lemma unlink_frames b p : Pop (OpRemove p) -> p <> t -> preserves (frames Pop t) (unlink b p).
Proof. intros Ho Hne. apply preserves_os_call_frames; [done |]. quiet_tac. Qed.

Lemma os_stat_frames p : Pop (OpStat p) -> preserves (frames Pop t) (os_stat p).
Proof. intros Ho. apply preserves_os_call_frames; [done |]. quiet_tac. Qed.

Lemma os_path_exists_frames p : Pop (OpStat p) -> preserves (frames Pop t) (os_path_exists p).
Proof.
  intros Ho. apply preserves_try_except; [apply _ | | intros; apply preserves_ret, _].
  apply preserves_bind; [apply _ | by apply os_stat_frames | intros; apply preserves_ret, _].
Qed.

Lemma Path_exists_frames p : Pop (OpStat p) -> preserves (frames Pop t) (Path_exists p).
Proof.
  intros Ho. apply preserves_try_except; [apply _ | | intros; apply preserves_ret, _].
  apply preserves_bind; [apply _ | by apply os_stat_frames | intros; apply preserves_ret, _].
Qed.

Lemma read_bytes_frames p : Pop (OpRead p) -> preserves (frames Pop t) (read_bytes p).
Proof. intros Ho. apply preserves_os_call_frames; [done |]. quiet_tac. Qed.

Lemma mkstemp_loop_frames n dir pre :
  (forall s, Pop (OpCreate (dir ++ [pre +:+ s])%list)) ->
  (forall s, t <> (dir ++ [pre +:+ s])%list) ->
  preserves (frames Pop t) (mkstemp_loop n dir pre).
Proof.
  intros Ho Ht. induction n as [|n IH]; cbn.
  - apply preserves_raise, _.
  - intros w r w' H.
    destruct (create_excl _ w) as [[u|e] w1] eqn:E.
    + injection H as <- <-. revert E. apply create_excl_frames; auto.
    + transitivity w1; [revert E; apply create_excl_frames; auto |].
      destruct e as [[]| | | | | | | |]; try (injection H as <- <-; reflexivity).
      by eapply IH.
Qed.
End Primitives.

(** ** What the primitives do *)

Ltac bd := repeat match goal with
  | H : bool_decide _ = true |- _ => apply bool_decide_eq_true in H
  | H : bool_decide _ = false |- _ => apply bool_decide_eq_false in H
  | H : (_ || _)%bool = false |- _ => apply orb_false_iff in H as [? ?]
  | H : negb _ = false |- _ => apply negb_false_iff in H
  end.

Lemma string_length_app (s1 s2 : string) :
  String.length (s1 +:+ s2) = String.length s1 + String.length s2.
Proof. induction s1 as [|c s1 IH]; [reflexivity | exact (f_equal S IH)]. Qed.

(** The staging file is never the target itself. *)
Lemma tmp_path_ne self s : (parent self ++ [tmp_prefix self +:+ s])%list <> self.
Proof.
  destruct self as [|x xs _] using rev_ind; [by destruct (parent []) |].
  unfold tmp_prefix, parent, name. rewrite removelast_last, last_last.
  intros E. apply app_inj_tail in E as [_ E].
  apply (f_equal String.length) in E. rewrite !string_length_app in E. cbn in E. lia.
Qed.

Lemma mkdir_parents_files d w r w' :
  mkdir_parents d w = (r, w') ->
  files w' = files w /\ trace w' = (trace w ++ [Ev (OpMkdir d) (is_ok r) (files w)])%list.
Proof.
  unfold mkdir_parents, os_call. intros H. repeat case_match; simplify_eq/=; done.
Qed.

Lemma create_excl_spec p w r w' :
  create_excl p w = (r, w') ->
  trace w' = (trace w ++ [Ev (OpCreate p) (is_ok r) (files w')])%list /\
  match r with
  | Ok _ => files w !! p = None /\ files w' = <[p := ""]> (files w) /\ p ∈ opened w'
  | Err _ => files w' = files w
  end.
Proof.
  unfold create_excl, os_call. intros H.
  repeat case_match; bd; simplify_eq/=; try done.
  split; [done |]. split; [by apply not_elem_of_dom | split; [done | set_solver]].
Qed.

Lemma mkstemp_loop_spec n dir pre w r w' :
  mkstemp_loop n dir pre w = (r, w') ->
  exists l, trace w' = (trace w ++ l)%list /\
  match r with
  | Ok p => exists s qs, p = (dir ++ [pre +:+ s])%list /\ files w !! p = None /\
            files w' = <[p := ""]> (files w) /\ p ∈ opened w' /\
            map ev_op l = (map OpCreate qs ++ [OpCreate p])%list
  | Err _ => files w' = files w
  end.
Proof.
  revert w. induction n as [|n IH]; intros w H; cbn in H.
  - injection H as <- <-. exists []. by rewrite app_nil_r.
  - destruct (create_excl _ w) as [[u|e] w1] eqn:E;
      destruct (create_excl_spec _ _ _ _ E) as [Htr Hr].
    + injection H as <- <-. eexists. split; [exact Htr |].
      destruct Hr as (Hn & Hf & Ho). eexists _, []. eauto.
    + destruct e as [[]| | | | | | | |];
        try (cbn in H; injection H as <- <-; eexists; split; [exact Htr | done]).
      cbn in Hr. destruct (IH _ H) as (l & Htr' & Hr'). rewrite Htr, <- app_assoc in Htr'.
      eexists. split; [exact Htr' |]. destruct r as [p|e].
      * destruct Hr' as (s & qs & -> & Hn & Hf & Ho & Hops). rewrite Hr in Hn, Hf.
        exists s, ((dir ++ [pre +:+ rnd w (tick w)])%list :: qs). repeat split; try done.
        cbn. by rewrite Hops.
      * by rewrite Hr', Hr.
Qed.

Lemma os_replace_spec src dst w r w' :
  os_replace src dst w = (r, w') ->
  (r = Ok tt /\ exists c, files w !! src = Some c /\
     files w' = <[dst := c]> (delete src (files w)) /\
     trace w' = (trace w ++ [Ev (OpReplace src dst) true (files w')])%list)
  \/ (is_ok r = false /\ files w' = files w /\
     exists ok, trace w' = (trace w ++ [Ev (OpReplace src dst) ok (files w)])%list).
Proof.
  unfold os_replace, os_call. intros H.
  repeat case_match; bd; simplify_eq/=.
  all: first [ left; split; [done | eauto] | right; split; [done | split; [done | eauto]] ].
Qed.

Lemma awb_block_ok tmp data w w' c0 :
  tmp ∈ opened w -> files w !! tmp = Some c0 ->
  with_file tmp (awb_block tmp data) w = (Ok tt, w') ->
  files w' = <[tmp := c0 +:+ data]> (files w) /\
  exists l, trace w' = (trace w ++ l)%list /\
    map ev_op l = [OpWrite tmp; OpFlush tmp; OpFsync tmp; OpClose tmp].
Proof.
  intros Ho Hc H.
  cbv [with_file awb_block bind file_write file_flush file_fsync file_close os_call ret raise] in H.
  cbn in H. rewrite Hc in H. cbn in H.
  repeat (case_match; bd; simplify_eq/=; try set_solver).
  split; [done |]. eexists. split; [by rewrite <- !app_assoc | done].
Qed.

Lemma awb_block_frames Pop t tmp data :
  Pop (OpWrite tmp) -> Pop (OpFlush tmp) -> Pop (OpFsync tmp) -> Pop (OpClose tmp) ->
  tmp <> t -> preserves (frames Pop t) (with_file tmp (awb_block tmp data)).
Proof.
  intros. apply preserves_with_file; [apply _ | | by apply file_close_frames].
  unfold awb_block.
  repeat (apply preserves_bind; [apply _ | | intros _]);
    auto using file_write_frames, file_flush_frames, file_fsync_frames, file_close_frames.
Qed.

(** A run that frames every path but [h] changes nothing but [h]. *)
Lemma frames_others {A} (m : M A) h w r w' :
  (forall t, t <> h -> preserves (frames (fun _ => True) t) m) ->
  m w = (r, w') -> forall p, p <> h -> files w' !! p = files w !! p.
Proof. intros Hm H p Hp. by destruct (Hm p Hp _ _ _ H). Qed.

(** A cleanup whose OS calls on [t] all succeeded has removed [t]. *)
Definition cleanup_failed (l : list event) (t : path) : Prop :=
  exists fs, In (Ev (OpStat t) false fs) l \/ In (Ev (OpRemove t) false fs) l.

Ltac cleanup_tac :=
  intros H; repeat case_match; bd; simplify_eq/=;
  repeat match goal with Hs : stat_result _ _ = _ |- context [stat_result _ _] => rewrite Hs end; cbn;
  (split; [intros p Hp; by rewrite ?lookup_delete_ne |]);
  first [ left; by rewrite ?lookup_delete_eq
        | left; by apply not_elem_of_dom
        | right; eexists; split; [by rewrite <- ?app_assoc |]; eexists; cbn;
          first [left; left; reflexivity | right; left; reflexivity | right; right; left; reflexivity] ].

Lemma awb_cleanup_spec t w r w' :
  awb_cleanup (Some t) w = (r, w') ->
  (forall p, p <> t -> files w' !! p = files w !! p) /\
  (files w' !! t = None \/ exists l, trace w' = (trace w ++ l)%list /\ cleanup_failed l t).
Proof.
  cbv [awb_cleanup bind os_path_exists os_stat try_except os_remove unlink os_call ret raise].
  cleanup_tac.
Qed.

Lemma aw_cleanup_spec t w r w' :
  aw_cleanup (Some t) w = (r, w') ->
  (forall p, p <> t -> files w' !! p = files w !! p) /\
  (files w' !! t = None \/ exists l, trace w' = (trace w ++ l)%list /\ cleanup_failed l t).
Proof.
  cbv [aw_cleanup bind Path_exists os_stat try_except unlink os_call ret raise].
  cleanup_tac.
Qed.

Lemma tmp_name_ne self p : tmp_name self p -> p <> self.
Proof. intros [s ->]. apply tmp_path_ne. Qed.

Lemma frames_mkstemp sync self w tmp w1 :
  NamedTemporaryFile (parent self) (tmp_prefix self) w = (tmp, w1) ->
  frames (write_op sync self) self w w1.
Proof.
  intros E. revert E. apply mkstemp_loop_frames.
  - intros s. cbn. by exists s.
  - intros s. apply not_eq_sym, tmp_path_ne.
Qed.

Lemma awb_try_spec self data w r tp w' :
  awb_try self data w = (r, tp, w') ->
  match r with
  | Ok _ =>
      exists tmp w2 qs, tp = Some tmp /\ tmp_name self tmp /\
      frames (write_op true self) self w w2 /\
      trace w' = (trace w2 ++ [Ev (OpReplace tmp self) true (files w')])%list /\
      files w' = <[self := data]> (files w) /\
      exists l, trace w' = (trace w ++ l)%list /\
      map ev_op l = (map OpCreate qs ++ [OpCreate tmp; OpWrite tmp; OpFlush tmp;
                                         OpFsync tmp; OpClose tmp; OpReplace tmp self])%list
  | Err _ =>
      frames (write_op true self) self w w' /\
      match tp with
      | None => files w' = files w
      | Some tmp => tmp_name self tmp /\ files w !! tmp = None /\
                    forall p, p <> tmp -> files w' !! p = files w !! p
      end
  end.
Proof.
  unfold awb_try. intros H.
  destruct (NamedTemporaryFile _ _ w) as [[tmp|e] w1] eqn:En.
  2: { injection H as <- <- <-. split; [by eapply frames_mkstemp |].
       destruct (mkstemp_loop_spec _ _ _ _ _ _ En) as (l & _ & Hf). exact Hf. }
  pose proof (frames_mkstemp true _ _ _ _ En) as Hfr1.
  destruct (mkstemp_loop_spec _ _ _ _ _ _ En) as (l1 & Htr1 & s & qs & -> & Hfresh & Hf1 & Ho1 & Hops1).
  set (tmp := (parent self ++ [tmp_prefix self +:+ s])%list) in *.
  assert (Htn : tmp_name self tmp) by (by exists s).
  assert (Hne : tmp <> self) by apply tmp_path_ne.
  assert (Hc1 : files w1 !! tmp = Some "") by (rewrite Hf1; apply lookup_insert_eq).
  assert (Hfrb : preserves (frames (write_op true self) self) (with_file tmp (awb_block tmp data)))
    by (apply awb_block_frames; cbn; auto).
  assert (Hoth : forall t, t <> tmp ->
            preserves (frames (fun _ => True) t) (with_file tmp (awb_block tmp data)))
    by (intros; apply awb_block_frames; auto).
  destruct (with_file tmp (awb_block tmp data) w1) as [[u|e] w2] eqn:Eb.
  - destruct (os_replace tmp self w2) as [r3 w3] eqn:Er. injection H as <- <- <-.
    destruct u. destruct (awb_block_ok _ _ _ _ _ Ho1 Hc1 Eb) as [Hf2 (l2 & Htr2 & Hops2)].
    assert (Hfr2 : frames (write_op true self) self w w2) by (etransitivity; [exact Hfr1 | by eapply Hfrb]).
    destruct (os_replace_spec _ _ _ _ _ Er) as [(-> & c & Hc & Hf3 & Htr3) | (Hr3 & Hf3 & ok & Htr3)].
    + rewrite Hf2, Hf1 in Hc. rewrite lookup_insert_eq in Hc. injection Hc as <-.
      exists tmp, w2, qs. split; [done |]. split; [done |]. split; [done |]. split; [done |].
      split.
      { rewrite Hf3, Hf2, Hf1. apply map_eq. intros p.
        destruct (decide (p = self)) as [->|Hps]; [by rewrite !lookup_insert_eq |].
        rewrite lookup_insert_ne by congruence.
        destruct (decide (p = tmp)) as [->|Hpt]; [rewrite lookup_delete_eq, lookup_insert_ne by congruence; symmetry; exact Hfresh |].
        rewrite lookup_delete_ne, !lookup_insert_ne by congruence. done. }
      eexists. split.
      { rewrite Htr3, Htr2, Htr1, <- !app_assoc. reflexivity. }
      rewrite !map_app, Hops1, Hops2. cbn. rewrite <- !app_assoc. reflexivity.
    + destruct r3 as [[]|e3]; [done |].
      split.
      { etransitivity; [exact Hfr2 | split; [by rewrite Hf3 |]].
        exists [Ev (OpReplace tmp self) ok (files w2)]. split; [done |].
        constructor; [split; [split; done | done] | constructor]. }
      split; [done |]. split; [exact Hfresh |].
      intros p Hp. rewrite Hf3, Hf2, Hf1, !lookup_insert_ne by congruence. done.
  - injection H as <- <- <-. split; [etransitivity; [exact Hfr1 | by eapply Hfrb] |].
    split; [done |]. split; [exact Hfresh |].
    intros p Hp. rewrite (frames_others _ _ _ _ _ Hoth Eb p Hp), Hf1, lookup_insert_ne by congruence.
    done.
Qed.

Lemma cleanup_frames sync self tmp :
  tmp_name self tmp ->
  preserves (frames (write_op sync self) self) (awb_cleanup (Some tmp)) /\
  preserves (frames (write_op sync self) self) (aw_cleanup (Some tmp)).
Proof.
  intros Ht. pose proof (tmp_name_ne _ _ Ht).
  split; (apply preserves_bind; [apply _ | first [apply os_path_exists_frames | apply Path_exists_frames]; exact Ht | intros []]);
    try apply preserves_ret, _;
    (apply preserves_try_except; [apply _ | apply unlink_frames; auto | intros; apply preserves_ret, _]).
Qed.

(** Joining a framing prefix, the final replace and nothing after it. *)
Lemma snapshots_old_or_new Pop self w w1 w2 l ev :
  frames Pop self w w1 -> trace w2 = (trace w1 ++ [ev])%list -> trace w2 = (trace w ++ l)%list ->
  Pop (ev_op ev) -> ev_files ev = files w2 ->
  Forall (fun ev => Pop (ev_op ev) /\
    (ev_files ev !! self = files w !! self \/ ev_files ev !! self = files w2 !! self)) l.
Proof.
  intros [_ (l1 & E1 & F1)] E2 E3 Hp He.
  rewrite E2, E1, <- app_assoc in E3. apply app_inv_head in E3. subst l.
  apply Forall_app. split.
  - eapply Forall_impl; [exact F1 |]. intros x [Hx Hs]. auto.
  - constructor; [| constructor]. rewrite He. auto.
Qed.

Lemma frames_old_or_new Pop self w w' :
  frames Pop self w w' ->
  exists l, trace w' = (trace w ++ l)%list /\
  Forall (fun ev => Pop (ev_op ev) /\
    (ev_files ev !! self = files w !! self \/ ev_files ev !! self = files w' !! self)) l.
Proof.
  intros [_ (l & E & F)]. exists l. split; [done |].
  eapply Forall_impl; [exact F |]. intros x [Hx Hs]. auto.
Qed.

(** Restoring the files: a run that only touched a fresh [tmp], and
    removed it again, leaves the files as they were. *)
Lemma files_restored (f f' : gmap path string) tmp :
  f !! tmp = None -> f' !! tmp = None -> (forall p, p <> tmp -> f' !! p = f !! p) -> f' = f.
Proof.
  intros H1 H2 H3. apply map_eq. intros p.
  destruct (decide (p = tmp)) as [->|Hp]; [congruence | auto].
Qed.

(** Everything [_atomic_write_bytes] does, in one statement. *)
Lemma atomic_write_bytes_spec self data w r w' :
  _atomic_write_bytes self data w = (r, w') ->
  exists l, trace w' = (trace w ++ l)%list /\
  Forall (fun ev => write_op true self (ev_op ev) /\
    (ev_files ev !! self = files w !! self \/ ev_files ev !! self = files w' !! self)) l /\
  match r with
  | Ok _ =>
      files w' = <[self := data]> (files w) /\
      exists qs tmp, map ev_op l =
        (OpMkdir (parent self) :: map OpCreate qs ++
         [OpCreate tmp; OpWrite tmp; OpFlush tmp; OpFsync tmp; OpClose tmp; OpReplace tmp self])%list
  | Err e =>
      files w' !! self = files w !! self /\
      (is_exception e = true ->
       files w' = files w \/ exists tmp, cleanup_failed l tmp)
  end.
Proof.
  unfold _atomic_write_bytes, bind. intros H.
  destruct (mkdir_parents (parent self) w) as [[u|e] w1] eqn:Em;
    destruct (mkdir_parents_files _ _ _ _ Em) as [Hf1 Htr1].
  2: { injection H as <- <-. eexists. split; [exact Htr1 |].
       split; [constructor; [cbn; split; [done | by left] | constructor] |].
       split; [by rewrite Hf1 | by left]. }
  assert (Hfr1 : frames (write_op true self) self w w1).
  { split; [by rewrite Hf1 |]. eexists. split; [exact Htr1 |].
    constructor; [cbn; split; [done | done] | constructor]. }
  destruct (awb_try self data w1) as [[r0 tp] w2] eqn:Et.
  pose proof (awb_try_spec _ _ _ _ _ _ Et) as Hs.
  destruct r0 as [u0|e0].
  - injection H as <- <-.
    destruct Hs as (tmp & w3 & qs & -> & Htn & Hfr3 & Htr2 & Hf2 & l2 & Htr2' & Hops).
    exists ([Ev (OpMkdir (parent self)) true (files w)] ++ l2)%list.
    assert (Hl : trace w2 = (trace w ++ [Ev (OpMkdir (parent self)) true (files w)] ++ l2)%list)
      by (by rewrite Htr2', Htr1, app_assoc).
    split; [exact Hl |]. split.
    + eapply snapshots_old_or_new; [etransitivity; [exact Hfr1 | exact Hfr3] | exact Htr2 | exact Hl | | done].
      cbn. auto.
    + split; [by rewrite Hf2, Hf1 |]. exists qs, tmp. cbn. by rewrite Hops.
  - destruct Hs as [Hfr2 Htp].
    assert (Hfr12 : frames (write_op true self) self w w2) by (etransitivity; eauto).
    destruct (is_exception e0) eqn:Hx.
    2: { injection H as <- <-. destruct (frames_old_or_new _ _ _ _ Hfr12) as (l & El & Fl).
         exists l. split; [done |]. split; [done |]. split; [by destruct Hfr12 | congruence]. }
    destruct tp as [tmp|].
    + destruct Htp as (Htn & Hfresh & Hoth).
      destruct (awb_cleanup (Some tmp) w2) as [rc w4] eqn:Ec.
      assert (Hfr4 : frames (write_op true self) self w w4).
      { etransitivity; [exact Hfr12 |]. revert Ec. apply (cleanup_frames true self tmp Htn). }
      destruct (frames_old_or_new _ _ _ _ Hfr4) as (l & El & Fl).
      assert (Hend : files w4 = files w \/ cleanup_failed l tmp).
      { destruct (awb_cleanup_spec _ _ _ _ Ec) as [Hoth4 [Hgone | (lc & Elc & Hin)]].
        - left. apply (files_restored _ _ tmp); [by rewrite <- Hf1 | done |].
          intros p Hp. rewrite Hoth4, Hoth, Hf1 by done. done.
        - right. destruct Hfr12 as [_ (l12 & E12 & _)].
          rewrite Elc, E12, <- app_assoc in El. apply app_inv_head in El. subst l.
          destruct Hin as [fs Hin]. exists fs. rewrite !in_app_iff. tauto. }
      destruct rc as [[]|ec]; cbn in H; injection H as <- <-; exists l.
      all: split; [done |]; split; [done |]; split; [by destruct Hfr4 |].
      all: intros _; destruct Hend as [? | ?]; [by left | right; eauto].
    + injection H as <- <-. destruct (frames_old_or_new _ _ _ _ Hfr12) as (l & El & Fl).
      exists l. split; [done |]. split; [done |]. split; [by destruct Hfr12 |].
      intros _. left. by rewrite Htp.
Qed.

(** ** The context manager *)

Lemma string_app_nil (s : string) : s +:+ "" = s.
Proof. induction s as [|c s IH]; [reflexivity | exact (f_equal (String c) IH)]. Qed.

Lemma string_app_assoc (s1 s2 s3 : string) : s1 +:+ (s2 +:+ s3) = (s1 +:+ s2) +:+ s3.
Proof. induction s1 as [|c s1 IH]; [reflexivity | exact (f_equal (String c) IH)]. Qed.

Lemma file_write_ok h s w w' c0 :
  h ∈ opened w -> files w !! h = Some c0 -> file_write h s w = (Ok tt, w') ->
  h ∈ opened w' /\ files w' = <[h := c0 +:+ s]> (files w) /\
  trace w' = (trace w ++ [Ev (OpWrite h) true (files w')])%list.
Proof.
  intros Ho Hc. cbv [file_write os_call]. rewrite bool_decide_true by done.
  intros H. repeat case_match; simplify_eq/=. by rewrite Hc.
Qed.

Lemma run_block_ok tmp block w w' c0 :
  tmp ∈ opened w -> files w !! tmp = Some c0 -> run_block tmp block w = (Ok tt, w') ->
  tmp ∈ opened w' /\ files w' = <[tmp := c0 +:+ block_text block]> (files w).
Proof.
  revert w c0. induction block as [|[s|e] block IH]; intros w c0 Ho Hc H; cbn in H.
  - injection H as <-. split; [done |]. rewrite string_app_nil. by rewrite insert_id.
  - unfold bind in H. destruct (file_write tmp s w) as [[[]|e] w1] eqn:E; [| done].
    destruct (file_write_ok _ _ _ _ _ Ho Hc E) as (Ho1 & Hf1 & _).
    assert (Hc1 : files w1 !! tmp = Some (c0 +:+ s)) by (rewrite Hf1; apply lookup_insert_eq).
    destruct (IH _ _ Ho1 Hc1 H) as [Ho' Hf']. split; [done |].
    rewrite Hf', Hf1, insert_insert_eq. cbn. by rewrite string_app_assoc.
  - done.
Qed.

Lemma run_block_frames Pop t tmp block :
  Pop (OpWrite tmp) -> tmp <> t -> preserves (frames Pop t) (run_block tmp block).
Proof.
  intros Ho Hne. induction block as [|[s|e] block IH]; cbn.
  - apply preserves_ret, _.
  - apply preserves_bind; [apply _ | by apply file_write_frames | intros _; exact IH].
  - apply preserves_raise, _.
Qed.

Lemma aw_block_ok tmp block w w' :
  tmp ∈ opened w -> files w !! tmp = Some "" ->
  (run_block tmp block ;;; file_flush tmp ;;; file_close tmp) w = (Ok tt, w') ->
  (tmp ∉ opened w') /\ files w' = <[tmp := block_text block]> (files w).
Proof.
  intros Ho Hc H. unfold bind at 1 in H.
  destruct (run_block tmp block w) as [[[]|e] w1] eqn:E; [| done].
  destruct (run_block_ok _ _ _ _ _ Ho Hc E) as [Ho1 Hf1].
  cbv [bind file_flush file_close os_call ret] in H. rewrite bool_decide_true in H by done.
  repeat (case_match; bd; simplify_eq/=; try set_solver).
Qed.

Lemma os_replace_opened src dst w r w' :
  os_replace src dst w = (r, w') -> opened w' = opened w.
Proof. unfold os_replace, os_call. intros H. repeat case_match; simplify_eq/=; done. Qed.

Lemma file_close_closed h w : h ∉ opened w -> file_close h w = (Ok tt, w).
Proof. intros Ho. unfold file_close. by rewrite bool_decide_false. Qed.

Lemma aw_seq_frames Pop t tmp block :
  Pop (OpWrite tmp) -> Pop (OpFlush tmp) -> Pop (OpClose tmp) -> tmp <> t ->
  preserves (frames Pop t) (run_block tmp block ;;; file_flush tmp ;;; file_close tmp).
Proof.
  intros. apply preserves_bind; [apply _ | by apply run_block_frames | intros _].
  apply preserves_bind; [apply _ | by apply file_flush_frames | intros _].
  by apply file_close_frames.
Qed.

Lemma aw_rethrow_frames Pop t tmp e :
  Pop (OpClose tmp) -> preserves (frames Pop t) (file_close tmp ;;; raise (A:=unit) e).
Proof.
  intros. apply preserves_bind; [apply _ | by apply file_close_frames | intros _; apply preserves_raise, _].
Qed.

Lemma aw_try_spec self block w r tp w' :
  aw_try self block w = (r, tp, w') ->
  match r with
  | Ok _ =>
      exists tmp w2, tp = Some tmp /\ tmp_name self tmp /\
      frames (write_op false self) self w w2 /\
      trace w' = (trace w2 ++ [Ev (OpReplace tmp self) true (files w')])%list /\
      files w' = <[self := block_text block]> (files w)
  | Err _ =>
      frames (write_op false self) self w w' /\
      match tp with
      | None => files w' = files w
      | Some tmp => tmp_name self tmp /\ files w !! tmp = None /\
                    forall p, p <> tmp -> files w' !! p = files w !! p
      end
  end.
Proof.
  unfold aw_try. intros H.
  destruct (NamedTemporaryFile _ _ w) as [[tmp|e] w1] eqn:En.
  2: { injection H as <- <- <-. split; [by eapply frames_mkstemp |].
       destruct (mkstemp_loop_spec _ _ _ _ _ _ En) as (l & _ & Hf). exact Hf. }
  pose proof (frames_mkstemp false _ _ _ _ En) as Hfr1.
  destruct (mkstemp_loop_spec _ _ _ _ _ _ En) as (l1 & Htr1 & s & qs & -> & Hfresh & Hf1 & Ho1 & Hops1).
  set (tmp := (parent self ++ [tmp_prefix self +:+ s])%list) in *.
  assert (Htn : tmp_name self tmp) by (by exists s).
  assert (Hne : tmp <> self) by apply tmp_path_ne.
  assert (Hc1 : files w1 !! tmp = Some "") by (rewrite Hf1; apply lookup_insert_eq).
  destruct (with_file tmp (aw_inner self tmp block) w1) as [r2 w2] eqn:Ew.
  injection H as <- <- <-.
  unfold with_file in Ew.
  destruct (aw_inner self tmp block w1) as [r1 wa] eqn:Ei.
  unfold aw_inner in Ei.
  destruct ((run_block tmp block ;;; file_flush tmp ;;; file_close tmp) w1) as [[u|e] wz] eqn:Ez.
  - destruct u. destruct (aw_block_ok _ _ _ _ Ho1 Hc1 Ez) as [Hoz Hfz].
    assert (Hfrz : frames (write_op false self) self w wz).
    { etransitivity; [exact Hfr1 |]. revert Ez. apply aw_seq_frames; cbn; auto. }
    assert (Hoa : tmp ∉ opened wa) by (by rewrite (os_replace_opened _ _ _ _ _ Ei)).
    rewrite (file_close_closed _ _ Hoa) in Ew. injection Ew as <- <-.
    destruct (os_replace_spec _ _ _ _ _ Ei) as [(-> & c & Hc & Hfa & Htra) | (Hra & Hfa & ok & Htra)].
    + rewrite Hfz, lookup_insert_eq in Hc. injection Hc as <-.
      exists tmp, wz. split; [done |]. split; [done |]. split; [done |]. split; [done |].
      rewrite Hfa, Hfz, Hf1. apply map_eq. intros p.
      destruct (decide (p = self)) as [->|Hps]; [by rewrite !lookup_insert_eq |].
      rewrite !(lookup_insert_ne _ self) by congruence.
      destruct (decide (p = tmp)) as [->|Hpt]; [by rewrite lookup_delete_eq |].
      rewrite lookup_delete_ne, !lookup_insert_ne by congruence. done.
    + destruct r1 as [[]|e1]; [done |].
      split.
      { etransitivity; [exact Hfrz | split; [by rewrite Hfa |]].
        exists [Ev (OpReplace tmp self) ok (files wz)]. split; [done |].
        constructor; [split; [split; done | done] | constructor]. }
      split; [done |]. split; [exact Hfresh |].
      intros p Hp. rewrite Hfa, Hfz, Hf1, !lookup_insert_ne by congruence. done.
  - assert (Hoth1 : forall p, p <> tmp -> files wz !! p = files w1 !! p).
    { intros p Hp. assert (Hq : preserves (frames (fun _ => True) p)
        (run_block tmp block ;;; file_flush tmp ;;; file_close tmp)) by (apply aw_seq_frames; auto).
      by destruct (Hq _ _ _ Ez). }
    assert (Hfrz : frames (write_op false self) self w wz).
    { etransitivity; [exact Hfr1 |]. revert Ez. apply aw_seq_frames; cbn; auto. }
    assert (Hprog : forall Pop t, Pop (OpClose tmp) ->
              frames Pop t wz wa /\ (r1 = Ok tt -> False)).
    { intros Pop t HP. destruct (is_exception e).
      - split; [revert Ei; by apply aw_rethrow_frames |].
        intros ->. unfold bind in Ei. destruct (file_close tmp wz) as [[u|ec] wc] eqn:Ec; discriminate.
      - injection Ei as <- <-. split; [reflexivity | discriminate]. }
    destruct r1 as [[]|e1]; [by destruct (Hprog (fun _ => True) self I) as [_ []] |].
    assert (Hr2 : exists e2, r2 = Err e2) by
      (destruct (file_close tmp wa) as [[u|e2] wb] eqn:Ec; injection Ew as <- <-; eauto).
    assert (Hfrc : forall Pop t, Pop (OpClose tmp) -> frames Pop t wa w2).
    { intros Pop t HP. destruct (file_close tmp wa) as [rc wb] eqn:Ec.
      assert (Hb : frames Pop t wa wb) by (revert Ec; by apply file_close_frames).
      destruct rc as [[]|ec]; injection Ew as <- <-; exact Hb. }
    destruct Hr2 as [e2 ->]. split.
    + etransitivity; [exact Hfrz |]. etransitivity.
      * by apply (Hprog (write_op false self) self).
      * apply Hfrc. cbn. done.
    + split; [done |]. split; [exact Hfresh |]. intros p Hp.
      destruct (Hprog (fun _ => True) p I) as [[Ha _] _].
      destruct (Hfrc (fun _ => True) p I) as [Hb _].
      rewrite Hb, Ha, Hoth1, Hf1, lookup_insert_ne by congruence. done.
Qed.

(** Everything [atomic_write] does, in one statement. *)
Lemma atomic_write_spec self mode encoding block w r w' :
  atomic_write self mode encoding block w = (r, w') ->
  if match encoding with Some _ => has_char "b" mode | None => false end
  then r = Err (ValueError "encoding argument not supported in binary mode") /\ w' = w
  else
  exists l, trace w' = (trace w ++ l)%list /\
  Forall (fun ev => write_op false self (ev_op ev) /\
    (ev_files ev !! self = files w !! self \/ ev_files ev !! self = files w' !! self)) l /\
  match r with
  | Ok _ => files w' = <[self := block_text block]> (files w)
  | Err e =>
      files w' !! self = files w !! self /\
      (is_exception e = true ->
       files w' = files w \/ exists tmp, cleanup_failed l tmp)
  end.
Proof.
  unfold atomic_write. intros H. case_match.
  { by injection H as <- <-. }
  unfold bind in H.
  destruct (mkdir_parents (parent self) w) as [[u|e] w1] eqn:Em;
    destruct (mkdir_parents_files _ _ _ _ Em) as [Hf1 Htr1].
  2: { injection H as <- <-. eexists. split; [exact Htr1 |].
       split; [constructor; [cbn; split; [done | by left] | constructor] |].
       split; [by rewrite Hf1 | by left]. }
  assert (Hfr1 : frames (write_op false self) self w w1).
  { split; [by rewrite Hf1 |]. eexists. split; [exact Htr1 |].
    constructor; [cbn; split; [done | done] | constructor]. }
  destruct (aw_try self block w1) as [[r0 tp] w2] eqn:Et.
  pose proof (aw_try_spec _ _ _ _ _ _ Et) as Hs.
  destruct r0 as [u0|e0].
  - injection H as <- <-.
    destruct Hs as (tmp & w3 & -> & Htn & Hfr3 & Htr2 & Hf2).
    assert (Hfr13 : frames (write_op false self) self w w3) by (etransitivity; eauto).
    destruct Hfr13 as [H13 (l3 & E3 & F3)].
    exists (l3 ++ [Ev (OpReplace tmp self) true (files w2)])%list.
    assert (Hl : trace w2 = (trace w ++ l3 ++ [Ev (OpReplace tmp self) true (files w2)])%list)
      by (by rewrite Htr2, E3, app_assoc).
    split; [exact Hl |]. split.
    + eapply snapshots_old_or_new; [split; [exact H13 | exists l3; eauto] | exact Htr2 | exact Hl | | done].
      cbn. auto.
    + by rewrite Hf2, Hf1.
  - destruct Hs as [Hfr2 Htp].
    assert (Hfr12 : frames (write_op false self) self w w2) by (etransitivity; eauto).
    destruct (is_exception e0) eqn:Hx.
    2: { injection H as <- <-. destruct (frames_old_or_new _ _ _ _ Hfr12) as (l & El & Fl).
         exists l. split; [done |]. split; [done |]. split; [by destruct Hfr12 | congruence]. }
    destruct tp as [tmp|].
    + destruct Htp as (Htn & Hfresh & Hoth).
      destruct (aw_cleanup (Some tmp) w2) as [rc w4] eqn:Ec.
      assert (Hfr4 : frames (write_op false self) self w w4).
      { etransitivity; [exact Hfr12 |]. revert Ec. apply (cleanup_frames false self tmp Htn). }
      destruct (frames_old_or_new _ _ _ _ Hfr4) as (l & El & Fl).
      assert (Hend : files w4 = files w \/ cleanup_failed l tmp).
      { destruct (aw_cleanup_spec _ _ _ _ Ec) as [Hoth4 [Hgone | (lc & Elc & Hin)]].
        - left. apply (files_restored _ _ tmp); [by rewrite <- Hf1 | done |].
          intros p Hp. rewrite Hoth4, Hoth, Hf1 by done. done.
        - right. destruct Hfr12 as [_ (l12 & E12 & _)].
          rewrite Elc, E12, <- app_assoc in El. apply app_inv_head in El. subst l.
          destruct Hin as [fs Hin]. exists fs. rewrite !in_app_iff. tauto. }
      destruct rc as [[]|ec]; cbn in H; injection H as <- <-; exists l.
      all: split; [done |]; split; [done |]; split; [by destruct Hfr4 |].
      all: intros _; destruct Hend as [? | ?]; [by left | right; eauto].
    + injection H as <- <-. destruct (frames_old_or_new _ _ _ _ Hfr12) as (l & El & Fl).
      exists l. split; [done |]. split; [done |]. split; [by destruct Hfr12 |].
      intros _. left. by rewrite Htp.
Qed.

(** ** The writers *)

Lemma dump_json_eq self data indent w :
  dump_json self data indent w =
  match json_bytes data indent with
  | Ok s => _atomic_write_bytes self s w
  | Err e => (Err e, w)
  end.
Proof. unfold dump_json, bind, lift. by destruct (json_bytes data indent). Qed.

Lemma dump_yaml_eq yaml_encode self data w :
  dump_yaml yaml_encode self data w =
  match yaml_encode data with
  | Ok s => _atomic_write_bytes self s w
  | Err e => (Err e, w)
  end.
Proof. unfold dump_yaml, bind, lift. by destruct (yaml_encode data). Qed.

Lemma write_op_weaken self o : write_op false self o -> write_op true self o.
Proof. destruct o; cbn; intuition congruence. Qed.

Lemma no_call_spec t w e :
  exists l, trace w = (trace w ++ l)%list /\
  Forall (fun ev => write_op true t (ev_op ev) /\
    (ev_files ev !! t = files w !! t \/ ev_files ev !! t = files w !! t)) l /\
  (files w !! t = files w !! t /\
   (is_exception e = true -> files w = files w \/ exists tmp, cleanup_failed l tmp)).
Proof. exists []. rewrite app_nil_r. split; [done |]. split; [constructor |]. auto. Qed.

Lemma atomic_write_bytes_call_spec self data w r w' :
  _atomic_write_bytes self data w = (r, w') ->
  exists l, trace w' = (trace w ++ l)%list /\
  Forall (fun ev => write_op true self (ev_op ev) /\
    (ev_files ev !! self = files w !! self \/ ev_files ev !! self = files w' !! self)) l /\
  match r with
  | Ok _ => files w' = <[self := data]> (files w)
  | Err e => files w' !! self = files w !! self /\
      (is_exception e = true -> files w' = files w \/ exists tmp, cleanup_failed l tmp)
  end.
Proof.
  intros H. destruct (atomic_write_bytes_spec _ _ _ _ _ H) as (l & El & Fl & Hr).
  exists l. split; [done |]. split; [done |]. destruct r; [by destruct Hr | done].
Qed.

(** Everything the three writers do, in one statement. *)
Lemma run_call_spec yaml_encode c w r w' :
  run_call yaml_encode c w = (r, w') ->
  exists l, trace w' = (trace w ++ l)%list /\
  Forall (fun ev => write_op true (call_target c) (ev_op ev) /\
    (ev_files ev !! call_target c = files w !! call_target c \/
     ev_files ev !! call_target c = files w' !! call_target c)) l /\
  match r with
  | Ok _ => exists s, call_payload yaml_encode c = Ok s /\
            files w' = <[call_target c := s]> (files w)
  | Err e => files w' !! call_target c = files w !! call_target c /\
      (is_exception e = true -> files w' = files w \/ exists tmp, cleanup_failed l tmp)
  end.
Proof.
  destruct c as [self data indent | self data | self mode encoding block]; cbn [run_call call_target call_payload].
  - rewrite dump_json_eq. destruct (json_bytes data indent) as [s|e].
    + intros H. destruct (atomic_write_bytes_call_spec _ _ _ _ _ H) as (l & El & Fl & Hr).
      exists l. split; [done |]. split; [done |]. destruct r; [eauto | done].
    + intros H. injection H as <- <-. apply no_call_spec.
  - rewrite dump_yaml_eq. destruct (yaml_encode data) as [s|e].
    + intros H. destruct (atomic_write_bytes_call_spec _ _ _ _ _ H) as (l & El & Fl & Hr).
      exists l. split; [done |]. split; [done |]. destruct r; [eauto | done].
    + intros H. injection H as <- <-. apply no_call_spec.
  - intros H. pose proof (atomic_write_spec _ _ _ _ _ _ _ H) as Hs.
    destruct (match encoding with Some _ => has_char "b" mode | None => false end).
    + destruct Hs as [-> ->]. apply no_call_spec.
    + destruct Hs as (l & El & Fl & Hr). exists l. split; [done |]. split.
      * eapply Forall_impl; [exact Fl |]. intros ev [Ho Hs]. split; [by apply write_op_weaken | done].
      * destruct r; [eauto | done].
Qed.

Lemma read_text_spec p w r w' :
  read_text p w = (r, w') -> files w' = files w /\
  (forall c, r = Ok c -> exists b, files w !! p = Some b /\ decode_text b = Ok c).
Proof.
  cbv [read_text read_bytes os_call bind lift]. intros H.
  repeat case_match; simplify_eq/=; split; try done; intros ? Hc; simplify_eq/=; eauto.
Qed.

Definition slots_ok (paths : list path) (f : gmap path string) (slots : gmap nat string) : Prop :=
  forall i c, slots !! i = Some c ->
  exists p b, paths !! i = Some p /\ f !! p = Some b /\ decode_text b = Ok c.

Lemma gather_run_spec paths sched slots first w r w' :
  gather_run paths sched slots first w = (r, w') ->
  files w' = files w /\
  exists slots' first', r = Ok (slots', first') /\
  (slots_ok paths (files w) slots -> slots_ok paths (files w) slots') /\
  (first' = None -> first = None /\
     forall i p, In i sched -> paths !! i = Some p -> is_Some (slots' !! i)) /\
  (forall i, is_Some (slots !! i) -> is_Some (slots' !! i)).
Proof.
  revert slots first w. induction sched as [|i sched IH]; intros slots first w H; cbn in H.
  - injection H as <- <-. split; [done |]. eexists _, _. split; [done |].
    split; [done |]. split; [| done]. intros ->. split; [done | intros ? ? []].
  - destruct (paths !! i) as [p|] eqn:Hp.
    + destruct (read_text p w) as [[c|e] w1] eqn:Er;
        destruct (read_text_spec _ _ _ _ Er) as [Hf1 Hc1].
      * destruct (IH _ _ _ H) as (Hf & slots' & first' & -> & Hok & Hnone & Hmono).
        split; [congruence |]. eexists _, _. split; [done |]. split.
        { intros Hs. rewrite <- Hf1. apply Hok. intros j c' Hj.
          destruct (decide (j = i)) as [->|Hji].
          - rewrite lookup_insert_eq in Hj. injection Hj as <-. destruct (Hc1 _ eq_refl) as (b & Hb & Hd). exists p, b. rewrite Hf1. eauto.
          - rewrite lookup_insert_ne in Hj by congruence. rewrite Hf1. by apply Hs. }
        split.
        { intros Hn. destruct (Hnone Hn) as [-> Hall]. split; [done |].
          intros j q [<-|Hj] Hq; [| by eapply Hall].
          apply Hmono. rewrite lookup_insert_eq. eauto. }
        intros j Hj. apply Hmono. destruct (decide (j = i)) as [->|Hji].
        { rewrite lookup_insert_eq. eauto. }
        by rewrite lookup_insert_ne by congruence.
      * destruct (IH _ _ _ H) as (Hf & slots' & first' & -> & Hok & Hnone & Hmono).
        split; [congruence |]. eexists _, _. split; [done |]. split.
        { intros Hs. rewrite <- Hf1. apply Hok. intros j c' Hj. rewrite Hf1. by apply Hs. }
        split; [| done].
        intros Hn. destruct (Hnone Hn) as [Hfirst _]. by destruct first.
    + destruct (IH _ _ _ H) as (Hf & slots' & first' & -> & Hok & Hnone & Hmono).
      split; [done |]. eexists _, _. split; [done |]. split; [done |]. split; [| done].
      intros Hn. destruct (Hnone Hn) as [-> Hall]. split; [done |].
      intros j q [<-|Hj] Hq; [congruence | by eapply Hall].
Qed.

Lemma json_decode_err c e : json_decode c = Err e -> is_decode_error e = true.
Proof.
  unfold json_decode. destruct (parse_value _ _) as [r|v r]; [intros H; by injection H as <- |].
  destruct (skip_ws r); [discriminate | intros H; by injection H as <-].
Qed.

Lemma load_json_eq self w :
  load_json self w =
  match read_bytes self w with
  | (Err e, w1) =>
      if is_decode_error e
      then (Err (JSONDecodeError ("Failed to decode JSON from " +:+ str self +:+ ": " +:+ decode_message e)), w1)
      else (Err e, w1)
  | (Ok c, w1) =>
      match json_decode c with
      | Ok v => (Ok v, w1)
      | Err e =>
          if is_decode_error e
          then (Err (JSONDecodeError ("Failed to decode JSON from " +:+ str self +:+ ": " +:+ decode_message e)), w1)
          else (Err e, w1)
      end
  end.
Proof.
  unfold load_json, try_except, bind, lift, raise.
  destruct (read_bytes self w) as [[c|e] w1]; [| done]. by destruct (json_decode c).
Qed.

Lemma lookup_map_seq_lt {B} (f : nat -> B) j n i :
  i < n -> map f (seq j n) !! i = Some (f (j + i)).
Proof.
  revert j i. induction n as [|n IH]; intros j i Hi; [lia |].
  destruct i as [|i]; cbn; [by rewrite Nat.add_0_r |].
  rewrite IH by lia. f_equal. f_equal. lia.
Qed.

(** * The claims *)

(** ** The JSON round trip

    [json_value v]: [v] is built from [None], booleans, integers,
    finite floats written as a JSON number, strings, lists and
    string-keyed dicts.  [layout] prints such a value with a separator
    after each opening bracket and comma and before each closing one:
    [compact] is what [json_encode] writes, [indented] what
    [json_format] makes of it.  [json_decode] parses both back. *)
Open Scope nat_scope.


Definition num_char (c : ascii) : bool :=
  json_digit c || bool_decide (c = "-"%char) || bool_decide (c = "+"%char) ||
  bool_decide (c = "."%char) || bool_decide (c = "e"%char) || bool_decide (c = "E"%char).

Definition float_text (r : string) : bool :=
  forallb num_char (String.list_ascii_of_string r) &&
  match parse_number (String.list_ascii_of_string r) with
  | Some (PFloat (FFinite r'), []) => String.eqb r r'
  | _ => false
  end.

Fixpoint json_value (v : pyval) : bool :=
  match v with
  | PNone | PBool _ | PInt _ | PStr _ => true
  | PFloat (FFinite r) => float_text r
  | PFloat _ | PObj _ => false
  | PList vs => forallb json_value vs
  | PDict kvs => forallb (fun '(_, v) => json_value v) kvs
  end.

Fixpoint pyval_size (v : pyval) : nat :=
  match v with
  | PList vs => S (List.list_sum (map pyval_size vs))
  | PDict kvs => S (List.list_sum (map (fun '(_, v) => pyval_size v) kvs))
  | _ => 1
  end.

Section Layout.
Context (sep : nat -> string) (colon : string).

Fixpoint layout (d : nat) (v : pyval) : string :=
  match v with
  | PNone => "null"
  | PBool true => "true"
  | PBool false => "false"
  | PInt z => pretty z
  | PFloat f => json_float f
  | PStr s => json_str s
  | PList [] => "[]"
  | PList (v :: vs) =>
      "[" +:+ sep (S d) +:+ layout (S d) v +:+
      String.concat EmptyString (map (fun v => "," +:+ sep (S d) +:+ layout (S d) v) vs) +:+
      sep d +:+ "]"
  | PDict [] => "{}"
  | PDict ((k, v) :: kvs) =>
      "{" +:+ sep (S d) +:+ json_str k +:+ colon +:+ layout (S d) v +:+
      String.concat EmptyString (map (fun '(k, v) => "," +:+ sep (S d) +:+ json_str k +:+ colon +:+ layout (S d) v) kvs) +:+
      sep d +:+ "}"
  | PObj _ => EmptyString
  end.
End Layout.

Definition compact := layout (fun _ => EmptyString) ":".
Definition indented (ind : nat) := layout (newline_indent ind) ": ".

Lemma pyval_nested_ind (P : pyval -> Prop)
  (HN : P PNone) (HB : forall b, P (PBool b)) (HI : forall z, P (PInt z))
  (HF : forall f, P (PFloat f)) (HS : forall s, P (PStr s))
  (HL : forall vs, Forall P vs -> P (PList vs))
  (HD : forall kvs, Forall (fun kv => P (snd kv)) kvs -> P (PDict kvs))
  (HO : forall t, P (PObj t)) :
  forall v, P v.
Proof.
  fix IH 1. intros [| | | | |vs|kvs|]; [apply HN | apply HB | apply HI | apply HF | apply HS | | | apply HO].
  - apply HL. exact ((fix go (vs : list pyval) : Forall P vs :=
      match vs with [] => @List.Forall_nil _ P | v :: vs' => @List.Forall_cons _ P v vs' (IH v) (go vs') end) vs).
  - apply HD. exact ((fix go (kvs : list (string * pyval)) : Forall (fun kv => P (snd kv)) kvs :=
      match kvs with
      | [] => @List.Forall_nil _ _
      | (k, v) :: kvs' => @List.Forall_cons _ (fun kv => P (snd kv)) (k, v) kvs' (IH v) (go kvs')
      end) kvs).
Qed.

Lemma L_app (a b : string) :
  String.list_ascii_of_string (a +:+ b) = (String.list_ascii_of_string a ++ String.list_ascii_of_string b)%list.
Proof. induction a as [|c a IH]; [reflexivity | exact (f_equal (cons c) IH)]. Qed.

Lemma concat_comma (x : string) (xs : list string) :
  String.concat "," (x :: xs) = x +:+ String.concat EmptyString (map (fun y => "," +:+ y) xs).
Proof.
  revert x. induction xs as [|y xs IH]; intros x.
  - cbn. by rewrite string_app_nil.
  - change (String.concat "," (x :: y :: xs)) with (x +:+ "," +:+ String.concat "," (y :: xs)).
    rewrite IH. cbn. destruct xs; cbn; [by rewrite string_app_nil | by rewrite <- string_app_assoc].
Qed.

Lemma json_encode_compact v d :
  json_value v = true -> json_encode v = Ok (compact d v).
Proof.
  revert d. induction v as [| [] | | [] | | vs IH | kvs IH |] using pyval_nested_ind;
    intros d Hv; try discriminate; try reflexivity.
  - cbn [json_encode]. cbn in Hv.
    assert (Hi : forall d', (fix items (vs : list pyval) : result (list string) :=
                match vs with
                | [] => Ok []
                | v :: vs' => rbind (json_encode v) (fun s => rbind (items vs') (fun ss => Ok (s :: ss)))
                end) vs = Ok (map (compact d') vs)).
    { intros d'. clear d. induction IH as [|v vs Hv1 _ IHvs]; [reflexivity |].
      apply andb_prop in Hv as [Hv Hvs]. cbn. rewrite (Hv1 d' Hv). cbn. by rewrite (IHvs Hvs). }
    rewrite (Hi (S d)). cbn [rbind]. destruct vs as [|v vs]; [reflexivity |].
    rewrite map_cons, concat_comma. cbn -[String.concat].
    f_equal. f_equal. rewrite map_map. cbn [String.append]. by rewrite <- string_app_assoc.
  - cbn [json_encode]. cbn in Hv.
    assert (Hi : forall d', (fix items (kvs : list (string * pyval)) : result (list string) :=
                match kvs with
                | [] => Ok []
                | (k, v) :: kvs' =>
                    rbind (json_encode v) (fun s =>
                      rbind (items kvs') (fun ss => Ok ((json_str k +:+ ":" +:+ s) :: ss)))
                end) kvs = Ok (map (fun '(k, v) => json_str k +:+ ":" +:+ compact d' v) kvs)).
    { intros d'. clear d. induction IH as [|[k v] kvs Hv1 _ IHkvs]; [reflexivity |]. cbn in Hv1.
      apply andb_prop in Hv as [Hv Hkvs]. cbn. rewrite (Hv1 d' Hv). cbn. by rewrite (IHkvs Hkvs). }
    rewrite (Hi (S d)). cbn [rbind]. destruct kvs as [|[k v] kvs]; [reflexivity |].
    rewrite map_cons, concat_comma. cbn -[String.concat json_str].
    f_equal. f_equal. rewrite map_map.
    assert (map (fun x : string * pyval => "," +:+ (let '(k0, v0) := x in json_str k0 +:+ ":" +:+ compact (S d) v0)) kvs
            = map (fun '(k0, v0) => "," +:+ EmptyString +:+ json_str k0 +:+ ":" +:+ compact (S d) v0) kvs) as ->
      by (apply map_ext; by intros [k0 v0]).
    rewrite <- !string_app_assoc. reflexivity.
Qed.

(** Digits *)
Lemma pretty_N_char_digit n :
  (n < 10)%N -> json_digit (pretty_N_char n) = true /\
  Z.of_nat (nat_of_ascii (pretty_N_char n) - 48) = Z.of_N n /\
  (pretty_N_char n = "0"%char -> n = 0%N).
Proof.
  intros H. assert (Hk : (N.to_nat n < 10)%nat) by lia.
  rewrite <- (N2Nat.id n). generalize (N.to_nat n) Hk. clear n H Hk. intros k Hk.
  do 10 (destruct k as [|k]; [split; [reflexivity | split; [reflexivity | by intros ?]] |]). lia.
Qed.

Lemma pretty_N_go_app x s :
  String.list_ascii_of_string (pretty_N_go x s) =
  (String.list_ascii_of_string (pretty_N_go x EmptyString) ++ String.list_ascii_of_string s)%list.
Proof.
  revert s. induction (N.lt_wf_0 x) as [x _ IH]; intros s.
  destruct (decide (x = 0%N)) as [->|Hx]; [reflexivity |].
  rewrite !(pretty_N_go_step x) by lia.
  assert (Hlt : (x `div` 10 < x)%N) by (apply N.div_lt; lia).
  rewrite (IH _ Hlt (String (pretty_N_char (x `mod` 10)) s)),
    (IH _ Hlt (String (pretty_N_char (x `mod` 10)) EmptyString)).
  rewrite <- app_assoc. reflexivity.
Qed.

Lemma digits_value_snoc ds c :
  digits_value (ds ++ [c])%list = (10 * digits_value ds + Z.of_nat (nat_of_ascii c - 48))%Z.
Proof. unfold digits_value. by rewrite fold_left_app. Qed.

Lemma pretty_N_go_digits x :
  Forall (fun c => json_digit c = true) (String.list_ascii_of_string (pretty_N_go x EmptyString)) /\
  digits_value (String.list_ascii_of_string (pretty_N_go x EmptyString)) = Z.of_N x /\
  ((0 < x)%N -> exists c t, String.list_ascii_of_string (pretty_N_go x EmptyString) = c :: t /\ c <> "0"%char).
Proof.
  induction (N.lt_wf_0 x) as [x _ IH].
  destruct (decide (x = 0%N)) as [->|Hx]; [split; [constructor | split; [reflexivity | lia]] |].
  rewrite !(pretty_N_go_step x) by lia. rewrite pretty_N_go_app.
  destruct (IH (x `div` 10)%N) as (Hd & Hv & Hh); [apply N.div_lt; lia |].
  destruct (pretty_N_char_digit (x `mod` 10)%N) as (Hd1 & Hv1 & H01); [apply N.mod_lt; lia |].
  split; [apply Forall_app; split; [exact Hd | by constructor] |].
  split.
  - change (String.list_ascii_of_string (String (pretty_N_char (x `mod` 10)) EmptyString))
      with [pretty_N_char (x `mod` 10)%N].
    rewrite digits_value_snoc, Hv, Hv1. rewrite (N.div_mod x 10) at 3 by lia. lia.
  - intros _. destruct (decide (x `div` 10 = 0)%N) as [Hq|Hq].
    + rewrite Hq. cbn. exists (pretty_N_char (x `mod` 10)%N), []. split; [reflexivity |].
      intros E. apply H01 in E. rewrite (N.div_mod x 10) in Hx by lia. lia.
    + destruct Hh as (c & t & Ht & Hc); [by apply N.neq_0_lt_0 |]. rewrite Ht. exists c, (t ++ [pretty_N_char (x `mod` 10)])%list. split; [reflexivity | exact Hc].
Qed.

(** Numbers *)
Definition num_stop (rest : list ascii) : bool :=
  match rest with [] => true | c :: _ => negb (num_char c) end.

Lemma num_char_false c :
  num_char c = false ->
  json_digit c = false /\ c <> "-"%char /\ c <> "+"%char /\ c <> "."%char /\ c <> "e"%char /\ c <> "E"%char.
Proof.
  unfold num_char. intros H. repeat rewrite orb_false_iff in H.
  destruct H as [[[[[H1 H2] H3] H4] H5] H6].
  repeat split; [exact H1 | ..]; intros ->; discriminate.
Qed.

Lemma num_stop_cons c r : num_stop (c :: r) = true ->
  json_digit c = false /\ c <> "-"%char /\ c <> "+"%char /\ c <> "."%char /\ c <> "e"%char /\ c <> "E"%char.
Proof. cbn. intros H. apply num_char_false. by destruct (num_char c). Qed.

Lemma take_digits_app l rest :
  num_stop rest = true ->
  take_digits (l ++ rest) = (fst (take_digits l), (snd (take_digits l) ++ rest)%list).
Proof.
  intros Hs. induction l as [|c l IH]; cbn.
  - destruct rest as [|c r]; [reflexivity |].
    destruct (num_stop_cons _ _ Hs) as [Hd _]. cbn. by rewrite Hd.
  - destruct (json_digit c); [| reflexivity].
    rewrite IH. by destruct (take_digits l).
Qed.

Definition num_sign (s : list ascii) : bool * list ascii :=
  match next_is "-" s with Some s' => (true, s') | None => (false, s) end.

Definition num_frac (s2 : list ascii) : list ascii * list ascii * bool :=
  match next_is "." s2 with
  | Some s' => let '(fd, r) := take_digits s' in ("."%char :: fd, r, negb (bool_decide (fd = [])))
  | None => ([], s2, true)
  end.

Definition num_exp (s3 : list ascii) : list ascii * list ascii * bool :=
  match s3 with
  | e :: s' =>
      if bool_decide (e = "e"%char) || bool_decide (e = "E"%char) then
        let '(sg, s'') := match s' with
                          | c :: r => if bool_decide (c = "+"%char) || bool_decide (c = "-"%char)
                                      then ([c], r) else ([], s')
                          | [] => ([], s')
                          end in
        let '(ed, r) := take_digits s'' in ((e :: sg ++ ed)%list, r, negb (bool_decide (ed = [])))
      else ([], s3, true)
  | [] => ([], s3, true)
  end.

Lemma parse_number_staged s :
  parse_number s =
  let '(neg, s1) := num_sign s in
  let '(ip, s2) := take_digits s1 in
  match ip with
  | [] => None
  | d :: ip' =>
      if bool_decide (d = "0"%char) && negb (bool_decide (ip' = [])) then None else
      let '(fr, s3, okf) := num_frac s2 in
      let '(ex, s4, oke) := num_exp s3 in
      if negb (okf && oke) then None
      else if bool_decide (fr = []) && bool_decide (ex = []) then
        Some (PInt (if neg then - digits_value ip else digits_value ip)%Z, s4)
      else
        Some (PFloat (FFinite (String.string_of_list_ascii ((if neg then ["-"%char] else []) ++ ip ++ fr ++ ex)%list)), s4)
  end.
Proof. reflexivity. Qed.

Lemma num_sign_app l rest :
  num_stop rest = true -> num_sign (l ++ rest) = (fst (num_sign l), (snd (num_sign l) ++ rest)%list).
Proof.
  intros Hs. unfold num_sign. destruct l as [|c l]; cbn.
  - destruct rest as [|c r]; [reflexivity |]. destruct (num_stop_cons _ _ Hs) as (_ & Hm & _).
    cbn. rewrite bool_decide_false; [reflexivity | congruence].
  - by case_bool_decide.
Qed.

Lemma num_frac_app l rest :
  num_stop rest = true ->
  num_frac (l ++ rest) = let '(fr, s3, ok) := num_frac l in (fr, (s3 ++ rest)%list, ok).
Proof.
  intros Hs. unfold num_frac. destruct l as [|c l]; cbn.
  - destruct rest as [|c r]; [reflexivity |]. destruct (num_stop_cons _ _ Hs) as (_ & _ & _ & Hd & _).
    cbn. rewrite bool_decide_false; [reflexivity | congruence].
  - case_bool_decide; [| reflexivity]. rewrite take_digits_app by exact Hs.
    by destruct (take_digits l).
Qed.

Lemma num_exp_app l rest :
  num_stop rest = true ->
  num_exp (l ++ rest) = let '(ex, s4, ok) := num_exp l in (ex, (s4 ++ rest)%list, ok).
Proof.
  intros Hs. unfold num_exp. destruct l as [|e l]; cbn.
  - destruct rest as [|c r]; [reflexivity |]. destruct (num_stop_cons _ _ Hs) as (_ & _ & _ & _ & He & HE).
    cbn. rewrite !bool_decide_false by congruence. reflexivity.
  - destruct (bool_decide (e = "e"%char) || bool_decide (e = "E"%char)); [| reflexivity].
    destruct l as [|c r]; cbn.
    + destruct rest as [|c r]; [reflexivity |]. destruct (num_stop_cons _ _ Hs) as (Hd & Hm & Hp & _).
      cbn. rewrite !bool_decide_false by congruence. cbn. by rewrite Hd.
    + destruct (bool_decide (c = "+"%char) || bool_decide (c = "-"%char)).
      * rewrite take_digits_app by exact Hs. by destruct (take_digits r).
      * change (take_digits (c :: r ++ rest)) with (take_digits ((c :: r) ++ rest)).
        rewrite take_digits_app by exact Hs. by destruct (take_digits (c :: r)).
Qed.

Lemma parse_number_app l rest :
  num_stop rest = true ->
  parse_number (l ++ rest) =
  match parse_number l with Some (v, r) => Some (v, (r ++ rest)%list) | None => None end.
Proof.
  intros Hs. rewrite !parse_number_staged, num_sign_app by exact Hs.
  destruct (num_sign l) as [neg s1]. cbn [fst snd].
  rewrite take_digits_app by exact Hs. destruct (take_digits s1) as [ip s2]. cbn [fst snd].
  destruct ip as [|d ip']; [reflexivity |].
  destruct (bool_decide (d = "0"%char) && negb (bool_decide (ip' = []))); [reflexivity |].
  rewrite num_frac_app by exact Hs. destruct (num_frac s2) as [[fr s3] okf].
  rewrite num_exp_app by exact Hs. destruct (num_exp s3) as [[ex s4] oke].
  destruct (negb (okf && oke)); [reflexivity |].
  by destruct (bool_decide (fr = []) && bool_decide (ex = [])).
Qed.

Lemma take_digits_all ds : Forall (fun c => json_digit c = true) ds -> take_digits ds = (ds, []).
Proof. induction 1 as [|c ds Hc _ IH]; [reflexivity | cbn; by rewrite Hc, IH]. Qed.

Lemma parse_number_digits (neg : bool) (d : ascii) (ds : list ascii) :
  Forall (fun c => json_digit c = true) (d :: ds) -> (d = "0"%char -> ds = []) ->
  parse_number ((if neg then ["-"%char] else []) ++ d :: ds)%list =
  Some (PInt (if neg then - digits_value (d :: ds) else digits_value (d :: ds))%Z, []).
Proof.
  intros Hd H0. rewrite parse_number_staged.
  assert (Hsg : num_sign ((if neg then ["-"%char] else []) ++ d :: ds)%list = (neg, d :: ds)).
  { unfold num_sign. destruct neg; [reflexivity |]. cbn.
    rewrite bool_decide_false; [reflexivity |]. intros <-. inversion Hd as [|? ? Hm]. discriminate. }
  rewrite Hsg, take_digits_all by exact Hd.
  assert (Hz : bool_decide (d = "0"%char) && negb (bool_decide (ds = [])) = false).
  { destruct (decide (d = "0"%char)) as [E|E].
    - rewrite (H0 E). by rewrite andb_false_r.
    - by rewrite bool_decide_false. }
  rewrite Hz. reflexivity.
Qed.

Lemma pretty_Z_parse z : parse_number (String.list_ascii_of_string (pretty z)) = Some (PInt z, []).
Proof.
  destruct z as [|p|p]; [reflexivity | |].
  - unfold pretty, pretty_Z, pretty_positive, pretty, pretty_N. rewrite decide_False by discriminate.
    destruct (pretty_N_go_digits (N.pos p)) as (Hd & Hv & Hh).
    destruct (Hh ltac:(lia)) as (c & t & Ht & Hc). rewrite Ht in Hd, Hv |- *.
    apply (parse_number_digits false) in Hd; [| by intros].
    change (Z.pos p) with (Z.of_N (N.pos p)). rewrite <- Hv. exact Hd.
  - unfold pretty, pretty_Z, pretty_positive, pretty, pretty_N. rewrite decide_False by discriminate.
    destruct (pretty_N_go_digits (N.pos p)) as (Hd & Hv & Hh).
    destruct (Hh ltac:(lia)) as (c & t & Ht & Hc).
    change (String.list_ascii_of_string ("-" +:+ pretty_N_go (N.pos p) EmptyString))
      with ("-"%char :: String.list_ascii_of_string (pretty_N_go (N.pos p) EmptyString)).
    rewrite Ht in Hd, Hv |- *.
    apply (parse_number_digits true) in Hd; [| by intros].
    change (Z.neg p) with (- Z.of_N (N.pos p))%Z. rewrite <- Hv. exact Hd.
Qed.

(** Strings *)
Lemma str_body_escape_char c X :
  str_body (String.list_ascii_of_string (json_escape_char c) ++ X)%list =
  match str_body X with Some (b, r) => Some (c :: b, r) | None => None end.
Proof. destruct c as [[] [] [] [] [] [] [] []]; reflexivity. Qed.

Lemma str_body_escape s rest :
  str_body (String.list_ascii_of_string (json_escape s) ++ dq :: rest)%list =
  Some (String.list_ascii_of_string s, rest).
Proof.
  induction s as [|c s IH]; [reflexivity |].
  cbn [json_escape]. rewrite L_app, <- app_assoc, str_body_escape_char, IH. reflexivity.
Qed.

Lemma fmt_escape_char ind d c X :
  fmt_go ind d FStr (json_escape_char c +:+ X) = json_escape_char c +:+ fmt_go ind d FStr X.
Proof. destruct c as [[] [] [] [] [] [] [] []]; reflexivity. Qed.

(** The formatter *)
Definition fmt_plain (c : ascii) : bool :=
  negb (json_ws c || is_opener c || is_closer c || bool_decide (c = ","%char) ||
        bool_decide (c = ":"%char) || bool_decide (c = dq)).

Lemma fmt_out_plain ind d c :
  fmt_plain c = true -> fmt_out ind d c = (String c EmptyString, d, FOut).
Proof. destruct c as [[] [] [] [] [] [] [] []]; cbn; first [discriminate | reflexivity]. Qed.

Lemma num_char_plain c : num_char c = true -> fmt_plain c = true.
Proof. destruct c as [[] [] [] [] [] [] [] []]; cbn; first [discriminate | reflexivity]. Qed.

Lemma num_char_head c : num_char c = true -> json_ws c = false /\ is_closer c = false.
Proof. destruct c as [[] [] [] [] [] [] [] []]; cbn; first [discriminate | split; reflexivity]. Qed.

Lemma fmt_go_plain ind d t s :
  forallb fmt_plain (String.list_ascii_of_string t) = true ->
  fmt_go ind d FOut (t +:+ s) = t +:+ fmt_go ind d FOut s.
Proof.
  induction t as [|c t IH]; [reflexivity |]. cbn [String.list_ascii_of_string forallb].
  intros [Hc Ht]%andb_prop. simpl. rewrite fmt_out_plain by exact Hc.
  cbn. by rewrite IH.
Qed.

Lemma fmt_go_escape ind d s X :
  fmt_go ind d FStr (json_escape s +:+ X) = json_escape s +:+ fmt_go ind d FStr X.
Proof.
  induction s as [|c s IH]; [reflexivity |]. cbn [json_escape].
  by rewrite <- string_app_assoc, fmt_escape_char, IH, string_app_assoc.
Qed.

Lemma fmt_go_str ind d s r :
  fmt_go ind d FOut (json_str s +:+ r) = json_str s +:+ fmt_go ind d FOut r.
Proof.
  unfold json_str. change (String dq (json_escape s +:+ String dq EmptyString) +:+ r)
    with (String dq ((json_escape s +:+ String dq EmptyString) +:+ r)).
  rewrite <- string_app_assoc.
  change (fmt_go ind d FOut (String dq (json_escape s +:+ String dq EmptyString +:+ r)))
    with (String dq (fmt_go ind d FStr (json_escape s +:+ String dq EmptyString +:+ r))).
  rewrite fmt_go_escape.
  change (fmt_go ind d FStr (String dq EmptyString +:+ r)) with (String dq (fmt_go ind d FOut r)).
  change (String dq (json_escape s +:+ String dq EmptyString) +:+ fmt_go ind d FOut r)
    with (String dq ((json_escape s +:+ String dq EmptyString) +:+ fmt_go ind d FOut r)).
  by rewrite <- string_app_assoc.
Qed.

Lemma fmt_go_open ind d c X :
  json_ws c = false -> is_closer c = false ->
  fmt_go ind d FOpen (String c X) = newline_indent ind (S d) +:+ fmt_go ind (S d) FOut (String c X).
Proof.
  intros Hw Hc. cbn [fmt_go fmt_step]. rewrite Hw, Hc.
  destruct (fmt_out ind (S d) c) as [[o d'] st']. by rewrite string_app_assoc.
Qed.

Lemma fmt_go_close ind d c s :
  is_closer c = true ->
  fmt_go ind (S d) FOut (String c s) = newline_indent ind d +:+ String c (fmt_go ind d FOut s).
Proof.
  intros Hc.
  change (fmt_go ind (S d) FOut (String c s))
    with (let '(o, d', st') := fmt_out ind (S d) c in o +:+ fmt_go ind d' st' s).
  unfold fmt_out.
  assert (json_ws c = false /\ is_opener c = false) as [-> ->]
    by (destruct c as [[] [] [] [] [] [] [] []]; cbn in *; first [discriminate | split; reflexivity]).
  rewrite Hc. cbn [Nat.sub]. rewrite Nat.sub_0_r. by rewrite <- string_app_assoc.
Qed.

Lemma fmt_go_comma ind d s :
  fmt_go ind d FOut (String ","%char s) = "," +:+ newline_indent ind d +:+ fmt_go ind d FOut s.
Proof. reflexivity. Qed.

Lemma fmt_go_colon ind d s :
  fmt_go ind d FOut (String ":"%char s) = ": " +:+ fmt_go ind d FOut s.
Proof. reflexivity. Qed.

Lemma concat_empty_cons (x : string) xs :
  String.concat EmptyString (x :: xs) = x +:+ String.concat EmptyString xs.
Proof. destruct xs; cbn; [by rewrite string_app_nil | reflexivity]. Qed.

Lemma digit_num_char c : json_digit c = true -> num_char c = true.
Proof. unfold num_char. intros ->. reflexivity. Qed.

Lemma pretty_Z_chars (z : Z) :
  forallb num_char (String.list_ascii_of_string (pretty z)) = true /\
  String.list_ascii_of_string (pretty z) <> [].
Proof.
  assert (HN : forall p, forallb num_char (String.list_ascii_of_string (pretty (N.pos p))) = true /\
                         String.list_ascii_of_string (pretty (N.pos p)) <> []).
  { intros p. unfold pretty, pretty_N. rewrite decide_False by discriminate.
    destruct (pretty_N_go_digits (N.pos p)) as (Hd & _ & Hh).
    destruct (Hh ltac:(lia)) as (c & t & Ht & _). split; [| by rewrite Ht].
    apply forallb_forall. intros x Hx. apply digit_num_char.
    rewrite List.Forall_forall in Hd. by apply Hd. }
  destruct z as [|p|p]; [split; [reflexivity | discriminate] | apply HN |].
  destruct (HN p) as [H1 H2]. unfold pretty at 1, pretty_Z.
  change (String.list_ascii_of_string ("-" +:+ pretty (N.pos p)))
    with ("-"%char :: String.list_ascii_of_string (pretty (N.pos p))).
  split; [cbn; exact H1 | discriminate].
Qed.

Lemma float_text_chars r :
  float_text r = true ->
  forallb num_char (String.list_ascii_of_string r) = true /\ String.list_ascii_of_string r <> [].
Proof.
  unfold float_text. intros [H1 H2]%andb_prop. split; [exact H1 |]. intros E. by rewrite E in H2.
Qed.

Lemma L_cons_inv s c t : String.list_ascii_of_string s = c :: t -> exists X, s = String c X.
Proof. destruct s as [|c' X]; cbn; [discriminate | intros [= -> _]; by exists X]. Qed.

Lemma num_text_head s :
  forallb num_char (String.list_ascii_of_string s) = true -> String.list_ascii_of_string s <> [] ->
  exists c X, s = String c X /\ json_ws c = false /\ is_closer c = false.
Proof.
  destruct s as [|c X]; [done |]. cbn. intros [Hc _]%andb_prop _.
  exists c, X. split; [done | exact (num_char_head c Hc)].
Qed.

Lemma layout_head sep colon d v :
  json_value v = true ->
  exists c X, layout sep colon d v = String c X /\ json_ws c = false /\ is_closer c = false.
Proof.
  intros Hv. destruct v as [| [] | z | [r| |] | s | [|v vs] | [|[k v] kvs] |]; try discriminate;
    try (eexists _, _; split; [reflexivity | split; reflexivity]).
  - destruct (pretty_Z_chars z) as [H1 H2]. exact (num_text_head _ H1 H2).
  - destruct (float_text_chars r Hv) as [H1 H2]. exact (num_text_head _ H1 H2).
Qed.

Lemma app_String c (a b : string) : String c a +:+ b = String c (a +:+ b).
Proof. reflexivity. Qed.

Lemma forallb_num_plain l : forallb num_char l = true -> forallb fmt_plain l = true.
Proof.
  induction l as [|c l IH]; [done |]. cbn. intros [Hc Hl]%andb_prop.
  by rewrite (num_char_plain c Hc), (IH Hl).
Qed.

Lemma fmt_go_open_value sep colon ind d v Z :
  json_value v = true ->
  fmt_go ind d FOpen (layout sep colon (S d) v +:+ Z) =
  newline_indent ind (S d) +:+ fmt_go ind (S d) FOut (layout sep colon (S d) v +:+ Z).
Proof.
  intros Hv. destruct (layout_head sep colon (S d) v Hv) as (c & X & Eh & Hw & Hc).
  rewrite Eh, app_String. by apply fmt_go_open.
Qed.

Lemma fmt_go_open_compact ind d v Z :
  json_value v = true ->
  fmt_go ind d FOpen (compact (S d) v +:+ Z) =
  newline_indent ind (S d) +:+ fmt_go ind (S d) FOut (compact (S d) v +:+ Z).
Proof. apply fmt_go_open_value. Qed.

Lemma fmt_go_open_str ind d k Z :
  fmt_go ind d FOpen (json_str k +:+ Z) =
  newline_indent ind (S d) +:+ fmt_go ind (S d) FOut (json_str k +:+ Z).
Proof. unfold json_str. rewrite app_String. by apply fmt_go_open. Qed.

Lemma compact_list d v vs :
  compact d (PList (v :: vs)) =
  String "[" (compact (S d) v +:+
    String.concat EmptyString (map (fun v => String "," (compact (S d) v)) vs) +:+ "]").
Proof. reflexivity. Qed.

Lemma indented_list ind d v vs :
  indented ind d (PList (v :: vs)) =
  String "[" (newline_indent ind (S d) +:+ indented ind (S d) v +:+
    String.concat EmptyString (map (fun v => String "," (newline_indent ind (S d) +:+ indented ind (S d) v)) vs) +:+
    newline_indent ind d +:+ "]").
Proof. reflexivity. Qed.

Lemma compact_dict d k v kvs :
  compact d (PDict ((k, v) :: kvs)) =
  String "{" (json_str k +:+ String ":" (compact (S d) v) +:+
    String.concat EmptyString (map (fun '(k, v) => String "," (json_str k +:+ String ":" (compact (S d) v))) kvs) +:+ "}").
Proof. reflexivity. Qed.

Lemma indented_dict ind d k v kvs :
  indented ind d (PDict ((k, v) :: kvs)) =
  String "{" (newline_indent ind (S d) +:+ json_str k +:+ ": " +:+ indented ind (S d) v +:+
    String.concat EmptyString (map (fun '(k, v) => String "," (newline_indent ind (S d) +:+ json_str k +:+ ": " +:+ indented ind (S d) v)) kvs) +:+
    newline_indent ind d +:+ "}").
Proof. reflexivity. Qed.

Lemma fmt_go_lbrace ind d c Y :
  is_opener c = true -> fmt_go ind d FOut (String c Y) = String c (fmt_go ind d FOpen Y).
Proof. destruct c as [[] [] [] [] [] [] [] []]; first [discriminate | reflexivity]. Qed.

Ltac sa := repeat (rewrite <- string_app_assoc || rewrite app_String).

Definition fmt_ok (ind : nat) (v : pyval) : Prop :=
  forall d s, fmt_go ind d FOut (compact d v +:+ s) = indented ind d v +:+ fmt_go ind d FOut s.

Lemma fmt_items ind d vs Z :
  Forall (fun v => json_value v = true -> fmt_ok ind v) vs -> forallb json_value vs = true ->
  fmt_go ind (S d) FOut (String.concat EmptyString (map (fun v => String "," (compact (S d) v)) vs) +:+ Z) =
  String.concat EmptyString (map (fun v => String "," (newline_indent ind (S d) +:+ indented ind (S d) v)) vs) +:+
  fmt_go ind (S d) FOut Z.
Proof.
  induction 1 as [|v vs IHv _ IH]; [reflexivity |]. cbn [forallb]. intros [Hv Hvs]%andb_prop.
  rewrite !map_cons, !concat_empty_cons. sa. rewrite fmt_go_comma. sa. rewrite IHv by done. sa.
  rewrite IH by done. by sa.
Qed.

Lemma fmt_members ind d kvs Z :
  Forall (fun kv => json_value (snd kv) = true -> fmt_ok ind (snd kv)) kvs ->
  forallb (fun '(_, v) => json_value v) kvs = true ->
  fmt_go ind (S d) FOut (String.concat EmptyString
    (map (fun '(k, v) => String "," (json_str k +:+ String ":" (compact (S d) v))) kvs) +:+ Z) =
  String.concat EmptyString
    (map (fun '(k, v) => String "," (newline_indent ind (S d) +:+ json_str k +:+ ": " +:+ indented ind (S d) v)) kvs) +:+
  fmt_go ind (S d) FOut Z.
Proof.
  induction 1 as [|[k v] kvs IHv _ IH]; [reflexivity |]. cbn [forallb]. intros [Hv Hkvs]%andb_prop.
  cbn [snd] in IHv.
  rewrite !map_cons, !concat_empty_cons. sa. rewrite fmt_go_comma. sa. rewrite fmt_go_str. sa.
  rewrite fmt_go_colon. sa. rewrite IHv by done. sa. rewrite IH by done. by sa.
Qed.

Lemma fmt_layout ind v : json_value v = true -> fmt_ok ind v.
Proof.
  induction v as [| [] | z | [r| |] | s | vs IH | kvs IH |] using pyval_nested_ind;
    intros Hv d rest; try discriminate.
  - by apply fmt_go_plain.
  - by apply fmt_go_plain.
  - by apply fmt_go_plain.
  - apply fmt_go_plain, forallb_num_plain, pretty_Z_chars.
  - apply fmt_go_plain, forallb_num_plain, float_text_chars, Hv.
  - apply fmt_go_str.
  - destruct vs as [|v vs]; [reflexivity |].
    inversion IH as [|? ? IHv IHvs]; subst. cbn [json_value forallb] in Hv. apply andb_prop in Hv as [Hv Hvs].
    rewrite compact_list, indented_list, app_String, fmt_go_lbrace by reflexivity.
    rewrite <- !string_app_assoc, fmt_go_open_compact, IHv, fmt_items by done.
    change ("]" +:+ rest) with (String "]" rest). rewrite fmt_go_close by reflexivity.
    by sa.
  - destruct kvs as [|[k v] kvs]; [reflexivity |].
    inversion IH as [|? ? IHv IHkvs]; subst. cbn [json_value forallb] in Hv. apply andb_prop in Hv as [Hv Hkvs].
    cbn [snd] in IHv.
    rewrite compact_dict, indented_dict, app_String, fmt_go_lbrace by reflexivity.
    rewrite <- !string_app_assoc.
    rewrite fmt_go_open_str, fmt_go_str. sa. rewrite fmt_go_colon, IHv by done. sa.
    rewrite fmt_members by done.
    change ("}" +:+ rest) with (String "}" rest). rewrite fmt_go_close by reflexivity.
    by sa.
Qed.

(** The parser *)
Definition stops (rest : list ascii) : bool :=
  match rest with
  | [] => true
  | c :: _ => json_ws c || bool_decide (c = ","%char) || bool_decide (c = "]"%char) || bool_decide (c = "}"%char)
  end.

Lemma stops_num rest : stops rest = true -> num_stop rest = true.
Proof. destruct rest as [|c r]; [done |]. destruct c as [[] [] [] [] [] [] [] []]; first [discriminate | reflexivity]. Qed.

Lemma skip_ws_ws W X : forallb json_ws W = true -> skip_ws (W ++ X) = skip_ws X.
Proof. induction W as [|c W IH]; [done |]. cbn. intros [-> HW]%andb_prop. exact (IH HW). Qed.

Lemma skip_ws_head c X : json_ws c = false -> skip_ws (c :: X) = c :: X.
Proof. cbn. by intros ->. Qed.

Lemma parse_value_ws f W X :
  forallb json_ws W = true -> parse_value (S f) (W ++ X) = parse_value (S f) X.
Proof. intros HW. cbn [parse_value]. rewrite (skip_ws_ws W X HW). reflexivity. Qed.

Definition items_loop (fuel' : nat) :=
  fix items (n : nat) (s : list ascii) (acc : list pyval) : pres pyval :=
    match n with
    | O => PFail s
    | S n' =>
        match parse_value fuel' s with
        | PFail r => PFail r
        | POk v r =>
            let r := skip_ws r in
            match next_is "," r with
            | Some r' => items n' r' (v :: acc)
            | None =>
                match next_is "]" r with
                | Some r' => POk (PList (rev (v :: acc))) r'
                | None => PFail r
                end
            end
        end
    end.

Definition members_loop (fuel' : nat) :=
  fix members (n : nat) (s : list ascii) (acc : list (string * pyval)) : pres pyval :=
    match n with
    | O => PFail s
    | S n' =>
        let s := skip_ws s in
        match next_is dq s with
        | None => PFail s
        | Some s1 =>
            match str_body s1 with
            | None => PFail s
            | Some (k, s2) =>
                let s2 := skip_ws s2 in
                match next_is ":" s2 with
                | None => PFail s2
                | Some s3 =>
                    match parse_value fuel' s3 with
                    | PFail r => PFail r
                    | POk v r =>
                        let r := skip_ws r in
                        let acc := (String.string_of_list_ascii k, v) :: acc in
                        match next_is "," r with
                        | Some r' => members n' r' acc
                        | None =>
                            match next_is "}" r with
                            | Some r' => POk (PDict (rev acc)) r'
                            | None => PFail r
                            end
                        end
                    end
                end
            end
        end
    end.

Lemma parse_value_list f r :
  parse_value (S f) ("["%char :: r) =
  match next_is "]" (skip_ws r) with Some r' => POk (PList []) r' | None => items_loop f f r [] end.
Proof. reflexivity. Qed.

Lemma parse_value_dict f r :
  parse_value (S f) ("{"%char :: r) =
  match next_is "}" (skip_ws r) with Some r' => POk (PDict []) r' | None => members_loop f f r [] end.
Proof. reflexivity. Qed.

Lemma parse_value_str f r :
  parse_value (S f) (dq :: r) =
  match str_body r with
  | Some (b, r') => POk (PStr (String.string_of_list_ascii b)) r'
  | None => PFail (dq :: r)
  end.
Proof. reflexivity. Qed.

Lemma parse_value_num f c X :
  num_char c = true ->
  parse_value (S f) (c :: X) =
  match parse_number (c :: X) with Some (v, r') => POk v r' | None => PFail (c :: X) end.
Proof. destruct c as [[] [] [] [] [] [] [] []]; first [discriminate | reflexivity]. Qed.

Lemma pyval_size_pos v : 1 <= pyval_size v.
Proof. destruct v; cbn; lia. Qed.

Lemma sum_sizes_length vs : length vs <= List.list_sum (map pyval_size vs).
Proof. induction vs as [|v vs IH]; cbn; [lia |]. pose proof (pyval_size_pos v). unfold List.list_sum in *. lia. Qed.

Lemma sum_sizes_length_kv (kvs : list (string * pyval)) :
  length kvs <= List.list_sum (map (fun '(_, v) => pyval_size v) kvs).
Proof. induction kvs as [|[k v] kvs IH]; cbn; [lia |]. pose proof (pyval_size_pos v). unfold List.list_sum in *. lia. Qed.

Section Parse.
Context (sep : nat -> string) (sp : string).
Hypothesis Hsep : forall d, forallb json_ws (String.list_ascii_of_string (sep d)) = true.
Hypothesis Hsp : forallb json_ws (String.list_ascii_of_string sp) = true.

Definition parses (v : pyval) : Prop :=
  forall f d rest, pyval_size v < f -> stops rest = true ->
  parse_value f (String.list_ascii_of_string (layout sep (":" +:+ sp) d v) ++ rest)%list = POk v rest.

Lemma L_layout_list d v vs :
  String.list_ascii_of_string (layout sep (":" +:+ sp) d (PList (v :: vs))) =
  ("["%char :: String.list_ascii_of_string (sep (S d)) ++
   String.list_ascii_of_string (layout sep (":" +:+ sp) (S d) v) ++
   String.list_ascii_of_string (String.concat EmptyString
     (map (fun v => "," +:+ sep (S d) +:+ layout sep (":" +:+ sp) (S d) v) vs)) ++
   String.list_ascii_of_string (sep d) ++ ["]"%char])%list.
Proof.
  change (layout sep (":" +:+ sp) d (PList (v :: vs))) with
    ("[" +:+ sep (S d) +:+ layout sep (":" +:+ sp) (S d) v +:+
      String.concat EmptyString (map (fun v => "," +:+ sep (S d) +:+ layout sep (":" +:+ sp) (S d) v) vs) +:+
      sep d +:+ "]").
  rewrite !L_app. reflexivity.
Qed.

Lemma L_layout_dict d k v kvs :
  String.list_ascii_of_string (layout sep (":" +:+ sp) d (PDict ((k, v) :: kvs))) =
  ("{"%char :: String.list_ascii_of_string (sep (S d)) ++
   String.list_ascii_of_string (json_str k) ++ ":"%char :: String.list_ascii_of_string sp ++
   String.list_ascii_of_string (layout sep (":" +:+ sp) (S d) v) ++
   String.list_ascii_of_string (String.concat EmptyString
     (map (fun '(k, v) => "," +:+ sep (S d) +:+ json_str k +:+ (":" +:+ sp) +:+ layout sep (":" +:+ sp) (S d) v) kvs)) ++
   String.list_ascii_of_string (sep d) ++ ["}"%char])%list.
Proof.
  change (layout sep (":" +:+ sp) d (PDict ((k, v) :: kvs))) with
    ("{" +:+ sep (S d) +:+ json_str k +:+ (":" +:+ sp) +:+ layout sep (":" +:+ sp) (S d) v +:+
      String.concat EmptyString (map (fun '(k, v) => "," +:+ sep (S d) +:+ json_str k +:+ (":" +:+ sp) +:+ layout sep (":" +:+ sp) (S d) v) kvs) +:+
      sep d +:+ "}").
  rewrite !L_app. reflexivity.
Qed.

Lemma L_json_str k :
  String.list_ascii_of_string (json_str k) = (dq :: String.list_ascii_of_string (json_escape k) ++ [dq])%list.
Proof. unfold json_str. cbn [String.list_ascii_of_string]. by rewrite L_app. Qed.

Lemma skip_value d v X :
  json_value v = true ->
  skip_ws (String.list_ascii_of_string (layout sep (":" +:+ sp) d v) ++ X)%list =
  (String.list_ascii_of_string (layout sep (":" +:+ sp) d v) ++ X)%list /\
  next_is "]" (String.list_ascii_of_string (layout sep (":" +:+ sp) d v) ++ X)%list = None /\
  next_is "}" (String.list_ascii_of_string (layout sep (":" +:+ sp) d v) ++ X)%list = None.
Proof.
  intros Hv. destruct (layout_head sep (":" +:+ sp) d v Hv) as (c & Y & Eh & Hw & Hc). rewrite Eh.
  cbn [String.list_ascii_of_string app]. rewrite skip_ws_head by exact Hw.
  unfold next_is. rewrite !bool_decide_false; [done | ..]; intros <-; discriminate.
Qed.

Lemma L_String c s : String.list_ascii_of_string (String c s) = c :: String.list_ascii_of_string s.
Proof. reflexivity. Qed.

Lemma app_nil_str s : EmptyString +:+ s = s.
Proof. reflexivity. Qed.

Lemma next_is_same c Y : next_is c (c :: Y) = Some Y.
Proof. unfold next_is. by rewrite bool_decide_true. Qed.

Lemma items_ok f' d v vs acc n rest :
  Forall (fun v => json_value v = true /\ pyval_size v < f' /\ parses v) (v :: vs) ->
  S (length vs) <= n -> stops rest = true ->
  items_loop f' n (String.list_ascii_of_string (sep (S d)) ++
    String.list_ascii_of_string (layout sep (":" +:+ sp) (S d) v) ++
    String.list_ascii_of_string (String.concat EmptyString
      (map (fun v => "," +:+ sep (S d) +:+ layout sep (":" +:+ sp) (S d) v) vs)) ++
    String.list_ascii_of_string (sep d) ++ "]"%char :: rest)%list acc =
  POk (PList (rev acc ++ v :: vs)) rest.
Proof.
  revert v acc n. induction vs as [|v2 vs IH]; intros v acc n Hall Hn Hrest;
    destruct n as [|n]; try lia; inversion Hall as [|? ? (Hv & Hsz & Hp) Hall']; subst.
  - cbn [items_loop]. destruct f' as [|f'']; [lia |].
    rewrite parse_value_ws by apply Hsep.
    rewrite Hp; [| exact Hsz | ].
    + cbn [map String.concat String.list_ascii_of_string app].
      rewrite skip_ws_ws by apply Hsep. reflexivity.
    + cbn [map String.concat String.list_ascii_of_string app].
      destruct (String.list_ascii_of_string (sep d)) as [|c l] eqn:E; [reflexivity |].
      specialize (Hsep d). rewrite E in Hsep. cbn in Hsep |- *. apply andb_prop in Hsep as [-> _]. reflexivity.
  - cbn [items_loop]. destruct f' as [|f'']; [lia |].
    rewrite parse_value_ws by apply Hsep.
    rewrite map_cons, concat_empty_cons, L_app, <- app_assoc.
    rewrite Hp; [| exact Hsz | reflexivity].
    rewrite app_String, L_String, app_nil_str, <- app_comm_cons, skip_ws_head, next_is_same by reflexivity.
    rewrite L_app, <- app_assoc.
    rewrite (IH v2 (v :: acc) n Hall') by (cbn in Hn; lia || exact Hrest).
    cbn. by rewrite <- app_assoc.
Qed.

Lemma cons_app1 (c : ascii) (X : list ascii) : ([c] ++ X)%list = c :: X.
Proof. reflexivity. Qed.

Lemma members_ok f' d k v kvs acc n rest :
  Forall (fun kv => json_value (snd kv) = true /\ pyval_size (snd kv) < f' /\ parses (snd kv)) ((k, v) :: kvs) ->
  S (length kvs) <= n -> stops rest = true ->
  members_loop f' n (String.list_ascii_of_string (sep (S d)) ++
    String.list_ascii_of_string (json_str k) ++ ":"%char :: String.list_ascii_of_string sp ++
    String.list_ascii_of_string (layout sep (":" +:+ sp) (S d) v) ++
    String.list_ascii_of_string (String.concat EmptyString
      (map (fun '(k, v) => "," +:+ sep (S d) +:+ json_str k +:+ (":" +:+ sp) +:+ layout sep (":" +:+ sp) (S d) v) kvs)) ++
    String.list_ascii_of_string (sep d) ++ "}"%char :: rest)%list acc =
  POk (PDict (rev acc ++ (k, v) :: kvs)) rest.
Proof.
  revert k v acc n. induction kvs as [|[k2 v2] kvs IH]; intros k v acc n Hall Hn Hrest;
    destruct n as [|n]; try lia; inversion Hall as [|? ? (Hv & Hsz & Hp) Hall']; subst; cbn [snd] in *.
  all: cbn [members_loop]; destruct f' as [|f'']; [lia |].
  all: rewrite skip_ws_ws by apply Hsep.
  all: rewrite L_json_str, <- app_comm_cons, skip_ws_head, next_is_same by reflexivity.
  all: rewrite <- app_assoc, cons_app1, str_body_escape, skip_ws_head, next_is_same by reflexivity.
  all: rewrite parse_value_ws by exact Hsp.
  - rewrite Hp; [| exact Hsz | ].
    + cbn [map String.concat String.list_ascii_of_string app].
      rewrite skip_ws_ws by apply Hsep. rewrite String.string_of_list_ascii_of_string. reflexivity.
    + cbn [map String.concat String.list_ascii_of_string app].
      destruct (String.list_ascii_of_string (sep d)) as [|c l] eqn:E; [reflexivity |].
      specialize (Hsep d). rewrite E in Hsep. cbn in Hsep |- *. apply andb_prop in Hsep as [-> _]. reflexivity.
  - rewrite map_cons, concat_empty_cons, L_app, <- app_assoc.
    rewrite Hp; [| exact Hsz | reflexivity].
    rewrite app_String, L_String, app_nil_str, <- app_comm_cons, skip_ws_head, next_is_same by reflexivity.
    rewrite !L_app, <- !app_assoc. cbn [String.list_ascii_of_string app].
    rewrite String.string_of_list_ascii_of_string.
    rewrite (IH k2 v2 ((k, v) :: acc) n Hall') by (cbn in Hn; lia || exact Hrest).
    cbn. by rewrite <- app_assoc.
Qed.

Lemma float_text_parse r :
  float_text r = true -> parse_number (String.list_ascii_of_string r) = Some (PFloat (FFinite r), []).
Proof.
  unfold float_text. intros [_ H]%andb_prop. repeat case_match; try discriminate.
  apply String.eqb_eq in H. by subst.
Qed.

Lemma parse_num_text f l v rest :
  forallb num_char l = true -> l <> [] -> parse_number l = Some (v, []) -> stops rest = true ->
  parse_value (S f) (l ++ rest)%list = POk v rest.
Proof.
  intros Hc Hne Hp Hr. destruct l as [|c X]; [done |]. cbn [forallb] in Hc. apply andb_prop in Hc as [Hc _].
  rewrite <- app_comm_cons, parse_value_num by exact Hc.
  rewrite app_comm_cons, parse_number_app, Hp by (apply stops_num; exact Hr). reflexivity.
Qed.

Lemma in_sum_le (vs : list pyval) x : In x vs -> pyval_size x <= List.list_sum (map pyval_size vs).
Proof.
  induction vs as [|v vs IH]; [done |]. intros [->|Hx]; cbn; [lia |]. specialize (IH Hx).
  unfold List.list_sum in *. lia.
Qed.

Lemma in_sum_le_kv (kvs : list (string * pyval)) k x :
  In (k, x) kvs -> pyval_size x <= List.list_sum (map (fun '(_, v) => pyval_size v) kvs).
Proof.
  induction kvs as [|[k' v] kvs IH]; [done |]. intros [[= -> ->]|Hx]; cbn; [lia |]. specialize (IH Hx).
  unfold List.list_sum in *. lia.
Qed.

Lemma str_start k X :
  skip_ws (String.list_ascii_of_string (json_str k) ++ X)%list = (String.list_ascii_of_string (json_str k) ++ X)%list /\
  next_is "}" (String.list_ascii_of_string (json_str k) ++ X)%list = None.
Proof. rewrite L_json_str. split; reflexivity. Qed.

Lemma parse_layout v : json_value v = true -> parses v.
Proof.
  induction v as [| [] | z | [r| |] | s | vs IH | kvs IH |] using pyval_nested_ind;
    intros Hv f d rest Hf Hr; try discriminate; destruct f as [|f]; try (cbn in Hf; lia).
  - reflexivity.
  - reflexivity.
  - reflexivity.
  - destruct (pretty_Z_chars z) as [Hc Hne]. exact (parse_num_text f _ _ _ Hc Hne (pretty_Z_parse z) Hr).
  - destruct (float_text_chars r Hv) as [Hc Hne].
    exact (parse_num_text f _ _ _ Hc Hne (float_text_parse r Hv) Hr).
  - change (layout sep (":" +:+ sp) d (PStr s)) with (json_str s).
    rewrite L_json_str, <- app_comm_cons, parse_value_str, <- app_assoc, cons_app1, str_body_escape.
    by rewrite String.string_of_list_ascii_of_string.
  - destruct vs as [|v vs]; [reflexivity |].
    cbn [json_value] in Hv. cbn [pyval_size map] in Hf. unfold List.list_sum in Hf. cbn [foldr] in Hf.
    rewrite L_layout_list, <- app_comm_cons, parse_value_list, <- !app_assoc. cbn [app].
    rewrite (skip_ws_ws (String.list_ascii_of_string (sep (S d)))) by apply Hsep.
    destruct (skip_value (S d) v (String.list_ascii_of_string (String.concat EmptyString
        (map (fun v => "," +:+ sep (S d) +:+ layout sep (":" +:+ sp) (S d) v) vs)) ++
        String.list_ascii_of_string (sep d) ++ "]"%char :: rest)%list) as (Hs1 & Hs2 & _).
    { by apply andb_prop in Hv as [? _]. }
    rewrite Hs1, Hs2.
    rewrite (items_ok f d v vs [] f rest); [reflexivity | | | exact Hr].
    + apply List.Forall_forall. intros x Hx. repeat split.
      * by apply (proj1 (forallb_forall _ _) Hv).
      * destruct Hx as [<-|Hx]; [lia |]. pose proof (in_sum_le vs x Hx). unfold List.list_sum in *. lia.
      * rewrite List.Forall_forall in IH. apply IH; [exact Hx |]. by apply (proj1 (forallb_forall _ _) Hv).
    + pose proof (sum_sizes_length vs). pose proof (pyval_size_pos v). unfold List.list_sum in *. lia.
  - destruct kvs as [|[k v] kvs]; [reflexivity |].
    cbn [json_value] in Hv. cbn [pyval_size map] in Hf. unfold List.list_sum in Hf. cbn [foldr] in Hf.
    rewrite L_layout_dict, <- app_comm_cons, parse_value_dict.
    repeat (rewrite <- app_assoc || rewrite <- app_comm_cons). cbn [app].
    rewrite (skip_ws_ws (String.list_ascii_of_string (sep (S d)))) by apply Hsep.
    destruct (str_start k (":"%char :: String.list_ascii_of_string sp ++
      String.list_ascii_of_string (layout sep (":" +:+ sp) (S d) v) ++
      String.list_ascii_of_string (String.concat EmptyString
        (map (fun '(k, v) => "," +:+ sep (S d) +:+ json_str k +:+ (":" +:+ sp) +:+ layout sep (":" +:+ sp) (S d) v) kvs)) ++
      String.list_ascii_of_string (sep d) ++ "}"%char :: rest)%list) as [-> ->].
    rewrite (members_ok f d k v kvs [] f rest); [reflexivity | | | exact Hr].
    + apply List.Forall_forall. intros [k' x] Hx. cbn [snd]. repeat split.
      * exact (proj1 (forallb_forall _ _) Hv (k', x) Hx).
      * destruct Hx as [[= <- <-]|Hx]; [lia |]. pose proof (in_sum_le_kv kvs k' x Hx). unfold List.list_sum in *. lia.
      * rewrite List.Forall_forall in IH. apply (IH (k', x)); [exact Hx |].
        exact (proj1 (forallb_forall _ _) Hv (k', x) Hx).
    + pose proof (sum_sizes_length_kv kvs). pose proof (pyval_size_pos v). unfold List.list_sum in *. lia.
Qed.
End Parse.

Lemma length_L_app a b :
  length (String.list_ascii_of_string (a +:+ b)) =
  length (String.list_ascii_of_string a) + length (String.list_ascii_of_string b).
Proof. by rewrite L_app, length_app. Qed.

Lemma layout_length sep colon d v :
  json_value v = true -> pyval_size v <= length (String.list_ascii_of_string (layout sep colon d v)).
Proof.
  revert d. induction v as [| [] | z | [r| |] | s | vs IH | kvs IH |] using pyval_nested_ind;
    intros d Hv; try discriminate; try (cbn; lia).
  - destruct (pretty_Z_chars z) as [_ Hne]. cbn [pyval_size layout].
    destruct (String.list_ascii_of_string (pretty z)); [done | cbn; lia].
  - destruct (float_text_chars r Hv) as [_ Hne]. cbn [pyval_size layout json_float].
    destruct (String.list_ascii_of_string r); [done | cbn; lia].
  - destruct vs as [|v vs]; [cbn; lia |].
    cbn [json_value forallb] in Hv. apply andb_prop in Hv as [Hv Hvs].
    inversion IH as [|? ? IHv IHvs]; subst.
    assert (Hc : List.list_sum (map pyval_size vs) <=
      length (String.list_ascii_of_string (String.concat EmptyString
        (map (fun v => "," +:+ sep (S d) +:+ layout sep colon (S d) v) vs)))).
    { clear IH IHv Hv. induction IHvs as [|x vs Hx _ IHc]; [cbn; lia |].
      cbn [forallb] in Hvs. apply andb_prop in Hvs as [Hx' Hvs].
      rewrite !map_cons, concat_empty_cons, length_L_app, app_String, L_String, app_nil_str.
      cbn [length]. rewrite length_L_app. specialize (Hx (S d) Hx'). specialize (IHc Hvs).
      unfold List.list_sum in *. cbn [map foldr]. lia. }
    change (layout sep colon d (PList (v :: vs))) with
      ("[" +:+ sep (S d) +:+ layout sep colon (S d) v +:+
        String.concat EmptyString (map (fun v => "," +:+ sep (S d) +:+ layout sep colon (S d) v) vs) +:+
        sep d +:+ "]").
    rewrite !length_L_app. specialize (IHv (S d) Hv). cbn [pyval_size map].
    unfold List.list_sum in *. cbn [foldr]. cbn [String.list_ascii_of_string length]. lia.
  - destruct kvs as [|[k v] kvs]; [cbn; lia |].
    cbn [json_value forallb] in Hv. apply andb_prop in Hv as [Hv Hkvs].
    inversion IH as [|? ? IHv IHkvs]; subst. cbn [snd] in IHv.
    assert (Hc : List.list_sum (map (fun '(_, v) => pyval_size v) kvs) <=
      length (String.list_ascii_of_string (String.concat EmptyString
        (map (fun '(k, v) => "," +:+ sep (S d) +:+ json_str k +:+ colon +:+ layout sep colon (S d) v) kvs)))).
    { clear IH IHv Hv. induction IHkvs as [|[k' x] kvs Hx _ IHc]; [cbn; lia |].
      cbn [forallb] in Hkvs. apply andb_prop in Hkvs as [Hx' Hkvs]. cbn [snd] in Hx.
      rewrite !map_cons, concat_empty_cons, length_L_app, app_String, L_String, app_nil_str.
      cbn [length]. rewrite !length_L_app. specialize (Hx (S d) Hx'). specialize (IHc Hkvs).
      unfold List.list_sum in *. cbn [map foldr]. lia. }
    change (layout sep colon d (PDict ((k, v) :: kvs))) with
      ("{" +:+ sep (S d) +:+ json_str k +:+ colon +:+ layout sep colon (S d) v +:+
        String.concat EmptyString (map (fun '(k, v) => "," +:+ sep (S d) +:+ json_str k +:+ colon +:+ layout sep colon (S d) v) kvs) +:+
        sep d +:+ "}").
    rewrite !length_L_app. specialize (IHv (S d) Hv). cbn [pyval_size map].
    unfold List.list_sum in *. cbn [foldr]. cbn [String.list_ascii_of_string length]. lia.
Qed.

Lemma json_decode_layout sep sp v :
  (forall d, forallb json_ws (String.list_ascii_of_string (sep d)) = true) ->
  forallb json_ws (String.list_ascii_of_string sp) = true ->
  json_value v = true -> json_decode (layout sep (":" +:+ sp) 0 v) = Ok v.
Proof.
  intros Hsep Hsp Hv. unfold json_decode.
  rewrite <- (app_nil_r (String.list_ascii_of_string (layout sep (":" +:+ sp) 0 v))) at 2.
  rewrite (parse_layout sep sp Hsep Hsp v Hv); [reflexivity | | reflexivity].
  pose proof (layout_length sep (":" +:+ sp) 0 v Hv). lia.
Qed.

Lemma json_bytes_layout v indent :
  json_value v = true ->
  json_bytes v indent =
  Ok (if (0 <? indent)%Z then indented (Z.to_nat indent) 0 v else compact 0 v).
Proof.
  intros Hv. unfold json_bytes. rewrite (json_encode_compact v 0 Hv).
  destruct (0 <? indent)%Z; [| reflexivity]. cbn [rbind]. f_equal.
  unfold json_format. rewrite <- (string_app_nil (compact 0 v)), fmt_layout by exact Hv.
  apply string_app_nil.
Qed.

Lemma spaces_ws n : forallb json_ws (String.list_ascii_of_string (spaces n)) = true.
Proof. induction n as [|n IH]; [reflexivity | exact IH]. Qed.

Lemma json_bytes_decode v indent :
  json_value v = true -> exists t, json_bytes v indent = Ok t /\ json_decode t = Ok v.
Proof.
  intros Hv. rewrite json_bytes_layout by exact Hv. eexists. split; [reflexivity |].
  destruct (0 <? indent)%Z.
  - apply (json_decode_layout (newline_indent (Z.to_nat indent)) " "); [| reflexivity | exact Hv].
    intros d. apply spaces_ws.
  - apply (json_decode_layout (fun _ => EmptyString) EmptyString); [reflexivity | reflexivity | exact Hv].
Qed.


(** A value with a negative integer, a float with an exponent, the
    UTF-8 encodings of [U+00E9] and [U+1F600], and nested containers. *)
Definition rt_value : pyval :=
  PDict [("n", PInt (-42)); ("x", PFloat (FFinite "1.5e-3")); ("ok", PBool true);
         ("none", PNone); ("s", PStr (String.string_of_list_ascii (utf8 233)));
         ("emoji", PStr (String.string_of_list_ascii (utf8 128512)));
         ("l", PList [PInt 0; PList []; PDict []; PStr "a b"])].

(** C1: for every write through [dump_json], [dump_yaml] or
    [atomic_write], a failed call leaves the target's content (or its
    absence) exactly as it was, and every state of the target any reader
    can observe during the call (the snapshot after each OS call) is its
    content before the call or its content after it; a successful call
    leaves at the target exactly the complete new payload. *)
Theorem writes_all_or_nothing yaml_encode c w r w' :
  run_call yaml_encode c w = (r, w') ->
  (exists l, trace w' = (trace w ++ l)%list /\
     Forall (fun ev => ev_files ev !! call_target c = files w !! call_target c \/
                       ev_files ev !! call_target c = files w' !! call_target c) l) /\
  match r with
  | Ok _ => exists s, call_payload yaml_encode c = Ok s /\ files w' !! call_target c = Some s
  | Err _ => files w' !! call_target c = files w !! call_target c
  end.
Proof.
  intros H. destruct (run_call_spec _ _ _ _ _ H) as (l & El & Fl & Hr). split.
  - exists l. split; [done |]. eapply Forall_impl; [exact Fl |]. by intros ev [_ Hs].
  - destruct r.
    + destruct Hr as (s & Hs & Hf). exists s. split; [done |]. rewrite Hf. apply lookup_insert_eq.
    + by destruct Hr.
Qed.

Lemma writes_all_or_nothing_witness :
  files (snd (run_call (fun _ => Ok EmptyString) c1_call c1_world)) !! ["d"; "f.txt"] = Some "old".
Proof.
  destruct (writes_all_or_nothing (fun _ => Ok EmptyString) c1_call c1_world
    (fst (run_call (fun _ => Ok EmptyString) c1_call c1_world))
    (snd (run_call (fun _ => Ok EmptyString) c1_call c1_world))) as [_ H].
  { vm_compute. reflexivity. }
  revert H. vm_compute. intros H. exact H.
Defined.

(** C2, corrected: there is no durability flag.  [_atomic_write_bytes]
    (behind [dump_json] and [dump_yaml]) always makes the [fsync] of the
    staging file before the rename: the OS calls of a successful run are
    exactly mkdir, the [O_EXCL] creates, write, flush, fsync, close and
    replace.  The [atomic_write] context manager never calls [fsync], and
    a successful run still renames the staging file onto the target. *)
Theorem durability_fixed_per_writer :
  (forall self data w w', _atomic_write_bytes self data w = (Ok tt, w') ->
     exists l qs tmp, trace w' = (trace w ++ l)%list /\
       map ev_op l = (OpMkdir (parent self) :: map OpCreate qs ++
         [OpCreate tmp; OpWrite tmp; OpFlush tmp; OpFsync tmp; OpClose tmp; OpReplace tmp self])%list) /\
  (forall self mode encoding block w r w', atomic_write self mode encoding block w = (r, w') ->
     exists l, trace w' = (trace w ++ l)%list /\
       Forall (fun ev => is_fsync (ev_op ev) = false) l /\
       (r = Ok tt -> files w' = <[self := block_text block]> (files w))).
Proof.
  split.
  - intros self data w w' H. destruct (atomic_write_bytes_spec _ _ _ _ _ H) as (l & El & _ & _ & qs & tmp & Hops).
    eauto.
  - intros self mode encoding block w r w' H. pose proof (atomic_write_spec _ _ _ _ _ _ _ H) as Hs.
    destruct (match encoding with Some _ => has_char "b" mode | None => false end).
    + destruct Hs as [-> ->]. exists []. rewrite app_nil_r. split; [done |]. split; [constructor | done].
    + destruct Hs as (l & El & Fl & Hr). exists l. split; [done |]. split.
      * eapply Forall_impl; [exact Fl |]. intros ev [Ho _]. by destruct (ev_op ev) as [| | | | p | | | | | |]; [..| destruct Ho | | | | | |].
      * intros ->. exact Hr.
Qed.

Lemma durability_fixed_per_writer_witness :
  exists l, trace (snd (atomic_write ["f.txt"] "w" None [BWrite "x"] (w_init ∅ no_faults))) =
            (trace (w_init ∅ no_faults) ++ l)%list /\ Forall (fun ev => is_fsync (ev_op ev) = false) l.
Proof.
  destruct (proj2 durability_fixed_per_writer ["f.txt"] "w" None [BWrite "x"] (w_init ∅ no_faults)
    (fst (atomic_write ["f.txt"] "w" None [BWrite "x"] (w_init ∅ no_faults)))
    (snd (atomic_write ["f.txt"] "w" None [BWrite "x"] (w_init ∅ no_faults))))
    as (l & El & Fl & _).
  { vm_compute. reflexivity. }
  exists l. split; [exact El | exact Fl].
Defined.

(** C2, counterexample: [atomic_write] with its default mode succeeds and
    renames the staging file onto the target without any [fsync]. *)
Lemma atomic_write_renames_without_fsync :
  let '(r, w') := atomic_write ["d"; "f.txt"] "w" None [BWrite "hello"] (w_init ∅ no_faults) in
  r = Ok tt /\ files w' !! ["d"; "f.txt"] = Some "hello" /\
  existsb (fun ev => match ev_op ev with OpReplace _ dst => bool_decide (dst = ["d"; "f.txt"]) | _ => false end)
    (trace w') = true /\
  forallb (fun ev => negb (is_fsync (ev_op ev))) (trace w') = true.
Proof. vm_compute. repeat split. Qed.

(** C3, corrected: for every value [v] built from [None], booleans,
    integers, finite floats, strings of any bytes (UTF-8 non-ASCII text
    and emoji included), lists and string-keyed dicts, nested to any
    depth, and every [indent], once [dump_json] has written [v],
    [load_json] with no OS fault on its read returns [v] again.  NaN and
    the infinities are outside: msgspec writes them as [null], which
    reads back as [None].  For YAML, the code adds nothing to the codec:
    for every encoder and decoder such that the decoder gives back [v]
    from the encoder's text for [v] (for [dump_yaml] and [load_yaml],
    PyYAML's [safe_dump] and [safe_load]), once [dump_yaml] has written
    [v], [load_yaml] with no OS fault on its read returns [v]. *)
Theorem json_round_trip self v indent w w1 :
  (json_value v = true ->
   dump_json self v indent w = (Ok tt, w1) ->
   faults w1 (tick w1) = None -> self ∉ dirs w1 ->
   fst (load_json self w1) = Ok v) /\
  (forall enc dec, (forall t, enc v = Ok t -> dec t = Ok v) ->
   dump_yaml enc self v w = (Ok tt, w1) ->
   faults w1 (tick w1) = None -> self ∉ dirs w1 ->
   fst (load_yaml dec self w1) = Ok v).
Proof.
  split.
  - intros Hv Hd Hf Hdir. destruct (json_bytes_decode v indent Hv) as (t & Ht & Hdec).
    rewrite dump_json_eq, Ht in Hd.
    destruct (atomic_write_bytes_spec _ _ _ _ _ Hd) as (l & _ & _ & Hfiles & _).
    rewrite load_json_eq. unfold read_bytes, os_call. rewrite Hf.
    change (dirs (bump w1)) with (dirs w1). change (files (bump w1)) with (files w1).
    rewrite bool_decide_false by exact Hdir. rewrite Hfiles, lookup_insert, decide_True by reflexivity. cbn -[json_decode].
    rewrite Hdec. reflexivity.
  - intros enc dec Hcodec Hd Hf Hdir. rewrite dump_yaml_eq in Hd.
    destruct (enc v) as [t|e] eqn:Ht; [| discriminate].
    destruct (atomic_write_bytes_spec _ _ _ _ _ Hd) as (l & _ & _ & Hfiles & _).
    unfold load_yaml, try_except, bind, lift, read_bytes, os_call. rewrite Hf.
    change (dirs (bump w1)) with (dirs w1). change (files (bump w1)) with (files w1).
    rewrite bool_decide_false by exact Hdir. rewrite Hfiles, lookup_insert_eq. cbn.
    rewrite (Hcodec t eq_refl). reflexivity.
Qed.

Lemma json_round_trip_witness :
  json_value rt_value = true /\
  fst (load_json ["d"; "v.json"] (snd (dump_json ["d"; "v.json"] rt_value 2 c1_world))) = Ok rt_value /\
  fst (load_yaml (fun _ => Ok rt_value) ["d"; "v.yaml"]
         (snd (dump_yaml (fun _ => Ok "v: 1") ["d"; "v.yaml"] rt_value c1_world))) = Ok rt_value.
Proof.
  split; [vm_compute; reflexivity |]. split.
  - apply (proj1 (json_round_trip ["d"; "v.json"] rt_value 2 c1_world
                    (snd (dump_json ["d"; "v.json"] rt_value 2 c1_world)))).
    + vm_compute; reflexivity.
    + assert (E : fst (dump_json ["d"; "v.json"] rt_value 2 c1_world) = Ok tt) by (vm_compute; reflexivity).
      rewrite <- E. apply surjective_pairing.
    + vm_compute; reflexivity.
    + apply (bool_decide_unpack _). vm_compute. exact I.
  - apply (proj2 (json_round_trip ["d"; "v.yaml"] rt_value 2 c1_world
                    (snd (dump_yaml (fun _ => Ok "v: 1") ["d"; "v.yaml"] rt_value c1_world)))
             (fun _ => Ok "v: 1") (fun _ => Ok rt_value)).
    + intros t _. reflexivity.
    + assert (E : fst (dump_yaml (fun _ => Ok "v: 1") ["d"; "v.yaml"] rt_value c1_world) = Ok tt)
        by (vm_compute; reflexivity).
      rewrite <- E. apply surjective_pairing.
    + vm_compute; reflexivity.
    + apply (bool_decide_unpack _). vm_compute. exact I.
Defined.

(** C3, counterexample: a list of NaN and infinity is written as
    [[null, null]] and reads back as [[None, None]]. *)
Lemma json_nonfinite_float_read_back_as_null :
  fst (dump_json ["d"; "v.json"] (PList [PFloat FNaN; PFloat (FInf false)]) 2 c1_world) = Ok tt /\
  fst (load_json ["d"; "v.json"] (snd (dump_json ["d"; "v.json"] (PList [PFloat FNaN; PFloat (FInf false)]) 2 c1_world))) = Ok (PList [PNone; PNone]).
Proof. split; vm_compute; reflexivity. Qed.

(** C4: encoding [{"name": "Easy File", "version": "0.4.0"}] with the
    default indentation 2 gives the two-space indented text, one member
    per line, and with indentation 0 the compact text with no whitespace
    between tokens. *)
Theorem dump_json_config_bytes :
  json_bytes config 2 =
    Ok ("{" +:+ String nl ("  " +:+ quoted "name" +:+ ": " +:+ quoted "Easy File" +:+ "," +:+
        String nl ("  " +:+ quoted "version" +:+ ": " +:+ quoted "0.4.0" +:+ String nl "}"))) /\
  json_bytes config 0 =
    Ok ("{" +:+ quoted "name" +:+ ":" +:+ quoted "Easy File" +:+ "," +:+
        quoted "version" +:+ ":" +:+ quoted "0.4.0" +:+ "}").
Proof. split; vm_compute; reflexivity. Qed.

(** C5: for every list of [N] paths and every order in which the reads
    complete, a successful [read_many_async] returns a list of length [N]
    whose [i]-th element is the content of the [i]-th path, read as text
    (the file's bytes, UTF-8 decoded with universal newlines). *)
Theorem read_many_async_in_order paths sched w rs w' :
  Permutation sched (seq 0 (length paths)) ->
  read_many_async paths sched w = (Ok rs, w') ->
  Forall2 (fun p c => exists b, files w !! p = Some b /\ decode_text b = Ok c) paths rs.
Proof.
  intros Hperm H. unfold read_many_async, bind in H.
  destruct (gather_run paths sched ∅ None w) as [r1 w1] eqn:E.
  destruct (gather_run_spec _ _ _ _ _ _ _ E) as (_ & slots & first & -> & Hok & Hnone & _).
  destruct first as [e|]; [discriminate |].
  injection H as <- _.
  assert (Hok' : slots_ok paths (files w) slots) by (apply Hok; intros i c Hi; by rewrite lookup_empty in Hi).
  destruct (Hnone eq_refl) as [_ Hall].
  apply Forall2_lookup. intros i.
  destruct (paths !! i) as [p|] eqn:Hp.
  - assert (Hi : i < length paths) by (eapply lookup_lt_Some; eauto).
    assert (Hin : In i sched).
    { apply (Permutation_in i (Permutation_sym Hperm)). apply in_seq. lia. }
    destruct (Hall i p Hin Hp) as [c Hc].
    destruct (Hok' i c Hc) as (p' & b & Hp' & Hfb & Hd). rewrite Hp in Hp'. injection Hp' as <-.
    rewrite lookup_map_seq_lt by done. cbn. rewrite Hc. constructor. eauto.
  - apply lookup_ge_None in Hp. rewrite lookup_ge_None_2; [constructor |].
    rewrite length_map, length_seq. done.
Qed.

Lemma read_many_async_in_order_witness :
  Forall2 (fun p c => exists b, files (w_init {[ ["a"] := "A"; ["b"] := "B" ]} no_faults) !! p = Some b /\
                                decode_text b = Ok c)
    [["a"]; ["b"]] ["A"; "B"].
Proof.
  apply (read_many_async_in_order [["a"]; ["b"]] [1; 0] (w_init {[ ["a"] := "A"; ["b"] := "B" ]} no_faults)
           ["A"; "B"] (snd (read_many_async [["a"]; ["b"]] [1; 0] (w_init {[ ["a"] := "A"; ["b"] := "B" ]} no_faults)))).
  - apply perm_swap.
  - vm_compute. reflexivity.
Defined.







(** C8: [load_json] on a file holding [{bad json] fails with a
    [JSONDecodeError] (the DecodeError kind) whose message starts with
    [Failed to decode JSON from] followed by the path. *)
Theorem load_json_bad_json self w :
  files w !! self = Some "{bad json" -> self ∉ dirs w -> faults w (tick w) = None ->
  exists msg w', load_json self w = (Err (JSONDecodeError msg), w') /\
    taxonomy_kind (JSONDecodeError msg) = Some DecodeError /\
    exists rest, msg = "Failed to decode JSON from " +:+ str self +:+ rest.
Proof.
  intros Hc Hdir Hf. rewrite load_json_eq. cbv [read_bytes os_call]. rewrite Hf. cbn.
  rewrite bool_decide_false by done. rewrite Hc. cbn.
  replace (json_decode "{bad json")
    with (Err (A:=pyval) (MsgspecDecodeError "JSON is malformed: invalid character (byte 1)"))
    by (vm_compute; reflexivity).
  cbn. eexists _, _. split; [reflexivity |]. split; [reflexivity |].
  eexists. reflexivity.
Qed.

Lemma load_json_bad_json_witness :
  exists msg w', load_json ["c.json"] bad_json_world = (Err (JSONDecodeError msg), w').
Proof.
  destruct (load_json_bad_json ["c.json"] bad_json_world) as (msg & w' & H & _).
  - reflexivity.
  - apply not_elem_of_empty.
  - reflexivity.
  - exists msg, w'. exact H.
Defined.

(** C9, corrected: when the encoder rejects the value, [dump_json] and
    [dump_yaml] raise the encoder's own exception, unchanged, and make no
    OS call at all: no directory, no staging file, the files and the
    trace untouched.  msgspec raises a [TypeError] for an object of an
    unsupported type, which the code does not turn into an EncodeError. *)
Theorem encode_error_no_write yaml_encode c e w r w' :
  call_payload yaml_encode c = Err e ->
  run_call yaml_encode c w = (r, w') -> r = Err e /\ w' = w.
Proof.
  destruct c as [self data indent | self data | self mode encoding block]; cbn [run_call call_payload].
  - intros He. rewrite dump_json_eq, He. intros H. by injection H as <- <-.
  - intros He. rewrite dump_yaml_eq, He. intros H. by injection H as <- <-.
  - discriminate.
Qed.

Lemma encode_error_no_write_witness :
  snd (run_call (fun _ => Ok EmptyString) (CDumpJson ["o.json"] (PObj "object") 2) (w_init ∅ no_faults)) =
  w_init ∅ no_faults.
Proof.
  apply (encode_error_no_write (fun _ => Ok EmptyString) (CDumpJson ["o.json"] (PObj "object") 2)
    (TypeError "Encoding objects of type object is unsupported") (w_init ∅ no_faults)
    (fst (run_call (fun _ => Ok EmptyString) (CDumpJson ["o.json"] (PObj "object") 2) (w_init ∅ no_faults)))).
  - reflexivity.
  - vm_compute. reflexivity.
Defined.

(** C9, counterexample: a value holding an object of an unsupported type
    makes [dump_json] fail with a [TypeError], which is not the
    EncodeError kind. *)
Lemma unsupported_type_raises_type_error :
  fst (dump_json ["o.json"] (PList [PInt 1; PObj "object"]) 2 (w_init ∅ no_faults)) =
    Err (TypeError "Encoding objects of type object is unsupported") /\
  taxonomy_kind (TypeError "Encoding objects of type object is unsupported") = None.
Proof. vm_compute. split; reflexivity. Qed.

(** C10: for a binary mode (one containing [b]) and an explicit
    encoding, [atomic_write] raises [ValueError] before any OS call: the
    world, files, directories and trace included, is unchanged. *)
Theorem binary_mode_encoding_rejected self mode enc block w :
  has_char "b" mode = true ->
  atomic_write self mode (Some enc) block w =
    (Err (ValueError "encoding argument not supported in binary mode"), w).
Proof. intros Hb. unfold atomic_write. by rewrite Hb. Qed.

Lemma binary_mode_encoding_rejected_witness :
  atomic_write ["f.bin"] "wb" (Some "utf-8") [BWrite "x"] (w_init ∅ no_faults) =
    (Err (ValueError "encoding argument not supported in binary mode"), w_init ∅ no_faults).
Proof. apply binary_mode_encoding_rejected. reflexivity. Defined.

(** * Plain writes, appends, [touch_parents], [size], [copy] and [load_yaml]

    What the primitives do, then what the [File] methods built on them
    guarantee. *)

Lemma bind_inv {A B} (m : M A) (k : A -> M B) w r w' :
  bind m k w = (r, w') ->
  exists r1 w1, m w = (r1, w1) /\
    match r1 with Ok a => k a w1 = (r, w') | Err e => r = Err e /\ w' = w1 end.
Proof.
  unfold bind. destruct (m w) as [[a|e] w1]; intros H; eexists _, _; split; eauto.
  by injection H as <- <-.
Qed.

Lemma is_dir_mono w w' d : dirs w ⊆ dirs w' -> is_dir w d = true -> is_dir w' d = true.
Proof.
  unfold is_dir. intros Hs [H|H]%orb_true_iff; apply orb_true_iff; [left; exact H | right].
  apply bool_decide_eq_true in H. apply bool_decide_eq_true. set_solver.
Qed.

Lemma mkdir_parents_spec d w r w' :
  mkdir_parents d w = (r, w') ->
  files w' = files w /\ opened w' = opened w /\ faults w' = faults w /\ dirs w ⊆ dirs w' /\
  (forall q, q ∉ prefixes d -> q ∈ dirs w' -> q ∈ dirs w) /\
  match r with
  | Ok _ => Forall (fun q => files w !! q = None) (prefixes d) /\ forall q, q ∈ prefixes d -> q ∈ dirs w'
  | Err _ => dirs w' = dirs w
  end.
Proof.
  unfold mkdir_parents, os_call. intros H. repeat case_match; simplify_eq/=;
    (repeat split); try done; try (intros; set_solver).
  bd. apply Forall_forall. intros q Hq.
  destruct (files w !! q) eqn:E; [| done]. exfalso.
  match goal with H : existsb _ _ = false |- _ => rename H into Hex end.
  assert (existsb (fun q => bool_decide (q ∈ dom (files w))) (prefixes d) = true) as Hc; [| congruence].
  apply existsb_exists. exists q. split; [by apply list_elem_of_In |].
  apply bool_decide_eq_true. apply elem_of_dom. rewrite E. eauto.
Qed.

Lemma open_write_spec a p w r w' :
  open_write a p w = (r, w') ->
  dirs w' = dirs w /\ faults w' = faults w /\ opened w ⊆ opened w' /\
  match r with
  | Ok _ => files w' = <[p := if a then default "" (files w !! p) else ""]> (files w) /\
            p ∈ opened w' /\ is_dir w p = false
  | Err _ => files w' = files w
  end.
Proof.
  unfold open_write, os_call. intros H. repeat case_match; simplify_eq/=;
    (repeat split); try done; try set_solver.
Qed.

Lemma file_write_spec h s w r w' :
  file_write h s w = (r, w') ->
  dirs w' = dirs w /\ faults w' = faults w /\ opened w' = opened w /\
  match r with
  | Ok _ => files w' = <[h := default "" (files w !! h) +:+ s]> (files w)
  | Err _ => files w' = files w
  end.
Proof. unfold file_write, os_call. intros H. repeat case_match; simplify_eq/=; done. Qed.

Lemma file_close_spec h w r w' :
  file_close h w = (r, w') ->
  files w' = files w /\ dirs w' = dirs w /\ faults w' = faults w /\ opened w' = opened w ∖ {[h]}.
Proof.
  unfold file_close, os_call, ret. intros H. repeat case_match; simplify_eq/=; try done.
  repeat split; try done. bd. set_solver.
Qed.

(** [with open(p) as f: f.write(s)] on an open [p]. *)
Lemma with_write_spec h s w r w' :
  with_file h (file_write h s) w = (r, w') ->
  dirs w' = dirs w /\ faults w' = faults w /\
  match r with
  | Ok _ => files w' = <[h := default "" (files w !! h) +:+ s]> (files w)
  | Err _ => files w' = files w \/ files w' = <[h := default "" (files w !! h) +:+ s]> (files w)
  end.
Proof.
  unfold with_file. destruct (file_write h s w) as [r1 w1] eqn:E1.
  destruct (file_write_spec _ _ _ _ _ E1) as (Hd1 & Hf1 & _ & Hc1).
  destruct (file_close h w1) as [r2 w2] eqn:E2.
  destruct (file_close_spec _ _ _ _ E2) as (Hc2 & Hd2 & Hf2 & _).
  intros H. destruct r2; injection H as <- <-; (split; [congruence | split; [congruence |]]);
    rewrite Hc2; destruct r1; auto.
Qed.

(** The same through the text layer: it refuses a [str] that has no
    UTF-8 encoding, after the open, before anything is written. *)
Lemma with_text_write_spec h s w r w' :
  with_file h (text_write h s) w = (r, w') ->
  dirs w' = dirs w /\ faults w' = faults w /\
  match r with
  | Ok _ => files w' = <[h := default "" (files w !! h) +:+ s]> (files w) /\ utf8_valid s = true
  | Err _ => files w' = files w \/ files w' = <[h := default "" (files w !! h) +:+ s]> (files w)
  end.
Proof.
  unfold text_write. destruct (utf8_valid s) eqn:Hu.
  - intros H. destruct (with_write_spec _ _ _ _ _ H) as (Hd & Hf & Hc).
    split; [done | split; [done |]]. destruct r; auto.
  - unfold with_file, raise. destruct (file_close h w) as [r2 w2] eqn:E2.
    destruct (file_close_spec _ _ _ _ E2) as (Hc2 & Hd2 & Hf2 & _).
    intros H. destruct r2; injection H as <- <-; auto.
Qed.

Lemma write_text_spec p data w r w' :
  write_text p data w = (r, w') ->
  dirs w' = dirs w /\ faults w' = faults w /\
  match r with
  | Ok _ => files w' = <[p := data]> (files w) /\ is_dir w p = false /\ utf8_valid data = true
  | Err _ => files w' = files w \/ files w' = <[p := ""]> (files w) \/ files w' = <[p := data]> (files w)
  end.
Proof.
  unfold write_text. intros H. apply bind_inv in H as (r1 & w1 & E1 & H).
  destruct (open_write_spec _ _ _ _ _ E1) as (Hd1 & Hf1 & _ & Hc1).
  destruct r1 as [u|e]; [| destruct H as [-> ->]; auto].
  destruct Hc1 as (Hc1 & _ & Hdir).
  destruct (with_text_write_spec _ _ _ _ _ H) as (Hd2 & Hf2 & Hc2).
  rewrite Hc1, lookup_insert_eq in Hc2. cbn in Hc2. rewrite insert_insert_eq in Hc2.
  split; [congruence | split; [congruence |]]. destruct r; intuition.
Qed.

Lemma write_bytes_spec p data w r w' :
  write_bytes p data w = (r, w') ->
  dirs w' = dirs w /\ faults w' = faults w /\
  match r with
  | Ok _ => files w' = <[p := data]> (files w) /\ is_dir w p = false
  | Err _ => files w' = files w \/ files w' = <[p := ""]> (files w) \/ files w' = <[p := data]> (files w)
  end.
Proof.
  unfold write_bytes. intros H. apply bind_inv in H as (r1 & w1 & E1 & H).
  destruct (open_write_spec _ _ _ _ _ E1) as (Hd1 & Hf1 & _ & Hc1).
  destruct r1 as [u|e]; [| destruct H as [-> ->]; auto].
  destruct Hc1 as (Hc1 & _ & Hdir).
  destruct (with_write_spec _ _ _ _ _ H) as (Hd2 & Hf2 & Hc2).
  rewrite Hc1, lookup_insert_eq in Hc2. cbn in Hc2. rewrite insert_insert_eq in Hc2.
  split; [congruence | split; [congruence |]]. destruct r; intuition.
Qed.

Lemma write_text_async_spec self data w r w' :
  write_text_async self data w = (r, w') ->
  faults w' = faults w /\
  match r with
  | Ok _ => files w' = <[self := data]> (files w) /\ (self ∉ dirs w') /\
            Forall (fun q => files w !! q = None) (prefixes (parent self)) /\ utf8_valid data = true
  | Err _ => files w' = files w \/ files w' = <[self := ""]> (files w) \/ files w' = <[self := data]> (files w)
  end.
Proof.
  unfold write_text_async. intros H. apply bind_inv in H as (r1 & w1 & E1 & H).
  destruct (mkdir_parents_spec _ _ _ _ E1) as (Hc1 & _ & Hf1 & _ & _ & Hr1).
  destruct r1 as [u|e]; [| destruct H as [-> ->]; auto].
  destruct (write_text_spec _ _ _ _ _ H) as (Hd2 & Hf2 & Hc2).
  split; [congruence |]. rewrite Hc1 in Hc2. destruct r; [| exact Hc2].
  destruct Hc2 as (Hc2 & Hdir & Hu). split; [done | split; [| split; [apply Hr1 | exact Hu]]].
  rewrite Hd2. unfold is_dir in Hdir. apply orb_false_iff in Hdir as [_ Hdir]. bd. done.
Qed.

Lemma write_bytes_async_spec self data w r w' :
  write_bytes_async self data w = (r, w') ->
  faults w' = faults w /\
  match r with
  | Ok _ => files w' = <[self := data]> (files w) /\ (self ∉ dirs w') /\
            Forall (fun q => files w !! q = None) (prefixes (parent self))
  | Err _ => files w' = files w \/ files w' = <[self := ""]> (files w) \/ files w' = <[self := data]> (files w)
  end.
Proof.
  unfold write_bytes_async. intros H. apply bind_inv in H as (r1 & w1 & E1 & H).
  destruct (mkdir_parents_spec _ _ _ _ E1) as (Hc1 & _ & Hf1 & _ & _ & Hr1).
  destruct r1 as [u|e]; [| destruct H as [-> ->]; auto].
  destruct (write_bytes_spec _ _ _ _ _ H) as (Hd2 & Hf2 & Hc2).
  split; [congruence |]. rewrite Hc1 in Hc2. destruct r; [| exact Hc2].
  destruct Hc2 as (Hc2 & Hdir). split; [done | split; [| apply Hr1]].
  rewrite Hd2. unfold is_dir in Hdir. apply orb_false_iff in Hdir as [_ Hdir]. bd. done.
Qed.

Lemma translate_newlines_no_cr (s : string) :
  forallb (fun c => negb (bool_decide (nat_of_ascii c = 13))) (String.list_ascii_of_string s) = true ->
  translate_newlines s = s.
Proof.
  induction s as [|c s IH]; [done |]. cbn. intros [Hc Hs]%andb_prop.
  destruct (ascii_dec c cr) as [->|Hne]; [discriminate | by rewrite IH].
Qed.

Lemma read_bytes_ok p c w :
  faults w (tick w) = None -> p ∉ dirs w -> files w !! p = Some c -> fst (read_bytes p w) = Ok c.
Proof.
  intros Hf Hd Hc. unfold read_bytes, os_call. rewrite Hf.
  change (dirs (bump w)) with (dirs w). change (files (bump w)) with (files w).
  rewrite bool_decide_false by exact Hd. rewrite Hc. reflexivity.
Qed.

(** X1: after [write_text_async self data] or [write_bytes_async self
    data] succeeds, [self] holds exactly [data] and no other file has
    changed; [read_bytes_async] then returns [data], and after a text write
    of text without a carriage return so does [read_text_async], when the
    read meets no OS fault. *)
Theorem write_async_read_back self data w w1 :
  (write_text_async self data w = (Ok tt, w1) \/ write_bytes_async self data w = (Ok tt, w1)) ->
  files w1 = <[self := data]> (files w) /\
  (faults w1 (tick w1) = None -> fst (read_bytes_async self w1) = Ok data) /\
  (write_text_async self data w = (Ok tt, w1) ->
   forallb (fun c => negb (bool_decide (nat_of_ascii c = 13))) (String.list_ascii_of_string data) = true ->
   faults w1 (tick w1) = None -> fst (read_text_async self w1) = Ok data).
Proof.
  intros H. assert (Hw : files w1 = <[self := data]> (files w) /\ (self ∉ dirs w1)).
  { destruct H as [H|H].
    - destruct (write_text_async_spec _ _ _ _ _ H) as (_ & Hc & Hd & _). done.
    - destruct (write_bytes_async_spec _ _ _ _ _ H) as (_ & Hc & Hd & _). done. }
  destruct Hw as [Hc Hd].
  assert (Hr : faults w1 (tick w1) = None -> fst (read_bytes self w1) = Ok data)
    by (intros Hf; apply read_bytes_ok; [exact Hf | exact Hd | rewrite Hc; apply lookup_insert_eq]).
  split; [exact Hc | split; [exact Hr |]]. intros Ht Hcr Hf.
  destruct (write_text_async_spec _ _ _ _ _ Ht) as (_ & _ & _ & _ & Hu).
  unfold read_text_async, read_text, bind. specialize (Hr Hf).
  destruct (read_bytes self w1) as [r1 w2]. cbn in Hr. subst r1. cbn.
  unfold decode_text. by rewrite Hu, translate_newlines_no_cr.
Qed.

Lemma write_async_read_back_witness :
  let w1 := snd (write_text_async ["d"; "f.txt"] "hi" c1_world) in
  files w1 = <[["d"; "f.txt"] := "hi"]> (files c1_world) /\
  (faults w1 (tick w1) = None -> fst (read_bytes_async ["d"; "f.txt"] w1) = Ok "hi") /\
  fst (read_text_async ["d"; "f.txt"] w1) = Ok "hi".
Proof.
  intros w1.
  assert (E : fst (write_text_async ["d"; "f.txt"] "hi" c1_world) = Ok tt) by (vm_compute; reflexivity).
  assert (Hw : write_text_async ["d"; "f.txt"] "hi" c1_world = (Ok tt, w1))
    by (rewrite <- E; apply surjective_pairing).
  destruct (write_async_read_back ["d"; "f.txt"] "hi" c1_world w1 (or_introl Hw)) as (Hc & Hb & Ht).
  split; [exact Hc | split; [exact Hb |]].
  apply Ht; [exact Hw | reflexivity | vm_compute; reflexivity].
Defined.

Lemma open_write_dir a p w r w' :
  is_dir w p = true -> open_write a p w = (r, w') -> (exists e, r = Err e) /\ files w' = files w.
Proof.
  intros Hd H. destruct (open_write_spec _ _ _ _ _ H) as (_ & _ & _ & Hc).
  destruct r as [u|e]; [destruct Hc as (_ & _ & Hd'); congruence | eauto].
Qed.

(** X2: [write_text_async], [write_bytes_async] and [append_text] on a
    path that is a directory never succeed and change no file. *)
Theorem write_to_directory_fails self data w r w' :
  is_dir w self = true ->
  write_text_async self data w = (r, w') \/ write_bytes_async self data w = (r, w') \/
  append_text self data w = (r, w') ->
  r <> Ok tt /\ files w' = files w.
Proof.
  intros Hdir H.
  assert (Hgen : forall a (k : M unit), (mkdir_parents (parent self) ;;; (open_write a self ;;; k)) w = (r, w') ->
            r <> Ok tt /\ files w' = files w).
  { intros a k H1. apply bind_inv in H1 as (r1 & w1 & E1 & H1).
    destruct (mkdir_parents_spec _ _ _ _ E1) as (Hc1 & _ & _ & Hs1 & _).
    destruct r1 as [u|e]; [| destruct H1 as [-> ->]; split; [discriminate | done]].
    apply bind_inv in H1 as (r2 & w2 & E2 & H2).
    destruct (open_write_dir _ _ _ _ _ (is_dir_mono _ _ _ Hs1 Hdir) E2) as ([e ->] & Hc2).
    destruct H2 as [-> ->]. split; [discriminate | congruence]. }
  destruct H as [H|[H|H]]; exact (Hgen _ _ H).
Qed.

Lemma write_to_directory_fails_witness :
  fst (append_text ["data"] "x" dir_world) <> Ok tt /\
  files (snd (append_text ["data"] "x" dir_world)) = files dir_world.
Proof.
  apply (write_to_directory_fails ["data"] "x" dir_world).
  - vm_compute. reflexivity.
  - right. right. apply surjective_pairing.
Defined.

(** X4: a successful [append_text self text] leaves the old content of
    [self] (nothing if it did not exist) followed by [text], and changes
    no other file. *)
Theorem append_text_appends self text w w' :
  append_text self text w = (Ok tt, w') ->
  files w' = <[self := default "" (files w !! self) +:+ text]> (files w).
Proof.
  unfold append_text. intros H. apply bind_inv in H as (r1 & w1 & E1 & H).
  destruct (mkdir_parents_spec _ _ _ _ E1) as (Hc1 & _ & _ & _ & _ & _).
  destruct r1 as [u|e]; [| by destruct H].
  apply bind_inv in H as (r2 & w2 & E2 & H).
  destruct (open_write_spec _ _ _ _ _ E2) as (_ & _ & _ & Hc2).
  destruct r2 as [u2|e]; [| by destruct H].
  destruct Hc2 as (Hc2 & _ & _).
  destruct (with_text_write_spec _ _ _ _ _ H) as (_ & _ & [Hc3 _]).
  rewrite Hc3, Hc2, lookup_insert_eq, insert_insert_eq, Hc1. reflexivity.
Qed.

Lemma append_text_appends_witness :
  files (snd (append_text ["log.txt"] "b" (w_init {[ ["log.txt"] := "a" ]} no_faults))) =
  <[["log.txt"] := default "" (files (w_init {[ ["log.txt"] := "a" ]} no_faults) !! ["log.txt"]) +:+ "b"]>
    (files (w_init {[ ["log.txt"] := "a" ]} no_faults)).
Proof.
  apply (append_text_appends ["log.txt"] "b" (w_init {[ ["log.txt"] := "a" ]} no_faults)).
  assert (E : fst (append_text ["log.txt"] "b" (w_init {[ ["log.txt"] := "a" ]} no_faults)) = Ok tt)
    by (vm_compute; reflexivity).
  rewrite <- E. apply surjective_pairing.
Defined.

Lemma prefixes_length d q : q ∈ prefixes d -> length q <= length d.
Proof.
  revert q. induction d as [|c d IH]; intros q Hq; cbn in Hq; [by apply elem_of_nil in Hq |].
  apply elem_of_cons in Hq as [->|Hq]; cbn; [lia |].
  apply list_elem_of_In, in_map_iff in Hq as (q' & <- & Hq'%list_elem_of_In). cbn. specialize (IH _ Hq'). lia.
Qed.

Lemma not_in_prefixes_parent p : p ∉ prefixes (parent p).
Proof.
  destruct p as [|x xs _] using rev_ind; [cbn; apply not_elem_of_nil |].
  unfold parent. rewrite removelast_last. intros H%prefixes_length.
  rewrite length_app in H. cbn in H. lia.
Qed.

Lemma mkdir_parent_is_dir p w r w' :
  mkdir_parents (parent p) w = (r, w') -> is_dir w' p = is_dir w p.
Proof.
  intros H. destruct (mkdir_parents_spec _ _ _ _ H) as (_ & _ & _ & Hs & Hback & _).
  unfold is_dir. f_equal. apply bool_decide_ext. split; [| set_solver].
  apply Hback, not_in_prefixes_parent.
Qed.

(** [touch]: either [os.utime] found the path, or the open with
    [O_CREAT] made or kept the file, in a world with the same files and
    directories as before. *)
Lemma touch_cases p w w' :
  touch p w = (Ok tt, w') ->
  exists w1, files w1 = files w /\ dirs w1 = dirs w /\
  ((w' = w1 /\ (bool_decide (p ∈ dom (files w)) || is_dir w p) = true) \/
   (open_write true p ;;; file_close p) w1 = (Ok tt, w')).
Proof.
  unfold touch. intros H. apply bind_inv in H as (r1 & w1 & E1 & H).
  cbv [try_except os_setmeta os_call bind ret] in E1.
  destruct (faults w (tick w)) as [e|] eqn:Hf.
  - destruct (is_oserror e); injection E1 as <- <-; [| by destruct H].
    eexists _. split; [| split; [| right; exact H]]; reflexivity.
  - destruct (stat_result (bump w) p) as [q|e] eqn:Hs; cbn in E1.
    + injection E1 as <- <-. injection H as <-.
      eexists _. split; [| split; [| left; split; [reflexivity |]]]; [reflexivity | reflexivity |].
      revert Hs. unfold stat_result. cbn. unfold is_dir. cbn.
      destruct (bool_decide (p ∈ dom (files w)) || _) eqn:Hb; [done |].
      repeat case_match; discriminate.
    + destruct (is_oserror e); injection E1 as <- <-; [| by destruct H].
      eexists _. split; [| split; [| right; exact H]]; reflexivity.
Qed.

(** X6: after a successful [touch_parents], [self] exists as a file or a
    directory; an existing file or directory is left as it was, a missing
    path becomes an empty file, and no other file changes. *)
Theorem touch_parents_spec self w w' :
  touch_parents self w = (Ok tt, w') ->
  files w' = (if bool_decide (self ∈ dom (files w)) || is_dir w self
              then files w else <[self := ""]> (files w)) /\
  (self ∈ dom (files w') \/ is_dir w' self = true).
Proof.
  unfold touch_parents. intros H. apply bind_inv in H as (r1 & w1 & E1 & H).
  destruct (mkdir_parents_spec _ _ _ _ E1) as (Hc1 & _ & _ & _ & _ & _).
  pose proof (mkdir_parent_is_dir _ _ _ _ E1) as Hd1.
  destruct r1 as [u|e]; [| by destruct H].
  rewrite <- Hd1, <- Hc1.
  destruct (touch_cases _ _ _ H) as (w2 & Hc2 & Hd2 & [[-> Ec] | H2]).
  - rewrite Ec, Hc2. split; [done |]. unfold is_dir in *. rewrite Hd2.
    apply orb_true_iff in Ec as [Ec|Ec]; [left; by apply bool_decide_eq_true in Ec | right; exact Ec].
  - apply bind_inv in H2 as (r3 & w3 & E3 & H3).
    destruct (open_write_spec _ _ _ _ _ E3) as (_ & _ & _ & Hc3).
    destruct r3 as [u3|e]; [| by destruct H3].
    destruct Hc3 as (Hc3 & _ & Hdir3).
    destruct (file_close_spec _ _ _ _ H3) as (Hc4 & _ & _ & _).
    assert (Hdir : is_dir w1 self = false) by (unfold is_dir in *; by rewrite <- Hd2).
    rewrite Hc4, Hc3, Hc2, Hdir, orb_false_r.
    case_bool_decide as Hin.
    + apply elem_of_dom in Hin as [c Hc]. rewrite Hc. cbn. rewrite insert_id by done.
      split; [done |]. left. apply elem_of_dom. eauto.
    + rewrite (not_elem_of_dom_1 _ _ Hin). cbn. split; [done |]. left. rewrite dom_insert. set_solver.
Qed.

Lemma touch_parents_spec_witness :
  let w' := snd (touch_parents ["n"; "f"] (w_init ∅ no_faults)) in
  files w' = (if bool_decide (["n"; "f"] ∈ dom (files (w_init ∅ no_faults))) || is_dir (w_init ∅ no_faults) ["n"; "f"]
              then files (w_init ∅ no_faults) else <[["n"; "f"] := ""]> (files (w_init ∅ no_faults))) /\
  (["n"; "f"] ∈ dom (files w') \/ is_dir w' ["n"; "f"] = true).
Proof.
  intros w'. apply (touch_parents_spec ["n"; "f"] (w_init ∅ no_faults) w').
  assert (E : fst (touch_parents ["n"; "f"] (w_init ∅ no_faults)) = Ok tt) by (vm_compute; reflexivity).
  rewrite <- E. apply surjective_pairing.
Defined.

Lemma existsb_dom_none (m : gmap path string) l :
  Forall (fun q => m !! q = None) l -> existsb (fun q => bool_decide (q ∈ dom m)) l = false.
Proof.
  induction 1 as [|q l Hq _ IH]; [done |]. cbn. rewrite IH, orb_false_r.
  apply bool_decide_eq_false. by apply not_elem_of_dom.
Qed.

Lemma prefixes_parent_insert (m : gmap path string) self v :
  Forall (fun q => m !! q = None) (prefixes (parent self)) ->
  Forall (fun q => (<[self := v]> m) !! q = None) (prefixes (parent self)).
Proof.
  intros H. apply Forall_forall. intros q Hq. rewrite lookup_insert_ne.
  - by apply (proj1 (Forall_forall _ _) H).
  - intros Heq. apply (not_in_prefixes_parent self). rewrite Heq at 1. exact Hq.
Qed.

Lemma append_text_ok self text w w' :
  append_text self text w = (Ok tt, w') ->
  files w' = <[self := default "" (files w !! self) +:+ text]> (files w) /\
  Forall (fun q => files w !! q = None) (prefixes (parent self)).
Proof.
  unfold append_text. intros H. apply bind_inv in H as (r1 & w1 & E1 & H).
  destruct (mkdir_parents_spec _ _ _ _ E1) as (Hc1 & _ & _ & _ & _ & Hr1).
  destruct r1 as [u|e]; [| by destruct H].
  apply bind_inv in H as (r2 & w2 & E2 & H).
  destruct (open_write_spec _ _ _ _ _ E2) as (_ & _ & _ & Hc2).
  destruct r2 as [u2|e]; [| by destruct H].
  destruct Hc2 as (Hc2 & _ & _).
  destruct (with_text_write_spec _ _ _ _ _ H) as (_ & _ & [Hc3 _]).
  split; [| apply Hr1].
  rewrite Hc3, Hc2, lookup_insert_eq, insert_insert_eq, Hc1. reflexivity.
Qed.

Lemma size_file dsz self w c :
  faults w (tick w) = None -> files w !! self = Some c -> fst (size dsz self w) = Ok (String.length c).
Proof.
  intros Hf Hc. cbv [size os_stat os_call bind]. rewrite Hf.
  unfold stat_result. cbn. rewrite bool_decide_true by (apply elem_of_dom; eauto). cbn.
  by rewrite Hc.
Qed.

(** X7: [size] after a successful [write_text_async self data] is the
    byte length of [data], and after a successful [append_text self data]
    the old length plus the length of [data], when its [os.stat] meets no
    OS fault. *)
Theorem size_after_write dsz self data w w1 :
  (write_text_async self data w = (Ok tt, w1) -> faults w1 (tick w1) = None ->
   fst (size dsz self w1) = Ok (String.length data)) /\
  (append_text self data w = (Ok tt, w1) -> faults w1 (tick w1) = None ->
   fst (size dsz self w1) = Ok (String.length (default "" (files w !! self)) + String.length data)).
Proof.
  split; intros H Hf.
  - destruct (write_text_async_spec _ _ _ _ _ H) as (_ & Hc & _).
    apply size_file; [exact Hf |]. rewrite Hc. apply lookup_insert_eq.
  - destruct (append_text_ok _ _ _ _ H) as (Hc & _).
    rewrite <- string_length_app. apply size_file; [exact Hf |]. rewrite Hc. apply lookup_insert_eq.
Qed.

Lemma size_after_write_witness :
  fst (size (fun _ => 4096) ["d"; "f.txt"] (snd (write_text_async ["d"; "f.txt"] "hello" c1_world))) =
    Ok (String.length "hello") /\
  fst (size (fun _ => 4096) ["d"; "f.txt"] (snd (append_text ["d"; "f.txt"] "!" c1_world))) =
    Ok (String.length (default "" (files c1_world !! ["d"; "f.txt"])) + String.length "!").
Proof.
  split.
  - apply (proj1 (size_after_write (fun _ => 4096) ["d"; "f.txt"] "hello" c1_world
                    (snd (write_text_async ["d"; "f.txt"] "hello" c1_world)))).
    + assert (E : fst (write_text_async ["d"; "f.txt"] "hello" c1_world) = Ok tt) by (vm_compute; reflexivity).
      rewrite <- E. apply surjective_pairing.
    + vm_compute. reflexivity.
  - apply (proj2 (size_after_write (fun _ => 4096) ["d"; "f.txt"] "!" c1_world
                    (snd (append_text ["d"; "f.txt"] "!" c1_world)))).
    + assert (E : fst (append_text ["d"; "f.txt"] "!" c1_world) = Ok tt) by (vm_compute; reflexivity).
      rewrite <- E. apply surjective_pairing.
    + vm_compute. reflexivity.
Defined.

Lemma mkdir_parents_ok d w :
  faults w (tick w) = None -> Forall (fun q => files w !! q = None) (prefixes d) ->
  fst (mkdir_parents d w) = Ok tt.
Proof.
  intros Hf Hp. unfold mkdir_parents, os_call. rewrite Hf.
  change (files (bump w)) with (files w). rewrite existsb_dom_none by exact Hp. reflexivity.
Qed.

Lemma open_read_spec p w r w' :
  open_read p w = (r, w') ->
  files w' = files w /\ dirs w' = dirs w /\ faults w' = faults w /\ tick w' = S (tick w) /\
  match r with
  | Ok _ => faults w (tick w) = None /\ (p ∉ dirs w) /\ is_Some (files w !! p)
  | Err e => faults w (tick w) = Some e \/
             (faults w (tick w) = None /\
              ((p ∈ dirs w /\ e = OSError EISDIR) \/
               ((p ∉ dirs w) /\ files w !! p = None /\
                e = OSError (if existsb (fun q => bool_decide (q ∈ dom (files w))) (prefixes (parent p))
                             then ENOTDIR else ENOENT))))
  end.
Proof.
  unfold open_read, os_call. intros H. destruct (faults w (tick w)) eqn:Ef.
  - simplify_eq/=. auto 10.
  - change (dirs (bump w)) with (dirs w) in H. change (files (bump w)) with (files w) in H.
    destruct (bool_decide (p ∈ dirs w)) eqn:Ed; bd.
    + simplify_eq/=. auto 10.
    + destruct (files w !! p) eqn:Ec; [simplify_eq/=; eauto 10 |].
      destruct (existsb _ _); simplify_eq/=; eauto 10.
Qed.

Lemma try_except_inv {A} c (m : M A) h w r w' :
  try_except c m h w = (r, w') ->
  m w = (r, w') \/ exists e w1, m w = (Err e, w1) /\ c e = true /\ h e w1 = (r, w').
Proof.
  unfold try_except. destruct (m w) as [[a|e] w1]; intros H; [by left |].
  destruct (c e) eqn:Ec; [right; eauto 6 | by left].
Qed.

(** The queries of [copy] ([os.stat] and the calls built on it, the
    named-pipe checks, the metadata calls, the open of the source and
    its close) change neither the files nor the directories, and no call
    changes the faults to come. *)
Definition same_fd (w w' : world) : Prop :=
  files w' = files w /\ dirs w' = dirs w /\ faults w' = faults w.

#[export] Instance same_fd_preorder : PreOrder same_fd.
Proof.
  split; [intros w; done | intros w1 w2 w3 (H1 & H2 & H3) (H4 & H5 & H6); split; [| split]; congruence].
Qed.

Lemma preserves_os_call_same {A} o (f : M A) :
  (forall w r w', f w = (r, w') -> same_fd w w') -> preserves same_fd (os_call o f).
Proof.
  intros Hf w r w' H. unfold os_call in H. destruct (faults w (tick w)).
  - injection H as <- <-. done.
  - destruct (f (bump w)) as [r2 w2] eqn:E. injection H as <- <-.
    destruct (Hf _ _ _ E) as (H1 & H2 & H3). split; [| split]; cbn; [exact H1 | exact H2 | exact H3].
Qed.

Ltac same_tac :=
  repeat first
    [ apply preserves_os_call_same; intros ? ? ? ?; repeat case_match; simplify_eq/=; done
    | apply preserves_bind; [apply _ | | intros ?]
    | apply preserves_try_except; [apply _ | | intros ?]
    | apply preserves_ret; apply _
    | apply preserves_raise; apply _
    | intros ? ? ? ?; simplify_eq/=; done
    | case_match ].

Lemma os_stat_same p : preserves same_fd (os_stat p).
Proof. unfold os_stat. same_tac. Qed.

Lemma os_setmeta_same p : preserves same_fd (os_setmeta p).
Proof. unfold os_setmeta. same_tac. Qed.

Lemma os_path_exists_same p : preserves same_fd (os_path_exists p).
Proof. unfold os_path_exists, os_stat. same_tac. Qed.

Lemma samefile_same src dst : preserves same_fd (_samefile src dst).
Proof. unfold _samefile, os_stat. same_tac. Qed.

Lemma os_path_isdir_same p : preserves same_fd (os_path_isdir p).
Proof. unfold os_path_isdir, os_stat. same_tac. Qed.

Lemma fifo_check_same p : preserves same_fd (fifo_check p).
Proof. unfold fifo_check, os_stat. same_tac. Qed.

Lemma copystat_same src dst : preserves same_fd (copystat src dst).
Proof. unfold copystat, os_stat, os_setmeta, os_listxattr. same_tac. Qed.

Lemma copymode_same src dst : preserves same_fd (copymode src dst).
Proof. unfold copymode, os_stat, os_setmeta. same_tac. Qed.

Lemma os_path_isdir_true p w w' :
  os_path_isdir p w = (Ok true, w') -> is_dir w p = true.
Proof.
  cbv [os_path_isdir try_except bind os_stat os_call ret]. intros H.
  repeat case_match; simplify_eq/=; done.
Qed.

Lemma with_read_ok {A} h (body : M A) w (a : A) w' :
  with_read h body w = (Ok a, w') ->
  exists w1, body w = (Ok a, w1) /\ same_fd w1 w'.
Proof.
  unfold with_read. destruct (body w) as [r1 w1] eqn:E.
  destruct (os_call (OpClose h) (ret tt) w1) as [[u|e] w2] eqn:E2; [| discriminate].
  intros H. injection H as -> <-. exists w1. split; [done |].
  revert E2. apply preserves_os_call_same. unfold ret. intros ? ? ? Hr. by injection Hr as <- <-.
Qed.

(** A successful [copyfile src dst]: [src] was an existing file, [dst]
    is not a directory, and [dst] now holds what [fsrc] read, [src]'s
    content after the open of [dst] truncated it, which is the empty
    string when [dst] is [src]. *)
Lemma copyfile_ok SF src dst w w' :
  copyfile SF src dst w = (Ok tt, w') ->
  exists c, files w !! src = Some c /\ (src ∉ dirs w) /\ is_dir w dst = false /\ dirs w' = dirs w /\
    files w' = <[dst := if bool_decide (dst = src) then "" else c]> (files w).
Proof.
  unfold copyfile. intros H. apply bind_inv in H as (r1 & w1 & E1 & H).
  destruct (samefile_same _ _ _ _ _ E1) as (Hc1 & Hd1 & _).
  destruct r1 as [[]|e]; [discriminate | | by destruct H].
  apply bind_inv in H as (r2 & w2 & E2 & H). destruct (fifo_check_same _ _ _ _ E2) as (Hc2 & Hd2 & _).
  destruct r2 as [u2|e]; [| by destruct H].
  apply bind_inv in H as (r3 & w3 & E3 & H). destruct (fifo_check_same _ _ _ _ E3) as (Hc3 & Hd3 & _).
  destruct r3 as [u3|e]; [| by destruct H].
  apply bind_inv in H as (r4 & w4 & E4 & H).
  destruct (open_read_spec _ _ _ _ E4) as (Hc4 & Hd4 & _ & _ & Hr4).
  destruct r4 as [u4|e]; [| by destruct H]. destruct Hr4 as (_ & Hnd & [c Hsrc]).
  apply with_read_ok in H as (w5 & H & (Hc5 & Hd5 & _)).
  apply try_except_inv in H as [H | (e & w6 & _ & _ & H)].
  2: { apply bind_inv in H as (r7 & w7 & _ & H). destruct r7 as [[|]|]; [unfold raise in H; discriminate.. | by destruct H]. }
  apply bind_inv in H as (r6 & w6 & E6 & H).
  destruct (open_write_spec _ _ _ _ _ E6) as (Hd6 & _ & _ & Hc6).
  destruct r6 as [u6|e]; [| by destruct H]. destruct Hc6 as (Hc6 & _ & Hdir6).
  unfold with_file in H. destruct (file_write dst _ w6) as [r7 w7] eqn:E7.
  destruct (file_write_spec _ _ _ _ _ E7) as (Hd7 & _ & _ & Hc7).
  destruct (file_close dst w7) as [r8 w8] eqn:E8.
  destruct (file_close_spec _ _ _ _ E8) as (Hc8 & Hd8 & _).
  destruct r8; [| discriminate]. destruct r7 as [u7|e]; [| discriminate]. injection H; intros; subst.
  assert (Hf3 : files w3 = files w) by congruence.
  assert (Hdd3 : dirs w3 = dirs w) by congruence.
  exists c. rewrite <- Hf3, <- Hdd3. split; [done | split; [done | split; [| split]]].
  - unfold is_dir in Hdir6 |- *. by rewrite <- Hdd3, <- Hd4.
  - congruence.
  - rewrite Hc5, Hc8, Hc7, Hc6, lookup_insert_eq. cbn. rewrite insert_insert_eq.
    rewrite <- Hc4. f_equal. destruct (decide (dst = src)) as [->|Hne].
    + rewrite lookup_insert_eq, bool_decide_true by done. reflexivity.
    + rewrite lookup_insert_ne, bool_decide_false, Hc4, Hsrc by done. reflexivity.
Qed.

Lemma shutil_copy_ok SF (meta : path -> path -> M unit) src dst w a w' :
  (forall s d, preserves same_fd (meta s d)) ->
  (isd <- os_path_isdir dst ;;
   let dst' := if isd then (dst ++ [name src])%list else dst in
   copyfile SF src dst' ;;; meta src dst' ;;; ret dst') w = (Ok a, w') ->
  a = (if is_dir w dst then (dst ++ [name src])%list else dst) /\
  exists c, files w !! src = Some c /\ (src ∉ dirs w) /\
    files w' = <[a := if bool_decide (a = src) then "" else c]> (files w).
Proof.
  intros Hm H. apply bind_inv in H as (r1 & w1 & E1 & H).
  destruct (os_path_isdir_same _ _ _ _ E1) as (Hc1 & Hd1 & _).
  destruct r1 as [isd|e]; [| by destruct H].
  apply bind_inv in H as (r2 & w2 & E2 & H).
  destruct r2 as [[]|e]; [| by destruct H].
  destruct (copyfile_ok _ _ _ _ _ E2) as (c & Hsrc & Hnd & Hdir & Hd2 & Hc2).
  apply bind_inv in H as (r3 & w3 & E3 & H). destruct (Hm _ _ _ _ _ E3) as (Hc3 & _).
  destruct r3 as [u3|e]; [| by destruct H]. injection H as <- <-.
  assert (Ha : (if isd then (dst ++ [name src])%list else dst) =
               (if is_dir w dst then (dst ++ [name src])%list else dst)).
  { destruct isd; [by rewrite (os_path_isdir_true _ _ _ E1) |].
    unfold is_dir in Hdir |- *. rewrite Hd1 in Hdir. by rewrite Hdir. }
  split; [exact Ha |]. exists c. rewrite <- Hc1, <- Hd1. split; [done | split; [done |]].
  by rewrite Hc3, Hc2.
Qed.

(** X8: a successful [copy self target] returns [target]; [self] was an
    existing regular file, and the destination, [target] or [target /
    self.name] when [target] is a directory, now holds its content, with
    no other file changed.  When the destination is [self] itself, which
    passes shutil's same-file test only if one of its [os.stat] calls
    fails, the open of the destination truncates [self], and it is left
    empty. *)
Theorem copy_ok SF self target pm w r w' :
  copy SF self target pm w = (Ok r, w') ->
  r = target /\
  exists c, files w !! self = Some c /\ (self ∉ dirs w) /\
    let dst := if is_dir w target then (target ++ [name self])%list else target in
    files w' = <[dst := if bool_decide (dst = self) then "" else c]> (files w).
Proof.
  unfold copy. intros H. apply bind_inv in H as (r1 & w1 & E1 & H).
  destruct (mkdir_parents_spec _ _ _ _ E1) as (Hc1 & _ & _ & Hs1 & _).
  pose proof (mkdir_parent_is_dir _ _ _ _ E1) as Hd1.
  destruct r1 as [u|e]; [| by destruct H].
  apply bind_inv in H as (r2 & w2 & E2 & H).
  destruct r2 as [a|e]; [| by destruct H]. injection H as <- <-. split; [done |].
  assert (Hs : a = (if is_dir w1 target then (target ++ [name self])%list else target) /\
               exists c, files w1 !! self = Some c /\ (self ∉ dirs w1) /\
                 files w2 = <[a := if bool_decide (a = self) then "" else c]> (files w1)).
  { destruct pm; (eapply shutil_copy_ok; [| exact E2]); [apply copystat_same | apply copymode_same]. }
  rewrite Hd1 in Hs. destruct Hs as (-> & c & Hsrc & Hnd & Hc2).
  exists c. rewrite <- Hc1. split; [done | split; [set_solver | exact Hc2]].
Qed.

Lemma copy_ok_witness :
  ["b"; "c.txt"] = ["b"; "c.txt"] /\
  exists c, files (w_init {[ ["a.txt"] := "A" ]} no_faults) !! ["a.txt"] = Some c /\
    (["a.txt"] ∉ dirs (w_init {[ ["a.txt"] := "A" ]} no_faults)) /\
    let dst := if is_dir (w_init {[ ["a.txt"] := "A" ]} no_faults) ["b"; "c.txt"]
               then (["b"; "c.txt"] ++ [name ["a.txt"]])%list else ["b"; "c.txt"] in
    files (snd (copy (fun _ _ => ValueError "same file") ["a.txt"] ["b"; "c.txt"] true
                  (w_init {[ ["a.txt"] := "A" ]} no_faults))) =
    <[dst := if bool_decide (dst = ["a.txt"]) then "" else c]> (files (w_init {[ ["a.txt"] := "A" ]} no_faults)).
Proof.
  apply (copy_ok (fun _ _ => ValueError "same file") ["a.txt"] ["b"; "c.txt"] true
           (w_init {[ ["a.txt"] := "A" ]} no_faults)).
  assert (E : fst (copy (fun _ _ => ValueError "same file") ["a.txt"] ["b"; "c.txt"] true
                    (w_init {[ ["a.txt"] := "A" ]} no_faults)) = Ok ["b"; "c.txt"])
    by (vm_compute; reflexivity).
  rewrite <- E. apply surjective_pairing.
Defined.

Lemma os_path_isdir_nf p w :
  faults w (tick w) = None -> exists w', os_path_isdir p w = (Ok (is_dir w p), w') /\ same_fd w w'.
Proof.
  intros Hf. destruct (os_path_isdir p w) as [r w'] eqn:E.
  exists w'. split; [| exact (os_path_isdir_same _ _ _ _ E)]. revert E.
  cbv [os_path_isdir try_except bind os_stat os_call ret stat_result bump log is_dir]. rewrite Hf. cbn.
  destruct (bool_decide (p ∈ dom (files w)) || (bool_decide (p = []) || bool_decide (p ∈ dirs w))) eqn:Hb.
  - cbn. intros H. by injection H as <- _.
  - apply orb_false_iff in Hb as [_ Hb]. rewrite Hb.
    destruct (existsb _ _); cbn; intros H; by injection H as <- _.
Qed.

Lemma samefile_nf src dst w :
  faults w (tick w) = None -> faults w (S (tick w)) = None ->
  exists w', _samefile src dst w =
    (Ok (bool_decide (src = dst) && (bool_decide (src ∈ dom (files w)) || is_dir w src) &&
         (bool_decide (dst ∈ dom (files w)) || is_dir w dst)), w') /\ same_fd w w'.
Proof.
  intros Hf1 Hf2. destruct (_samefile src dst w) as [r w'] eqn:E.
  exists w'. split; [| exact (samefile_same _ _ _ _ _ E)]. revert E.
  cbv [_samefile try_except bind os_stat os_call ret stat_result bump log is_dir]. rewrite Hf1. cbn. rewrite Hf2. cbn.
  destruct (bool_decide (src ∈ dom (files w)) || (bool_decide (src = []) || bool_decide (src ∈ dirs w))) eqn:Hs;
  [destruct (bool_decide (dst ∈ dom (files w)) || (bool_decide (dst = []) || bool_decide (dst ∈ dirs w))) eqn:Hd |].
  all: intros Er; repeat case_match; simplify_eq/=; by rewrite ?andb_true_r, ?andb_false_r.
Qed.

Lemma bind_ok {A B} (m : M A) (k : A -> M B) w a w1 :
  m w = (Ok a, w1) -> bind m k w = k a w1.
Proof. intros E. unfold bind. by rewrite E. Qed.

Lemma bind_err {A B} (m : M A) (k : A -> M B) w e w1 :
  m w = (Err e, w1) -> bind m k w = (Err e, w1).
Proof. intros E. unfold bind. by rewrite E. Qed.

Lemma shutil_copy_samefile SF (meta : path -> path -> M unit) src dst w :
  (forall n, faults w n = None) -> src ∈ dom (files w) ->
  (if is_dir w dst then (dst ++ [name src])%list else dst) = src ->
  exists w', (isd <- os_path_isdir dst ;;
              let dst' := if isd then (dst ++ [name src])%list else dst in
              copyfile SF src dst' ;;; meta src dst' ;;; ret dst') w = (Err (SF src src), w') /\
             files w' = files w.
Proof.
  intros Hf Hs Hdst.
  destruct (os_path_isdir_nf dst w (Hf _)) as (w1 & E1 & (Hc1 & Hd1 & Hf1)).
  rewrite (bind_ok _ _ _ _ _ E1). cbv zeta. rewrite Hdst.
  assert (Hf1' : forall n, faults w1 n = None) by (intros n; by rewrite Hf1).
  destruct (samefile_nf src src w1 (Hf1' _) (Hf1' _)) as (w2 & E2 & (Hc2 & _)).
  rewrite Hc1, bool_decide_true, (bool_decide_eq_true_2 _ Hs) in E2 by done. cbn in E2.
  assert (E3 : copyfile SF src src w1 = (Err (SF src src), w2))
    by (unfold copyfile; rewrite (bind_ok _ _ _ _ _ E2); reflexivity).
  exists w2. rewrite (bind_err _ _ _ _ _ E3). split; [reflexivity | congruence].
Qed.

(** X9: with no OS fault, when the destination of [copy] ([target], or
    [target / self.name] for a directory [target]) is the existing file
    [self] itself, [copy] raises the same-file error and changes no file,
    provided the target's parent directories can be created. *)
Theorem copy_same_file SF self target pm w :
  (forall n, faults w n = None) ->
  Forall (fun q => files w !! q = None) (prefixes (parent target)) ->
  self ∈ dom (files w) ->
  (if is_dir w target then (target ++ [name self])%list else target) = self ->
  fst (copy SF self target pm w) = Err (SF self self) /\ files (snd (copy SF self target pm w)) = files w.
Proof.
  intros Hf Hp Hs Hdst.
  destruct (mkdir_parents (parent target) w) as [r1 w1] eqn:E1.
  pose proof (mkdir_parents_ok _ _ (Hf _) Hp) as Hok. rewrite E1 in Hok. cbn in Hok. subst r1.
  destruct (mkdir_parents_spec _ _ _ _ E1) as (Hc1 & _ & Hf1 & _).
  pose proof (mkdir_parent_is_dir _ _ _ _ E1) as Hd1.
  assert (Hf1' : forall n, faults w1 n = None) by (intros n; by rewrite Hf1).
  rewrite <- Hd1, <- Hc1 in *.
  assert (Hc : exists w2, (if pm then shutil_copy2 SF self target else shutil_copy SF self target) w1 =
                          (Err (SF self self), w2) /\ files w2 = files w1)
    by (destruct pm; by apply shutil_copy_samefile).
  destruct Hc as (w2 & E2 & Hc2).
  unfold copy. rewrite (bind_ok _ _ _ _ _ E1), (bind_err _ _ _ _ _ E2). split; [reflexivity | exact Hc2].
Qed.

Lemma copy_same_file_witness :
  let w := set_dirs {[ ["d"] ]} (w_init {[ ["d"; "a.txt"] := "A" ]} no_faults) in
  fst (copy (fun _ _ => ValueError "same file") ["d"; "a.txt"] ["d"] true w) =
    Err (ValueError "same file") /\
  files (snd (copy (fun _ _ => ValueError "same file") ["d"; "a.txt"] ["d"] true w)) = files w.
Proof.
  intros w. apply (copy_same_file (fun _ _ => ValueError "same file") ["d"; "a.txt"] ["d"] true w).
  - intros n. reflexivity.
  - constructor.
  - apply (bool_decide_unpack _). vm_compute. exact I.
  - vm_compute. reflexivity.
Defined.

Lemma fifo_check_nf p w :
  faults w (tick w) = None -> exists w', fifo_check p w = (Ok tt, w') /\ same_fd w w'.
Proof.
  intros Hf. destruct (fifo_check p w) as [r w'] eqn:E.
  exists w'. split; [| exact (fifo_check_same _ _ _ _ E)]. revert E.
  cbv [fifo_check try_except bind os_stat os_call ret stat_result]. rewrite Hf.
  intros Er; repeat case_match; simplify_eq/=; done.
Qed.

Lemma shutil_copy_missing SF (meta : path -> path -> M unit) src dst w :
  (forall n, faults w n = None) ->
  files w !! src = None -> src <> [] ->
  Forall (fun q => files w !! q = None) (prefixes (parent src)) ->
  (src ∈ dirs w -> src <> (if is_dir w dst then (dst ++ [name src])%list else dst)) ->
  exists w', (isd <- os_path_isdir dst ;;
              let dst' := if isd then (dst ++ [name src])%list else dst in
              copyfile SF src dst' ;;; meta src dst' ;;; ret dst') w =
             (Err (OSError (if bool_decide (src ∈ dirs w) then EISDIR else ENOENT)), w') /\
             files w' = files w.
Proof.
  intros Hf Hs Hnil Hp Hdst.
  destruct (os_path_isdir_nf dst w (Hf _)) as (w1 & E1 & (Hc1 & Hd1 & Hf1)).
  rewrite (bind_ok _ _ _ _ _ E1). cbv zeta.
  set (dst' := if is_dir w dst then (dst ++ [name src])%list else dst) in *.
  assert (Hf1' : forall n, faults w1 n = None) by (intros n; by rewrite Hf1).
  destruct (samefile_nf src dst' w1 (Hf1' _) (Hf1' _)) as (w2 & E2 & (Hc2 & Hd2 & Hf2)).
  assert (Hsame : bool_decide (src = dst') && (bool_decide (src ∈ dom (files w1)) || is_dir w1 src) = false).
  { apply andb_false_iff. destruct (decide (src ∈ dirs w)) as [Hin|Hin].
    - left. apply bool_decide_eq_false. by apply Hdst.
    - right. rewrite Hc1. apply orb_false_iff. split; [by apply bool_decide_eq_false, not_elem_of_dom |].
      unfold is_dir. rewrite Hd1. apply orb_false_iff. split; apply bool_decide_eq_false; done. }
  rewrite Hsame in E2. cbn in E2.
  assert (Hf2' : forall n, faults w2 n = None) by (intros n; by rewrite Hf2).
  destruct (fifo_check_nf src w2 (Hf2' _)) as (w3 & E3 & (Hc3 & Hd3 & Hf3)).
  assert (Hf3' : forall n, faults w3 n = None) by (intros n; by rewrite Hf3).
  destruct (fifo_check_nf dst' w3 (Hf3' _)) as (w4 & E4 & (Hc4 & Hd4 & Hf4)).
  destruct (open_read src w4) as [r5 w5] eqn:E5.
  destruct (open_read_spec _ _ _ _ E5) as (Hc5 & Hd5 & _ & _ & Hr5).
  assert (Hc4w : files w4 = files w) by congruence.
  assert (Hd4w : dirs w4 = dirs w) by congruence.
  destruct r5 as [u|e].
  { destruct Hr5 as (_ & _ & Hr5). rewrite Hc4w, Hs in Hr5. by destruct Hr5. }
  rewrite Hf4, Hf3, Hf2, Hf1, Hf in Hr5.
  destruct Hr5 as [Hr5 | (_ & Hr5)]; [discriminate |].
  assert (E6 : copyfile SF src dst' w1 = (Err e, w5)).
  { unfold copyfile. rewrite (bind_ok _ _ _ _ _ E2). cbv iota.
    rewrite (bind_ok _ _ _ _ _ E3), (bind_ok _ _ _ _ _ E4), (bind_err _ _ _ _ _ E5). reflexivity. }
  exists w5. rewrite (bind_err _ _ _ _ _ E6). split; [| congruence].
  rewrite Hd4w, Hc4w in Hr5. destruct Hr5 as [[Hin ->] | (Hin & _ & ->)].
  - by rewrite bool_decide_true.
  - by rewrite bool_decide_false, existsb_dom_none.
Qed.

Lemma prefix_parent_not_dst self target (b : bool) :
  self ∈ prefixes (parent target) -> self <> (if b then (target ++ [name self])%list else target).
Proof.
  intros Hq Heq. destruct target as [|x xs _] using rev_ind; [by apply not_elem_of_nil in Hq |].
  apply prefixes_length in Hq. unfold parent in Hq. rewrite removelast_last in Hq.
  rewrite Heq in Hq. destruct b; rewrite ?length_app in Hq; cbn in Hq; lia.
Qed.

(** X10: with no OS fault, when no ancestor of [target] or of [self] is
    a regular file, [copy] of a missing [self] (not a file, not a
    directory) changes no file and fails with [FileNotFoundError],
    except when [self] is [target]'s parent directory or one of its
    ancestors: [copy] creates that directory first, and opening the
    source then fails with [IsADirectoryError]. *)
Theorem copy_missing_source SF self target pm w :
  (forall n, faults w n = None) ->
  Forall (fun q => files w !! q = None) (prefixes (parent target)) ->
  Forall (fun q => files w !! q = None) (prefixes (parent self)) ->
  files w !! self = None -> is_dir w self = false ->
  fst (copy SF self target pm w) =
    Err (OSError (if bool_decide (self ∈ prefixes (parent target)) then EISDIR else ENOENT)) /\
  files (snd (copy SF self target pm w)) = files w.
Proof.
  intros Hf Hp Hps Hs Hsd.
  destruct (mkdir_parents (parent target) w) as [r1 w1] eqn:E1.
  pose proof (mkdir_parents_ok _ _ (Hf _) Hp) as Hok. rewrite E1 in Hok. cbn in Hok. subst r1.
  destruct (mkdir_parents_spec _ _ _ _ E1) as (Hc1 & _ & Hf1 & Hs1 & Hback & _ & Hin1).
  pose proof (mkdir_parent_is_dir _ _ _ _ E1) as Hd1.
  unfold is_dir in Hsd. apply orb_false_iff in Hsd as [Hnil Hsd].
  apply bool_decide_eq_false in Hnil, Hsd.
  assert (Hsd1 : self ∈ dirs w1 <-> self ∈ prefixes (parent target)).
  { split; [| apply Hin1].
    intros Hx. destruct (decide (self ∈ prefixes (parent target))) as [?|Hn]; [done |].
    exfalso. apply Hsd, Hback; done. }
  assert (Hf1' : forall n, faults w1 n = None) by (intros n; by rewrite Hf1).
  assert (Hc : exists w2, (if pm then shutil_copy2 SF self target else shutil_copy SF self target) w1 =
             (Err (OSError (if bool_decide (self ∈ dirs w1) then EISDIR else ENOENT)), w2) /\
             files w2 = files w1).
  { destruct pm; apply shutil_copy_missing; try done; rewrite ?Hc1; try done.
    all: intros Hx; apply prefix_parent_not_dst; by apply Hsd1. }
  destruct Hc as (w2 & E2 & Hc2).
  unfold copy. rewrite (bind_ok _ _ _ _ _ E1), (bind_err _ _ _ _ _ E2). cbn.
  split; [| congruence]. by rewrite (bool_decide_ext _ _ Hsd1).
Qed.

Lemma copy_missing_source_witness :
  fst (copy (fun _ _ => ValueError "same file") ["a"] ["a"; "b"] true (w_init ∅ no_faults)) =
    Err (OSError (if bool_decide (["a"] ∈ prefixes (parent ["a"; "b"])) then EISDIR else ENOENT)) /\
  files (snd (copy (fun _ _ => ValueError "same file") ["a"] ["a"; "b"] true (w_init ∅ no_faults))) =
    files (w_init ∅ no_faults).
Proof.
  apply (copy_missing_source (fun _ _ => ValueError "same file") ["a"] ["a"; "b"] true (w_init ∅ no_faults)).
  - intros n. reflexivity.
  - repeat constructor.
  - repeat constructor.
  - reflexivity.
  - vm_compute. reflexivity.
Defined.




(** X12: for any YAML codec that decodes its own encoding of [v],
    [load_yaml] after a successful [dump_yaml v] returns [v], when the
    read meets no OS fault. *)
Theorem yaml_round_trip enc dec self v w w1 :
  (forall t, enc v = Ok t -> dec t = Ok v) ->
  dump_yaml enc self v w = (Ok tt, w1) ->
  faults w1 (tick w1) = None -> self ∉ dirs w1 ->
  fst (load_yaml dec self w1) = Ok v.
Proof.
  intros Hcodec Hd Hf Hdir. rewrite dump_yaml_eq in Hd.
  destruct (enc v) as [t|e] eqn:Ht; [| discriminate].
  destruct (atomic_write_bytes_spec _ _ _ _ _ Hd) as (l & _ & _ & Hfiles & _).
  assert (Hr : fst (read_bytes self w1) = Ok t)
    by (apply read_bytes_ok; [exact Hf | exact Hdir | rewrite Hfiles; apply lookup_insert_eq]).
  unfold load_yaml, try_except, bind, lift.
  destruct (read_bytes self w1) as [r2 w2]. cbn in Hr. subst r2.
  rewrite (Hcodec t eq_refl). reflexivity.
Qed.

Lemma yaml_round_trip_witness :
  fst (load_yaml json_decode ["s.yaml"]
         (snd (dump_yaml (fun v => json_bytes v 2) ["s.yaml"] (PList [PBool true; PInt 8080]) (w_init ∅ no_faults)))) =
  Ok (PList [PBool true; PInt 8080]).
Proof.
  apply (yaml_round_trip (fun v => json_bytes v 2) json_decode ["s.yaml"] (PList [PBool true; PInt 8080])
           (w_init ∅ no_faults)).
  - intros t Ht. vm_compute in Ht. injection Ht as <-. vm_compute. reflexivity.
  - assert (E : fst (dump_yaml (fun v => json_bytes v 2) ["s.yaml"] (PList [PBool true; PInt 8080])
                      (w_init ∅ no_faults)) = Ok tt) by (vm_compute; reflexivity).
    rewrite <- E. apply surjective_pairing.
  - vm_compute. reflexivity.
  - apply (bool_decide_unpack _). vm_compute. exact I.
Defined.

Lemma json_decode_blank c :
  forallb json_ws (String.list_ascii_of_string c) = true ->
  exists m, json_decode c = Err (MsgspecDecodeError m).
Proof.
  intros Hc.
  assert (Hs : skip_ws (String.list_ascii_of_string c) = []).
  { rewrite <- (app_nil_r (String.list_ascii_of_string c)). exact (skip_ws_ws _ [] Hc). }
  unfold json_decode. cbn [parse_value]. rewrite Hs. eexists. reflexivity.
Qed.

Lemma load_json_decode_error self w c m :
  faults w (tick w) = None -> self ∉ dirs w -> files w !! self = Some c ->
  json_decode c = Err (MsgspecDecodeError m) ->
  fst (load_json self w) = Err (JSONDecodeError ("Failed to decode JSON from " +:+ str self +:+ ": " +:+ m)).
Proof.
  intros Hf Hd Hc Hdec. rewrite load_json_eq. pose proof (read_bytes_ok _ _ _ Hf Hd Hc) as Hr.
  destruct (read_bytes self w) as [r1 w1]. cbn in Hr. subst r1. rewrite Hdec. reflexivity.
Qed.

(** X13: [load_json] of an empty file, or one holding only whitespace,
    fails with a [JSONDecodeError] naming the path. *)
Theorem load_json_blank_file self w c :
  forallb json_ws (String.list_ascii_of_string c) = true ->
  faults w (tick w) = None -> self ∉ dirs w -> files w !! self = Some c ->
  exists m, fst (load_json self w) =
    Err (JSONDecodeError ("Failed to decode JSON from " +:+ str self +:+ ": " +:+ m)).
Proof.
  intros Hws Hf Hd Hc. destruct (json_decode_blank c Hws) as [m Hm].
  exists m. exact (load_json_decode_error _ _ _ _ Hf Hd Hc Hm).
Qed.

Lemma load_json_blank_file_witness :
  exists m, fst (load_json ["empty.json"] (w_init {[ ["empty.json"] := "" ]} no_faults)) =
    Err (JSONDecodeError ("Failed to decode JSON from " +:+ str ["empty.json"] +:+ ": " +:+ m)).
Proof.
  apply (load_json_blank_file ["empty.json"] (w_init {[ ["empty.json"] := "" ]} no_faults) "").
  - reflexivity.
  - reflexivity.
  - apply (bool_decide_unpack _). vm_compute. exact I.
  - reflexivity.
Defined.

Lemma json_decode_two sep sp v g t2 :
  (forall d, forallb json_ws (String.list_ascii_of_string (sep d)) = true) ->
  forallb json_ws (String.list_ascii_of_string sp) = true ->
  json_value v = true ->
  g <> EmptyString -> forallb json_ws (String.list_ascii_of_string g) = true ->
  (exists c X, t2 = String c X /\ json_ws c = false) ->
  exists m, json_decode (layout sep (":" +:+ sp) 0 v +:+ g +:+ t2) = Err (MsgspecDecodeError m).
Proof.
  intros Hsep Hsp Hv Hg Hgw (c & X & -> & Hc). unfold json_decode. rewrite !L_app.
  assert (Hst : stops (String.list_ascii_of_string g ++ String.list_ascii_of_string (String c X)) = true).
  { destruct g as [|c0 g]; [done |]. cbn in Hgw |- *. apply andb_prop in Hgw as [-> _]. reflexivity. }
  rewrite (parse_layout sep sp Hsep Hsp v Hv); [| | exact Hst].
  - rewrite (skip_ws_ws _ _ Hgw). cbn [String.list_ascii_of_string]. rewrite skip_ws_head by exact Hc.
    eexists. reflexivity.
  - pose proof (layout_length sep (":" +:+ sp) 0 v Hv). rewrite length_app. lia.
Qed.

(** X14: [load_json] rejects a file holding two JSON documents written by
    [dump_json] and separated by whitespace (as in JSON Lines): it fails
    with a [JSONDecodeError] naming the path. *)
Theorem load_json_two_documents self w v1 v2 i1 i2 t1 t2 g :
  json_value v1 = true -> json_value v2 = true ->
  json_bytes v1 i1 = Ok t1 -> json_bytes v2 i2 = Ok t2 ->
  g <> EmptyString -> forallb json_ws (String.list_ascii_of_string g) = true ->
  faults w (tick w) = None -> self ∉ dirs w -> files w !! self = Some (t1 +:+ g +:+ t2) ->
  exists m, fst (load_json self w) =
    Err (JSONDecodeError ("Failed to decode JSON from " +:+ str self +:+ ": " +:+ m)).
Proof.
  intros Hv1 Hv2 Ht1 Ht2 Hg Hgw Hf Hd Hc.
  rewrite json_bytes_layout in Ht1, Ht2 by assumption. injection Ht1 as <-. injection Ht2 as <-.
  assert (Hhead : exists c X, (if (0 <? i2)%Z then indented (Z.to_nat i2) 0 v2 else compact 0 v2) = String c X /\
                              json_ws c = false).
  { destruct (0 <? i2)%Z; [destruct (layout_head (newline_indent (Z.to_nat i2)) ": " 0 v2 Hv2) as (c & X & E & Hc' & _)
                          | destruct (layout_head (fun _ => EmptyString) ":" 0 v2 Hv2) as (c & X & E & Hc' & _)];
      exists c, X; split; assumption. }
  assert (Hdec : exists m, json_decode ((if (0 <? i1)%Z then indented (Z.to_nat i1) 0 v1 else compact 0 v1) +:+ g +:+
                   (if (0 <? i2)%Z then indented (Z.to_nat i2) 0 v2 else compact 0 v2)) = Err (MsgspecDecodeError m)).
  { destruct (0 <? i1)%Z.
    - apply (json_decode_two (newline_indent (Z.to_nat i1)) " "); try assumption; [| reflexivity].
      intros d. apply spaces_ws.
    - apply (json_decode_two (fun _ => EmptyString) EmptyString); try assumption; reflexivity. }
  destruct Hdec as [m Hm]. exists m. exact (load_json_decode_error _ _ _ _ Hf Hd Hc Hm).
Qed.

Lemma load_json_two_documents_witness :
  exists m, fst (load_json ["l.json"] (w_init {[ ["l.json"] := "1" +:+ " " +:+ "2" ]} no_faults)) =
    Err (JSONDecodeError ("Failed to decode JSON from " +:+ str ["l.json"] +:+ ": " +:+ m)).
Proof.
  apply (load_json_two_documents ["l.json"] (w_init {[ ["l.json"] := "1" +:+ " " +:+ "2" ]} no_faults)
           (PInt 1) (PInt 2) 0 0 "1" "2" " ").
  - reflexivity.
  - reflexivity.
  - vm_compute. reflexivity.
  - vm_compute. reflexivity.
  - discriminate.
  - reflexivity.
  - reflexivity.
  - apply (bool_decide_unpack _). vm_compute. exact I.
  - reflexivity.
Defined.

Lemma read_text_nf p w r w1 :
  faults w (tick w) = None -> read_text p w = (r, w1) ->
  files w1 = files w /\ dirs w1 = dirs w /\ faults w1 = faults w /\ (is_ok r = true <-> readable w p).
Proof.
  intros Hf. cbv [read_text read_bytes os_call bind lift]. rewrite Hf. unfold readable.
  change (dirs (bump w)) with (dirs w). change (files (bump w)) with (files w).
  destruct (bool_decide (p ∈ dirs w)) eqn:Ed; bd.
  - intros H. injection H as <- <-. cbn. repeat split; try done. by intros [? _].
  - destruct (files w !! p) as [c|] eqn:Ec; [| intros H; injection H as <- <-; cbn;
      (split; [done | split; [done | split; [done |]]]); split; [discriminate | by intros [_ (? & ? & _)]]].
    cbn. unfold decode_text. destruct (utf8_valid c) eqn:Hu; intros H; injection H as <- <-; cbn;
      (split; [done | split; [done | split; [done |]]]).
    + split; [intros _; split; [done | eauto] | done].
    + split; [discriminate | intros [_ (c' & Hc' & Hu')]; congruence].
Qed.

Lemma gather_run_first_none paths sched slots first w r w' :
  (forall n, faults w n = None) ->
  gather_run paths sched slots first w = (r, w') ->
  exists slots' first', r = Ok (slots', first') /\
  (first' = None <-> first = None /\ forall i p, In i sched -> paths !! i = Some p -> readable w p).
Proof.
  revert slots first w. induction sched as [|i sched IH]; intros slots first w Hf H; cbn in H.
  - injection H as <- <-. eexists _, _. split; [done |]. split; [intros ->; split; [done | intros ? ? []] | tauto].
  - destruct (paths !! i) as [p|] eqn:Hp.
    + destruct (read_text p w) as [r1 w1] eqn:E1.
      destruct (read_text_nf _ _ _ _ (Hf _) E1) as (Hc1 & Hd1 & Hf1 & Hr1).
      assert (Hf1' : forall n, faults w1 n = None) by (intros n; rewrite Hf1; apply Hf).
      assert (Hrd : forall q, readable w1 q <-> readable w q) by (intros q; unfold readable; by rewrite Hc1, Hd1).
      destruct r1 as [c|e].
      * destruct (IH _ _ _ Hf1' H) as (slots' & first' & -> & Hiff). eexists _, _. split; [done |].
        rewrite Hiff. split.
        -- intros [-> Hall]. split; [done |]. intros j q [<-|Hj] Hq.
           ++ rewrite Hp in Hq. injection Hq as <-. by apply Hr1.
           ++ apply Hrd. eauto.
        -- intros [-> Hall]. split; [done |]. intros j q Hj Hq. apply Hrd. apply (Hall j q); [by right | done].
      * destruct (IH _ _ _ Hf1' H) as (slots' & first' & -> & Hiff). eexists _, _. split; [done |].
        rewrite Hiff. split.
        -- intros [Hn _]. by destruct first.
        -- intros [_ Hall]. exfalso. assert (Hr : readable w p) by (apply (Hall i p); [by left | done]).
           apply Hr1 in Hr. discriminate.
    + destruct (IH _ _ _ Hf H) as (slots' & first' & -> & Hiff). eexists _, _. split; [done |].
      rewrite Hiff. split.
      * intros [-> Hall]. split; [done |]. intros j q [<-|Hj] Hq; [congruence | eauto].
      * intros [-> Hall]. split; [done |]. intros j q Hj Hq. apply (Hall j q); [by right | done].
Qed.

(** X15: with no OS faults and every read scheduled once,
    [read_many_async] succeeds exactly when every path is a readable
    file, i.e. exists, is not a directory and holds valid UTF-8 (the
    strict decoding of [read_text]). *)
Theorem read_many_async_ok_iff paths sched w :
  (forall n, faults w n = None) ->
  Permutation sched (seq 0 (length paths)) ->
  is_ok (fst (read_many_async paths sched w)) = true <-> Forall (readable w) paths.
Proof.
  intros Hf Hperm. unfold read_many_async, bind.
  destruct (gather_run paths sched ∅ None w) as [r1 w1] eqn:E.
  destruct (gather_run_first_none _ _ _ _ _ _ _ Hf E) as (slots & first & -> & Hiff).
  rewrite Forall_lookup.
  assert (Hin : forall i p, paths !! i = Some p -> In i sched).
  { intros i p Hp. apply (Permutation_in i (Permutation_sym Hperm)). apply in_seq.
    apply lookup_lt_Some in Hp. lia. }
  destruct first as [e|].
  - cbn. split; [discriminate |]. intros Hall. exfalso.
    assert (Some e = None); [| discriminate]. apply Hiff. split; [done |]. intros i p _ Hp. eauto.
  - cbn. split; [| done]. intros _ i p Hp. apply (proj2 (proj1 Hiff eq_refl) i p); eauto.
Qed.

Lemma read_many_async_ok_iff_witness :
  is_ok (fst (read_many_async [["a"]; ["data"]] [1; 0] (set_files {[ ["a"] := "A" ]} dir_world))) = true <->
  Forall (readable (set_files {[ ["a"] := "A" ]} dir_world)) [["a"]; ["data"]].
Proof.
  apply (read_many_async_ok_iff [["a"]; ["data"]] [1; 0] (set_files {[ ["a"] := "A" ]} dir_world)).
  - intros n. reflexivity.
  - apply perm_swap.
Defined.

Lemma mkdir_first_fails {A} d (k : unit -> M A) w r w' :
  (exists q, q ∈ prefixes d /\ q ∈ dom (files w)) ->
  bind (mkdir_parents d) k w = (r, w') -> (exists e, r = Err e) /\ files w' = files w.
Proof.
  intros (q & Hq & Hqf) H. apply bind_inv in H as (r1 & w1 & E1 & H).
  destruct (mkdir_parents_spec _ _ _ _ E1) as (Hc1 & _ & _ & _ & _ & Hr1).
  destruct r1 as [u|e].
  - exfalso. destruct Hr1 as [Hall _]. apply elem_of_dom in Hqf as [c Hc].
    rewrite (proj1 (Forall_forall _ _) Hall q Hq) in Hc. discriminate.
  - destruct H as [-> ->]. eauto.
Qed.

(** X3: when the parent directory of the path, or one of its ancestors,
    is a regular file, [write_text_async], [write_bytes_async],
    [append_text] and [touch_parents] fail in their
    [mkdir(parents=True, exist_ok=True)] step and change no file; so does
    [copy] when this holds for the target. *)
Theorem ancestor_file_fails self data target SF pm w r w' (r2 : result path) :
  ((exists q, q ∈ prefixes (parent self) /\ q ∈ dom (files w)) ->
   write_text_async self data w = (r, w') \/ write_bytes_async self data w = (r, w') \/
   append_text self data w = (r, w') \/ touch_parents self w = (r, w') ->
   r <> Ok tt /\ files w' = files w) /\
  ((exists q, q ∈ prefixes (parent target) /\ q ∈ dom (files w)) ->
   copy SF self target pm w = (r2, w') -> (exists e, r2 = Err e) /\ files w' = files w).
Proof.
  split.
  - intros Hq H.
    assert (Hgen : forall k : unit -> M unit, bind (mkdir_parents (parent self)) k w = (r, w') ->
                   r <> Ok tt /\ files w' = files w).
    { intros k Hk. destruct (mkdir_first_fails _ _ _ _ _ Hq Hk) as [[e ->] Hc]. split; [discriminate | done]. }
    destruct H as [H|[H|[H|H]]]; exact (Hgen _ H).
  - intros Hq H. exact (mkdir_first_fails _ _ _ _ _ Hq H).
Qed.

Lemma ancestor_file_fails_witness :
  (fst (write_text_async ["a"; "b"] "x" (w_init {[ ["a"] := "x" ]} no_faults)) <> Ok tt /\
   files (snd (write_text_async ["a"; "b"] "x" (w_init {[ ["a"] := "x" ]} no_faults))) =
     files (w_init {[ ["a"] := "x" ]} no_faults)) /\
  ((exists e, fst (copy (fun _ _ => ValueError "same file") ["a"] ["a"; "c"] true (w_init {[ ["a"] := "x" ]} no_faults)) = Err e) /\
   files (snd (copy (fun _ _ => ValueError "same file") ["a"] ["a"; "c"] true (w_init {[ ["a"] := "x" ]} no_faults))) =
     files (w_init {[ ["a"] := "x" ]} no_faults)).
Proof.
  split.
  - apply (proj1 (ancestor_file_fails ["a"; "b"] "x" ["a"; "c"] (fun _ _ => ValueError "same file") true
             (w_init {[ ["a"] := "x" ]} no_faults)
             (fst (write_text_async ["a"; "b"] "x" (w_init {[ ["a"] := "x" ]} no_faults)))
             (snd (write_text_async ["a"; "b"] "x" (w_init {[ ["a"] := "x" ]} no_faults))) (Ok ["a"; "c"]))).
    + exists ["a"]. split; [by left | apply (bool_decide_unpack _); vm_compute; exact I].
    + left. apply surjective_pairing.
  - apply (proj2 (ancestor_file_fails ["a"; "b"] "x" ["a"; "c"] (fun _ _ => ValueError "same file") true
             (w_init {[ ["a"] := "x" ]} no_faults) (Ok tt)
             (snd (copy (fun _ _ => ValueError "same file") ["a"] ["a"; "c"] true (w_init {[ ["a"] := "x" ]} no_faults)))
             (fst (copy (fun _ _ => ValueError "same file") ["a"] ["a"; "c"] true (w_init {[ ["a"] := "x" ]} no_faults))))).
    + exists ["a"]. split; [by left | apply (bool_decide_unpack _); vm_compute; exact I].
    + apply surjective_pairing.
Defined.

(** X5: [write_text_async self a] followed by [append_text self b], both
    successful, leave [a ++ b] at [self], whatever it held before, and no
    other file changed. *)
Theorem write_then_append self a b w w1 w2 :
  write_text_async self a w = (Ok tt, w1) -> append_text self b w1 = (Ok tt, w2) ->
  files w2 = <[self := a +:+ b]> (files w).
Proof.
  intros H1 H2. destruct (write_text_async_spec _ _ _ _ _ H1) as (_ & Hc1 & _).
  destruct (append_text_ok _ _ _ _ H2) as [Hc2 _].
  rewrite Hc2, Hc1, lookup_insert_eq, insert_insert_eq. reflexivity.
Qed.

Lemma write_then_append_witness :
  files (snd (append_text ["log.txt"] "y" (snd (write_text_async ["log.txt"] "x" (w_init ∅ no_faults))))) =
  <[["log.txt"] := "x" +:+ "y"]> (files (w_init ∅ no_faults)).
Proof.
  apply (write_then_append ["log.txt"] "x" "y" (w_init ∅ no_faults)
           (snd (write_text_async ["log.txt"] "x" (w_init ∅ no_faults)))).
  - assert (E : fst (write_text_async ["log.txt"] "x" (w_init ∅ no_faults)) = Ok tt) by (vm_compute; reflexivity).
    rewrite <- E. apply surjective_pairing.
  - assert (E : fst (append_text ["log.txt"] "y" (snd (write_text_async ["log.txt"] "x" (w_init ∅ no_faults)))) = Ok tt)
      by (vm_compute; reflexivity).
    rewrite <- E. apply surjective_pairing.
Defined.
